(** * Magnetic field of circular coils: the single coil and the Helmholtz pair

    A shallow embedding of [js/single_coil.js] (single N-turn coil, field and
    gradient of the field magnitude) and of the Helmholtz-pair calculator,
    together with the properties their specification states.

    JavaScript numbers are IEEE 754 binary64 values: they are modelled by
    Rocq's primitive floats, whose operations [+ - * / sqrt abs] and
    comparisons are the IEEE ones.  The functions of the [Math] object that
    ECMAScript leaves implementation-approximated ([Math.hypot], [Math.pow])
    and the number formatter [toExponential] are operations of the host,
    collected in the class [Host].

    Statements about the size of rounding errors read a binary64 number as
    the real number it stands for ([F2R]); they rest on the specification of
    the operations in the standard library ([SpecFloat]). *)

From Stdlib Require Import ZArith Bool List String Ascii Lia Floats.
From Stdlib Require Import Reals Lra Psatz.
Import ListNotations.

Set Warnings "-inexact-float".
Local Open Scope float_scope.

(** ** JavaScript numbers *)

Module JS.

Notation "x >? y" := (PrimFloat.ltb y x) (at level 70, no associativity) : float_scope.
Notation "x >=? y" := (PrimFloat.leb y x) (at level 70, no associativity) : float_scope.

(** [x === y] on numbers. *)
Definition strict_eq (x y : float) : bool := (x =? y).

(** [Number.isNaN]. *)
Definition Number_isNaN (x : float) : bool := PrimFloat.is_nan x.

(** [isFinite]. *)
Definition isFinite (x : float) : bool := PrimFloat.is_finite x.

(** [ToBoolean] of a number: false for [+0], [-0] and [NaN]. *)
Definition truthy (x : float) : bool :=
  negb (PrimFloat.is_zero x || PrimFloat.is_nan x).

(** [x || y] on numbers. *)
Definition or_else (x y : float) : float := if truthy x then x else y.

Definition Math_PI : float := 3.141592653589793.
Definition Math_sqrt (x : float) : float := PrimFloat.sqrt x.
Definition Math_abs (x : float) : float := PrimFloat.abs x.

(** [Math.max] and [Math.min] of two numbers: [NaN] when an argument is
    [NaN], and [+0] is larger than [-0]. *)
Definition Math_max (x y : float) : float :=
  if PrimFloat.is_nan x || PrimFloat.is_nan y then nan
  else if x <? y then y
  else if y <? x then x
  else if PrimFloat.get_sign x then y else x.

Definition Math_min (x y : float) : float :=
  if PrimFloat.is_nan x || PrimFloat.is_nan y then nan
  else if x <? y then x
  else if y <? x then y
  else if PrimFloat.get_sign x then x else y.

(** The operations of the host that ECMAScript does not fix bit for bit. *)
Class Host : Type := {
  Math_hypot2 : float -> float -> float;
  Math_hypot3 : float -> float -> float -> float;
  Math_pow : float -> float -> float;
  toExponential : float -> nat -> string
}.

(** A JavaScript array of three numbers. *)
Definition vec3 : Type := (float * float * float)%type.
Definition idx0 (v : vec3) : float := fst (fst v).
Definition idx1 (v : vec3) : float := snd (fst v).
Definition idx2 (v : vec3) : float := snd v.

End JS.
Import JS.

(** ** Outcomes and call traces *)

(** How a call ends: it returns, it throws [new Error(message)], or the fuel
    given to a [while] loop is used up before the loop ends. *)
Inductive outcome (A : Type) : Type :=
| Return (a : A)
| Throw (message : string)
| Exhausted.
Arguments Return {A} a.
Arguments Throw {A} message.
Arguments Exhausted {A}.

(** A call that was entered, with its numeric arguments. *)
Inductive call : Type :=
| Call (fn : string) (args : list float).

(** A computation: the calls it entered, in order, and its outcome. *)
Definition traced (A : Type) : Type := (list call * outcome A)%type.

Definition ret {A} (a : A) : traced A := ([], Return a).

Definition bind {A B} (c : traced A) (k : A -> traced B) : traced B :=
  match c with
  | (t, Return a) => let '(t', r) := k a in (t ++ t', r)
  | (t, Throw e) => (t, Throw e)
  | (t, Exhausted) => (t, Exhausted)
  end.

Definition enter (fn : string) (args : list float) : traced unit :=
  ([Call fn args], Return tt).

Definition lift {A} (o : outcome A) : traced A := ([], o).

Definition trace {A} (c : traced A) : list call := fst c.
Definition result {A} (c : traced A) : outcome A := snd c.

Notation "x <- c ;; k" := (bind c (fun x => k))
  (at level 61, c at next level, right associativity).
Notation "c ;;; k" := (bind c (fun _ => k))
  (at level 61, right associativity).

(** ** The complete elliptic integrals (both files carry the same text) *)

Definition mu0 : float := 4 * Math_PI * 1e-7.

Definition domain_message : string := "参数 m 必须在 [0, 1) 内".

Definition tol : float := 1e-14.

(** The [while] loop of [ellipticKE]: the state is [(a, b, c, sum, pow)] and
    the loop returns the final [a] and [sum]. *)
Fixpoint agm_loop (fuel : nat) (a b c sum pow : float) : outcome (float * float) :=
  if Math_abs c >? tol * a then
    match fuel with
    | O => Exhausted
    | S fuel' =>
        let an := (a + b) / 2 in
        let bn := Math_sqrt (a * b) in
        let c := (a - b) / 2 in
        let sum := sum + pow * c * c in
        let pow := pow * 2 in
        agm_loop fuel' an bn c sum pow
    end
  else Return (a, sum).

(** [ellipticKE(m)] returns the object [{K, E}], here the pair [(K, E)]. *)
Definition ellipticKE (fuel : nat) (m : float) : outcome (float * float) :=
  if (m <? 0) || (m >=? 1) then Throw domain_message
  else
    let a := 1 in
    let b := Math_sqrt (1 - m) in
    let c := a - b in
    let sum := 0 in
    let pow := 1 in
    match agm_loop fuel a b c sum pow with
    | Return (a, sum) =>
        let K := Math_PI / (2 * a) in
        let E := K * (1 - sum) in
        Return (K, E)
    | Throw e => Throw e
    | Exhausted => Exhausted
    end.

Notation "' pat <- c ;; k" := (bind c (fun x => match x with pat => k end))
  (at level 61, pat pattern, c at next level, right associativity).

(** [xs.map(f)] for a callback that may throw. *)
Fixpoint mapM {A B} (f : A -> traced B) (xs : list A) : traced (list B) :=
  match xs with
  | [] => ret []
  | x :: xs' => y <- f x ;; ys <- mapM f xs' ;; ret (y :: ys)
  end.

(** [try { body } catch (err) { handler(err.message) }] around a body whose
    value is used by [k]. *)
Definition try_catch {A B} (body : traced A) (k : A -> B) (handler : string -> B)
  : traced B :=
  match body with
  | (t, Return a) => (t, Return (k a))
  | (t, Throw e) => (t, Return (handler e))
  | (t, Exhausted) => (t, Exhausted)
  end.

(** ** The page: the two text nodes the handlers write *)

Record page : Type := { error_text : string; output_text : string }.

(** [showError(msg)]: [textContent = msg || ""]. *)
Definition showError (msg : string) (p : page) : page :=
  {| error_text := msg; output_text := output_text p |}.

Definition setOutput (txt : string) (p : page) : page :=
  {| error_text := error_text p; output_text := txt |}.

(** [err.message || fallback] *)
Definition message_or (message fallback : string) : string :=
  match message with
  | EmptyString => fallback
  | _ => message
  end.

Definition newline : string := String (ascii_of_nat 10) EmptyString.

Section Formatting.
Context {host : Host}.

Definition toSci (num : float) : string :=
  if negb (isFinite num) then "NaN" else toExponential num 6.

Definition show_vec3 (v : vec3) : string :=
  ("[" ++ toSci (idx0 v) ++ ", " ++ toSci (idx1 v) ++ ", " ++ toSci (idx2 v) ++ "]")%string.
End Formatting.

(** ** js/single_coil.js *)

Module SingleCoil.

(** The object [{ B, Bmag, grad }]. *)
Record fieldWithGrad : Type := { B : vec3; Bmag : float; grad : vec3 }.

Section WithHost.
Context {host : Host}.

(** Magnetic field of a circular loop centered at the origin, axis along x. *)
Definition loopFieldMeters (fuel : nat) (x y z R I N : float) : traced vec3 :=
  enter "loopFieldMeters" [x; y; z; R; I; N] ;;;
  let rho := Math_hypot2 y z in
  let x2 := x * x in
  if strict_eq rho 0 then
    let bx := (mu0 * I * N * R * R) / (2 * Math_pow (R * R + x2) 1.5) in
    ret (bx, 0, 0)
  else
    let denom2 := Math_pow (R + rho) 2 + x2 in
    let kSqRaw := (4 * R * rho) / denom2 in
    let kSq := Math_min (1 - 1e-14) (Math_max 0 kSqRaw) in
    '(K, E) <- lift (ellipticKE fuel kSq) ;;
    let denom := Math_sqrt denom2 in
    let factor := (mu0 * I * N) / (2 * Math_PI * denom) in
    let rho2 := rho * rho in
    let aMinusRho2 := Math_pow (R - rho) 2 in
    let bRho :=
      factor *
      (x / rho) *
      (- K + ((R * R + rho2 + x2) / (aMinusRho2 + x2)) * E) in
    let bX :=
      factor *
      (K + ((R * R - rho2 - x2) / (aMinusRho2 + x2)) * E) in
    let cosPhi := y / rho in
    let sinPhi := z / rho in
    let bY := bRho * cosPhi in
    let bZ := bRho * sinPhi in
    ret (bX, bY, bZ).

(** The step of the finite difference: [Math.max(1e-5, R * 1e-4 || 0)]. *)
Definition step (R : float) : float := Math_max 1e-5 (or_else (R * 1e-4) 0).

(** The closure [magAt] of [coilFieldWithGrad]. *)
Definition magAt (fuel : nat) (x y z R I N : float) (dx dy dz : float) : traced float :=
  '(bx, by_, bz) <- loopFieldMeters fuel (x + dx) (y + dy) (z + dz) R I N ;;
  ret (Math_hypot3 bx by_ bz).

Definition coilFieldWithGrad (fuel : nat) (x_cm y_cm z_cm R_cm I N : float)
  : traced fieldWithGrad :=
  enter "coilFieldWithGrad" [x_cm; y_cm; z_cm; R_cm; I; N] ;;;
  let x := x_cm * 1e-2 in
  let y := y_cm * 1e-2 in
  let z := z_cm * 1e-2 in
  let R := R_cm * 1e-2 in
  baseB <- loopFieldMeters fuel x y z R I N ;;
  let baseMag := Math_hypot3 (idx0 baseB) (idx1 baseB) (idx2 baseB) in
  let h := step R in
  let magAt := magAt fuel x y z R I N in
  xp <- magAt h 0 0 ;;
  xm <- magAt (- h) 0 0 ;;
  let gradX := (xp - xm) / (2 * h) in
  yp <- magAt 0 h 0 ;;
  ym <- magAt 0 (- h) 0 ;;
  let gradY := (yp - ym) / (2 * h) in
  zp <- magAt 0 0 h ;;
  zm <- magAt 0 0 (- h) ;;
  let gradZ := (zp - zm) / (2 * h) in
  ret {| B := baseB; Bmag := baseMag; grad := (gradX, gradY, gradZ) |}.

(** The text written to the output node after a successful run. *)
Definition render (r : fieldWithGrad) (voltage : float) : string :=
  (("B = " ++ show_vec3 (B r) ++ " T") ++ newline ++
   ("|B| = " ++ toSci (Bmag r) ++ " T") ++ newline ++
   ("grad|B| = " ++ show_vec3 (grad r) ++ " T/m") ++ newline ++
   ("线圈电压 (I·R) ≈ " ++ toSci voltage ++ " V"))%string.

(** The click handler installed by [main], applied to the numbers that
    [parseFloat] and [parseInt] produced from the form ([NaN] for a field
    that does not parse). *)
Definition onClick (fuel : nat) (x y z R I Omega N : float) (p : page)
  : traced page :=
  let p := showError "" p in
  if existsb Number_isNaN [x; y; z; R; I; Omega; N] then
    ret (showError "请填写所有输入。" p)
  else if R <=? 0 then
    ret (showError "R 必须大于 0" p)
  else if Omega <=? 0 then
    ret (showError "电阻必须大于 0" p)
  else if N <=? 0 then
    ret (showError "匝数 N 必须为正整数" p)
  else
    try_catch (coilFieldWithGrad fuel x y z R I N)
      (fun r => let voltage := I * Omega in setOutput (render r voltage) p)
      (fun message => showError (message_or message "计算出错") p).
End WithHost.

End SingleCoil.

(** ** The Helmholtz-pair calculator *)

Module Helmholtz.

Section WithHost.
Context {host : Host}.

(** The inner function [loopField] of [helmholtzField]; [I] and [N] are the
    variables of the enclosing call that it reads. *)
Definition loopField (fuel : nat) (I N : float) (xp yp zp a x0 : float)
  : traced vec3 :=
  enter "loopField" [xp; yp; zp; a; x0] ;;;
  let rho := Math_hypot2 yp zp in
  let zax := xp - x0 in
  if strict_eq rho 0 then
    let bx := (mu0 * I * N * a * a) / (2 * Math_pow (a * a + zax * zax) 1.5) in
    ret (bx, 0, 0)
  else
    let denom2 := Math_pow (a + rho) 2 + zax * zax in
    let kSq := (4 * a * rho) / denom2 in
    '(K, E) <- lift (ellipticKE fuel kSq) ;;
    let denom := Math_sqrt denom2 in
    let factor := (mu0 * I * N) / (2 * Math_PI * denom) in
    let rho2 := rho * rho in
    let z2 := zax * zax in
    let aMinusRho2 := Math_pow (a - rho) 2 in
    let bRho :=
      factor *
      (zax / rho) *
      (- K + ((a * a + rho2 + z2) / (aMinusRho2 + z2)) * E) in
    let bX :=
      factor *
      (K + ((a * a - rho2 - z2) / (aMinusRho2 + z2)) * E) in
    let cosPhi := yp / rho in
    let sinPhi := zp / rho in
    let bY := bRho * cosPhi in
    let bZ := bRho * sinPhi in
    ret (bX, bY, bZ).

(** The callback of [reduce]. *)
Definition add_vec (acc cur : vec3) : vec3 :=
  (idx0 acc + idx0 cur, idx1 acc + idx1 cur, idx2 acc + idx2 cur).

Definition helmholtzField (fuel : nat) (x_cm y_cm z_cm R_cm V Omega N : float)
  : traced vec3 :=
  enter "helmholtzField" [x_cm; y_cm; z_cm; R_cm; V; Omega; N] ;;;
  let x := x_cm * 1e-2 in
  let y := y_cm * 1e-2 in
  let z := z_cm * 1e-2 in
  let R := R_cm * 1e-2 in
  let I := V / Omega in
  let centers := [- R / 2; R / 2] in
  fields <- mapM (fun c => loopField fuel I N x y z R c) centers ;;
  let b := fold_left add_vec fields (0, 0, 0) in
  ret b.

Definition render (b : vec3) (bmag : float) : string :=
  ("B = " ++ show_vec3 b ++ " T" ++ newline ++ "|B| = " ++ toSci bmag ++ " T")%string.

Definition onClick (fuel : nat) (x y z R V Omega N : float) (p : page)
  : traced page :=
  let p := showError "" p in
  if existsb Number_isNaN [x; y; z; R; V; Omega; N] then
    ret (showError "请填写所有输入。" p)
  else if R <=? 0 then
    ret (showError "R 必须大于 0" p)
  else if Omega <=? 0 then
    ret (showError "电阻必须大于 0" p)
  else if N <=? 0 then
    ret (showError "匝数 N 必须为正整数" p)
  else
    try_catch (helmholtzField fuel x y z R V Omega N)
      (fun b =>
         let bmag := Math_hypot3 (idx0 b) (idx1 b) (idx2 b) in
         setOutput (render b bmag) p)
      (fun message => showError (message_or message "计算出错") p).
End WithHost.

End Helmholtz.

(** ** A reference host, used to run the definitions on concrete inputs *)

Definition reference_host : Host := {|
  Math_hypot2 := fun y z => Math_sqrt (y * y + z * z);
  Math_hypot3 := fun a b c => Math_sqrt (a * a + b * b + c * c);
  Math_pow := fun b e =>
    if e =? 2 then b * b
    else if e =? 1.5 then b * Math_sqrt b
    else nan;
  toExponential := fun _ _ => EmptyString
|}.


(** ** Notions used by the statements *)

(** Two numbers that are the same value or that [===] holds of: [NaN] is the
    same as [NaN], and [+0] the same as [-0]. *)
Definition same_number (x y : float) : Prop := x = y \/ strict_eq x y = true.

Definition same_vec (u v : vec3) : Prop :=
  same_number (idx0 u) (idx0 v) /\
  same_number (idx1 u) (idx1 v) /\
  same_number (idx2 u) (idx2 v).

(** Two outcomes of the same kind, whose returned values are related. *)
Inductive outcome_rel {A : Type} (R : A -> A -> Prop) : outcome A -> outcome A -> Prop :=
| rel_Return a b : R a b -> outcome_rel R (Return a) (Return b)
| rel_Throw e : outcome_rel R (Throw e) (Throw e)
| rel_Exhausted : outcome_rel R Exhausted Exhausted.

(** The inputs that the click handlers turn away: a field that did not parse,
    or a radius, resistance or turn count that is not positive. *)
Definition rejected (x y z R IV Omega N : float) : bool :=
  existsb Number_isNaN [x; y; z; R; IV; Omega; N]
  || (R <=? 0) || (Omega <=? 0) || (N <=? 0).

(** The four messages of the validation. *)
Definition validation_messages : list string :=
  ["请填写所有输入。"; "R 必须大于 0"; "电阻必须大于 0"; "匝数 N 必须为正整数"]%string.

(** The magnitude [Math.hypot(b[0], b[1], b[2])] of a field vector. *)
Definition magnitude {host : Host} (b : vec3) : float :=
  Math_hypot3 (idx0 b) (idx1 b) (idx2 b).


(** The textbook field at the centre of a Helmholtz pair,
    [mu0 * N * I * (4/5)^1.5 / R], with [(4/5)^1.5] written [0.8 * sqrt 0.8]. *)
Definition helmholtz_center_formula (R N I : float) : float :=
  mu0 * N * I * (0.8 * Math_sqrt 0.8) / R.

(** [x] is within the fraction [tolerance] of [reference]. *)
Definition within (tolerance reference x : float) : bool :=
  Math_abs (x - reference) <=? tolerance * reference.

(** The binary64 numbers nearest to [0.012500000000000002 ^ 1.5], which is
    0.00139754248593736896754649...: the nearest one, and two on either side. *)
Definition pow_center_candidates : list float :=
  [0.0013975424859373686; 0.0013975424859373688; 0.001397542485937369;
   0.0013975424859373692; 0.0013975424859373694].

(** The outcome of a call, looking at one part of the returned value. *)
Definition outcome_map {A B : Type} (f : A -> B) (o : outcome A) : outcome B :=
  match o with
  | Return a => Return (f a)
  | Throw e => Throw e
  | Exhausted => Exhausted
  end.

(** A page with nothing written yet. *)
Definition blank_page : page := {| error_text := ""; output_text := "" |}.

(** ** Doubling the current *)

(** [r] is a normal number with room on both sides: [2^-1020 <= |r| < 2^1023]. *)
Definition roomy (r : float) : bool :=
  (0x1p-1020 <=? Math_abs r) && (Math_abs r <? 0x1p1023).

(** [r] is a zero, an infinity or [NaN]: twice [r] is [r]. *)
Definition unscaled (r : float) : bool := strict_eq r 0 || negb (isFinite r).

(** Twice [r] is exact, and it has the digits of [r]. *)
Definition scalable (r : float) : bool := roomy r || unscaled r.

(** The product or quotient [r] of [u] and [v] doubles when [u] does. *)
Definition scales (u v r : float) : bool := roomy r || unscaled u || unscaled v.

(** The sum [r] of [u] and [v] doubles when both do: it is such a normal
    number or a zero (addition is exact there), or one of its terms is a zero,
    an infinity or [NaN]. *)
Definition sums (u v r : float) : bool :=
  roomy r || strict_eq r 0 || unscaled u || unscaled v.

(** The values that follow the current on the axis, each with the operands it
    is computed from: [mu0 * I], [* N], [* R], [* R] and [/ D], where [D] is
    the denominator [2 * Math.pow(R*R + zax*zax, 1.5)]. *)
Definition axial_scales (I N R D : float) : bool :=
  let t1 := mu0 * I in
  let t2 := t1 * N in
  let t3 := t2 * R in
  let t4 := t3 * R in
  scales I mu0 t1 && scales t1 N t2 && scales t2 R t3 && scales t3 R t4 &&
  scales t4 D (t4 / D).

(** The same off the axis: [factor = mu0 * I * N / D], [bRho = factor * X * G1],
    [bX = factor * G2], [bY = bRho * cosPhi] and [bZ = bRho * sinPhi]. *)
Definition off_axis_scales (I N D X G1 G2 cosPhi sinPhi : float) : bool :=
  let t1 := mu0 * I in
  let t2 := t1 * N in
  let factor := t2 / D in
  let f2 := factor * X in
  let bRho := f2 * G1 in
  scales I mu0 t1 && scales t1 N t2 && scales t2 D factor &&
  scales factor X f2 && scales f2 G1 bRho && scales factor G2 (factor * G2) &&
  scales bRho cosPhi (bRho * cosPhi) && scales bRho sinPhi (bRho * sinPhi).

(** The current [I] and the values computed from it by a loop-field function
    can be doubled exactly; [rho], [zax] and [kSq] are the radial distance, the
    axial displacement and the parameter passed to [ellipticKE]. *)
Definition current_scales {host : Host} (fuel : nat) (I N R rho zax y z kSq : float)
  : Prop :=
  scalable I = true /\
  if strict_eq rho 0 then
    axial_scales I N R (2 * Math_pow (R * R + zax * zax) 1.5) = true
  else
    exists K E,
      ellipticKE fuel kSq = Return (K, E) /\
      let z2 := zax * zax in
      let rho2 := rho * rho in
      let aMinusRho2 := Math_pow (R - rho) 2 in
      off_axis_scales I N
        (2 * Math_PI * Math_sqrt (Math_pow (R + rho) 2 + z2))
        (zax / rho)
        (- K + ((R * R + rho2 + z2) / (aMinusRho2 + z2)) * E)
        (K + ((R * R - rho2 - z2) / (aMinusRho2 + z2)) * E)
        (y / rho) (z / rho) = true.

(** The vector [b] doubled, component by component. *)
Definition twice (b : vec3) : vec3 := (2 * idx0 b, 2 * idx1 b, 2 * idx2 b).

(** [current_scales] for one loop of the pair, centred at [x0]. *)
Definition loop_scales {host : Host} (fuel : nat) (I N xp yp zp a x0 : float)
  : Prop :=
  let rho := Math_hypot2 yp zp in
  let zax := xp - x0 in
  current_scales fuel I N a rho zax yp zp
    ((4 * a * rho) / (Math_pow (a + rho) 2 + zax * zax)).

(** The sums of [reduce], [0 + b1[k] + b2[k]] for each component, double
    with the two vectors. *)
Definition sum_scales (b1 b2 : vec3) : bool :=
  sums (0 + idx0 b1) (idx0 b2) (0 + idx0 b1 + idx0 b2) &&
  sums (0 + idx1 b1) (idx1 b2) (0 + idx1 b1 + idx1 b2) &&
  sums (0 + idx2 b1) (idx2 b2) (0 + idx2 b1 + idx2 b2).

(** The voltage [V] and the values computed from it by [helmholtzField] can
    be doubled exactly: the current [V / Omega], what each of the two loops
    computes from it, and the sums of their fields. *)
Definition voltage_scales {host : Host} (fuel : nat)
  (x_cm y_cm z_cm R_cm V Omega N : float) : Prop :=
  let x := x_cm * 1e-2 in
  let y := y_cm * 1e-2 in
  let z := z_cm * 1e-2 in
  let R := R_cm * 1e-2 in
  let I := V / Omega in
  scalable V = true /\ scales V Omega I = true /\
  loop_scales fuel I N x y z R (- R / 2) /\
  loop_scales fuel I N x y z R (R / 2) /\
  exists b1 b2,
    result (Helmholtz.loopField fuel I N x y z R (- R / 2)) = Return b1 /\
    result (Helmholtz.loopField fuel I N x y z R (R / 2)) = Return b2 /\
    sum_scales b1 b2 = true.

(** The three components of [b] can be doubled exactly. *)
Definition scalable_vec (b : vec3) : Prop :=
  scalable (idx0 b) = true /\ scalable (idx1 b) = true /\ scalable (idx2 b) = true.

(** ** Mirror images and reversals *)

(** [v] with the chosen components negated. *)
Definition flip_vec (fx fy fz : bool) (v : vec3) : vec3 :=
  ((if fx then - idx0 v else idx0 v),
   (if fy then - idx1 v else idx1 v),
   (if fz then - idx2 v else idx2 v)).

(** [v] with its second and third components exchanged. *)
Definition swap_yz (v : vec3) : vec3 := (idx0 v, idx2 v, idx1 v).

(** [b'] is the mirror image of [b] in a plane across the axis: the same
    axial component, the transverse ones reversed. *)
Definition mirror_image (b b' : vec3) : Prop :=
  same_vec b' (flip_vec false true true b).

(** ** Doubling the turn count *)

(** The values that follow the turn count on the axis: [mu0 * I * N], [* R],
    [* R] and [/ D]. *)
Definition axial_scales_turns (I N R D : float) : bool :=
  let t1 := mu0 * I in
  let t2 := t1 * N in
  let t3 := t2 * R in
  let t4 := t3 * R in
  scales N t1 t2 && scales t2 R t3 && scales t3 R t4 && scales t4 D (t4 / D).

(** The same off the axis. *)
Definition off_axis_scales_turns (I N D X G1 G2 cosPhi sinPhi : float) : bool :=
  let t1 := mu0 * I in
  let t2 := t1 * N in
  let factor := t2 / D in
  let f2 := factor * X in
  let bRho := f2 * G1 in
  scales N t1 t2 && scales t2 D factor &&
  scales factor X f2 && scales f2 G1 bRho && scales factor G2 (factor * G2) &&
  scales bRho cosPhi (bRho * cosPhi) && scales bRho sinPhi (bRho * sinPhi).

(** The turn count [N] and the values computed from it by a loop-field
    function can be doubled exactly. *)
Definition turns_scale {host : Host} (fuel : nat) (I N R rho zax y z kSq : float)
  : Prop :=
  scalable N = true /\
  if strict_eq rho 0 then
    axial_scales_turns I N R (2 * Math_pow (R * R + zax * zax) 1.5) = true
  else
    exists K E,
      ellipticKE fuel kSq = Return (K, E) /\
      let z2 := zax * zax in
      let rho2 := rho * rho in
      let aMinusRho2 := Math_pow (R - rho) 2 in
      off_axis_scales_turns I N
        (2 * Math_PI * Math_sqrt (Math_pow (R + rho) 2 + z2))
        (zax / rho)
        (- K + ((R * R + rho2 + z2) / (aMinusRho2 + z2)) * E)
        (K + ((R * R - rho2 - z2) / (aMinusRho2 + z2)) * E)
        (y / rho) (z / rho) = true.
(** ** Binary64 numbers as real numbers *)

(** The exponent function of the format, [fexp e = max (e - 53) (-1074)]. *)
Definition fexp64 : Z -> Z := fexp prec emax.

(** Powers of two. *)
Definition bpow (e : Z) : R := powerRZ 2 e.

(** The real number a finite binary64 number stands for; [0] for the others. *)
Definition SF2R (x : spec_float) : R :=
  match x with
  | S754_finite s m e => ((if s then -1 else 1) * IZR (Zpos m) * bpow e)%R
  | _ => 0%R
  end.

Definition F2R (x : float) : R := SF2R (Prim2SF x).

(** The value of a positive mantissa and exponent. *)
Definition mag (m : positive) (e : Z) : R := (IZR (Zpos m) * bpow e)%R.

Definition finite_or_zero (x : spec_float) : Prop :=
  match x with
  | S754_zero _ | S754_finite _ _ _ => True
  | _ => False
  end.

(** The number 2. *)
Definition SFtwo : spec_float := S754_finite false 4503599627370496 (-51).

(** The mantissa and exponent of a binary64 number: at most 53 digits, and
    exactly 53 unless the exponent is the smallest one. *)
Definition canonical (m : positive) (e : Z) : Prop :=
  (Zpos (digits2_pos m) <= 53 /\ -1074 <= e /\
   (Zpos (digits2_pos m) = 53 \/ e = -1074))%Z.

(** [x] is a positive finite number of value [v]. *)
Definition posfloat (x : float) (v : R) : Prop :=
  exists m e, Prim2SF x = S754_finite false m e /\ v = mag m e.

(** The bound on the relative error of one operation: one unit in the last
    place, [2^-52]. *)
Definition u2 : R := bpow (-52).

(** The value of [tol = 1e-14]. *)
Definition TOL : R := mag 6338253001141147 (-99).

(** A relative gap [|a - b| / (a + b)] at which the loop test fails: [2^-47]. *)
Definition theta0 : R := (/ 140737488355328)%R.

(** The bound on the relative gap after one more run of the loop body. *)
Definition next (theta : R) : R := (theta * theta + 8 * u2)%R.

(** After [n] runs the bound is at most [theta0]. *)
Fixpoint reach (n : nat) (theta : R) : Prop :=
  match n with
  | O => (theta <= theta0)%R
  | S n' => reach n' (next theta)
  end.

(** ** The complete elliptic integral of the second kind *)

(** The integrand [sqrt (1 - m sin^2 theta)]. *)
Definition E_integrand (m theta : R) : R :=
  sqrt (1 - m * (sin theta * sin theta)).

(** [E] is the complete elliptic integral of the second kind of parameter [m]:
    the integral of [E_integrand m] from [0] to [PI / 2]. *)
Definition complete_E (m E : R) : Prop :=
  exists pr : Riemann_integrable (E_integrand m) 0 (PI / 2), RiemannInt pr = E.

(** [x] and [ref] agree to [digits] significant digits: they differ by at most
    one unit of the last of these digits, [|x - ref| <= |ref| / 10^(digits-1)]. *)
Definition agrees_to (digits : nat) (x ref : R) : Prop :=
  (Rabs (x - ref) <= Rabs ref / 10 ^ (digits - 1))%R.

(** ** The length of a field vector *)

(** The three components of [b] are finite numbers. *)
Definition finite_vec (b : vec3) : bool :=
  isFinite (idx0 b) && isFinite (idx1 b) && isFinite (idx2 b).

(** The Euclidean length of a vector of finite numbers, as a real number:
    what [Math.hypot(b[0], b[1], b[2])] approximates. *)
Definition euclidean_length (b : vec3) : R :=
  sqrt (F2R (idx0 b) * F2R (idx0 b) + F2R (idx1 b) * F2R (idx1 b)
        + F2R (idx2 b) * F2R (idx2 b)).

(** ** Facts about binary64 numbers *)

Ltac sf_cases :=
  repeat match goal with
  | |- context [Z.compare ?a ?b] => destruct (Z.compare_spec a b)
  | |- context [Pos.compare_cont Eq ?a ?b] =>
      change (Pos.compare_cont Eq a b) with (Pos.compare a b);
      destruct (Pos.compare_spec a b)
  | H : context [Z.compare ?a ?b] |- _ => destruct (Z.compare_spec a b)
  | H : context [Pos.compare_cont Eq ?a ?b] |- _ =>
      change (Pos.compare_cont Eq a b) with (Pos.compare a b) in H;
      destruct (Pos.compare_spec a b)
  end.

(** Decides a statement about [SFcompare] by cases on the shape of the numbers. *)
Ltac sf_order :=
  unfold SFltb, SFleb, SFeqb, SFcompare;
  repeat match goal with
  | x : spec_float |- _ => destruct x as [[]|[]| |[] ? ?]
  end;
  simpl; intros; try congruence; try reflexivity;
  sf_cases; simpl in *; subst; try congruence; try lia.

Lemma SFltb_asym x y : SFltb x y = true -> SFltb y x = false.
Proof. sf_order. Qed.

Lemma SFleb_ltb_trans x y z :
  SFleb x y = true -> SFltb y z = true -> SFltb x z = true.
Proof. sf_order. Qed.

Lemma SFltb_leb_trans x y z :
  SFltb x y = true -> SFleb y z = true -> SFltb x z = true.
Proof. sf_order. Qed.

Lemma SFltb_leb x y : SFltb x y = true -> SFleb x y = true.
Proof. sf_order. Qed.

Lemma SFeqb_leb x y : SFeqb x y = true -> SFleb x y = true.
Proof. sf_order. Qed.

Lemma SFeqb_sym x y : SFeqb x y = true -> SFeqb y x = true.
Proof. sf_order. Qed.

Lemma SFeqb_refl x : x <> S754_nan -> SFeqb x x = true.
Proof. sf_order. Qed.

Lemma SFeqb_nan x : SFeqb x x = false -> x = S754_nan.
Proof. sf_order. Qed.

Lemma SF_total x y :
  x <> S754_nan -> y <> S754_nan -> SFltb x y = false -> SFleb y x = true.
Proof. sf_order. Qed.

Lemma SFleb_not_ltb x y : SFleb x y = true -> SFltb y x = false.
Proof. sf_order. Qed.

(** The same facts on primitive floats. *)

Lemma is_nan_spec x : PrimFloat.is_nan x = true <-> Prim2SF x = S754_nan.
Proof.
  unfold PrimFloat.is_nan. rewrite eqb_spec. split.
  - intros H. apply SFeqb_nan. now destruct (SFeqb _ _).
  - intros ->. reflexivity.
Qed.

Lemma not_nan_spec x : PrimFloat.is_nan x = false <-> Prim2SF x <> S754_nan.
Proof.
  rewrite <- is_nan_spec. destruct (PrimFloat.is_nan x); split; congruence.
Qed.

Lemma ltb_asym x y : (x <? y) = true -> (y <? x) = false.
Proof. rewrite !ltb_spec. apply SFltb_asym. Qed.

Lemma leb_ltb_trans x y z : (x <=? y) = true -> (y <? z) = true -> (x <? z) = true.
Proof. rewrite !ltb_spec, leb_spec. apply SFleb_ltb_trans. Qed.

Lemma ltb_leb_trans x y z : (x <? y) = true -> (y <=? z) = true -> (x <? z) = true.
Proof. rewrite !ltb_spec, leb_spec. apply SFltb_leb_trans. Qed.

Lemma ltb_leb x y : (x <? y) = true -> (x <=? y) = true.
Proof. rewrite ltb_spec, leb_spec. apply SFltb_leb. Qed.

Lemma eqb_leb x y : (x =? y) = true -> (x <=? y) = true.
Proof. rewrite eqb_spec, leb_spec. apply SFeqb_leb. Qed.

Lemma eqb_sym x y : (x =? y) = true -> (y =? x) = true.
Proof. rewrite !eqb_spec. apply SFeqb_sym. Qed.

Lemma leb_not_ltb x y : (x <=? y) = true -> (y <? x) = false.
Proof. rewrite ltb_spec, leb_spec. apply SFleb_not_ltb. Qed.

Lemma total x y :
  PrimFloat.is_nan x = false -> PrimFloat.is_nan y = false ->
  (x <? y) = false -> (y <=? x) = true.
Proof.
  rewrite !not_nan_spec, ltb_spec, leb_spec. apply SF_total.
Qed.

(** A number below [c] is not [>= d] when [c < d]. *)
Lemma leb_below x c d :
  (x <=? c) = true -> (c <? d) = true -> (d <=? x) = false.
Proof.
  intros H1 H2. destruct (d <=? x) eqn:E; [|reflexivity].
  pose proof (leb_ltb_trans _ _ _ H1 H2) as H3.
  pose proof (leb_ltb_trans _ _ _ E H3) as H4.
  pose proof (ltb_asym _ _ H4). congruence.
Qed.


(** *** Rounding never yields [NaN] *)

Lemma shr_1_nonneg mrs : (0 <= shr_m mrs)%Z -> (0 <= shr_m (shr_1 mrs))%Z.
Proof. destruct mrs as [[|[p|p|]|p] r s]; simpl; lia. Qed.

Lemma iter_shr_1_nonneg p : forall mrs,
  (0 <= shr_m mrs)%Z -> (0 <= shr_m (SpecFloat.iter_pos shr_1 p mrs))%Z.
Proof.
  induction p as [p IH|p IH|]; intros mrs H; simpl.
  - apply IH, IH, shr_1_nonneg, H.
  - apply IH, IH, H.
  - apply shr_1_nonneg, H.
Qed.

Lemma shr_fexp_nonneg m e l :
  (0 <= m)%Z -> (0 <= shr_m (fst (shr_fexp prec emax m e l)))%Z.
Proof.
  intros H. unfold shr_fexp, shr.
  assert (H0 : (0 <= shr_m (shr_record_of_loc m l))%Z)
    by (destruct l as [|[]]; exact H).
  destruct (_ - e)%Z; simpl; auto using iter_shr_1_nonneg.
Qed.

Lemma round_nearest_even_nonneg m l :
  (0 <= m)%Z -> (0 <= round_nearest_even m l)%Z.
Proof. destruct l as [|[]]; simpl; try lia. destruct (Z.even m); lia. Qed.

Lemma binary_round_aux_not_nan s m e l :
  (0 <= m)%Z -> binary_round_aux prec emax s m e l <> S754_nan.
Proof.
  intros H. unfold binary_round_aux.
  pose proof (shr_fexp_nonneg m e l H) as H1.
  destruct (shr_fexp prec emax m e l) as [mrs' e']. simpl in H1.
  pose proof (shr_fexp_nonneg _ e' loc_Exact
                (round_nearest_even_nonneg _ (loc_of_shr_record mrs') H1)) as H2.
  destruct (shr_fexp prec emax _ e' loc_Exact) as [mrs'' e'']. simpl in H2.
  destruct (shr_m mrs''); try lia; try discriminate.
  destruct (_ <=? _)%Z; discriminate.
Qed.

(** A number times a finite, nonzero constant is a number. *)
Lemma mul_finite_not_nan x c s m e :
  Prim2SF c = S754_finite s m e ->
  PrimFloat.is_nan x = false -> PrimFloat.is_nan (x * c) = false.
Proof.
  intros Hc. rewrite !not_nan_spec, mul_spec, Hc. unfold SF64mul.
  destruct (Prim2SF x) as [sx|sx| |sx mx ex]; simpl; try discriminate; try congruence.
  intros _. now apply binary_round_aux_not_nan.
Qed.

(** *** [Math.max] against a zero *)

Lemma eqb_zero_ltb x c :
  (x =? 0) = true -> (0 <? c) = true -> (x <? c) = true.
Proof.
  intros Hx Hc. apply leb_ltb_trans with 0; [now apply eqb_leb | exact Hc].
Qed.

Lemma Math_max_above x c :
  PrimFloat.is_nan c = false -> (x <? c) = true -> Math_max c x = c.
Proof.
  intros Hc Hx. unfold Math_max.
  assert (Hn : PrimFloat.is_nan x = false).
  { apply not_nan_spec. intros E. rewrite ltb_spec, E in Hx.
    destruct (Prim2SF c) as [[]|[]| |[] ? ?]; discriminate. }
  rewrite Hc, Hn. simpl. rewrite (ltb_asym _ _ Hx), Hx. reflexivity.
Qed.

(** *** Changes of sign *)

Lemma binary_round_aux_opp s m e l :
  binary_round_aux prec emax (negb s) m e l
    = SFopp (binary_round_aux prec emax s m e l).
Proof.
  unfold binary_round_aux.
  destruct (shr_fexp prec emax m e l) as [mrs' e'].
  destruct (shr_fexp prec emax _ e' loc_Exact) as [mrs'' e''].
  destruct (shr_m mrs''); try reflexivity.
  now destruct (_ <=? _)%Z.
Qed.

Lemma xorb_negb_l a b : xorb (negb a) b = negb (xorb a b).
Proof. now destruct a, b. Qed.

Lemma SFmul_opp_l X Y : SF64mul (SFopp X) Y = SFopp (SF64mul X Y).
Proof.
  destruct X as [sx|sx| |sx mx ex], Y as [sy|sy| |sy my ey]; simpl;
    rewrite ?xorb_negb_l; try reflexivity.
  apply binary_round_aux_opp.
Qed.

Lemma SFdiv_opp_l X Y : SF64div (SFopp X) Y = SFopp (SF64div X Y).
Proof.
  destruct X as [sx|sx| |sx mx ex], Y as [sy|sy| |sy my ey]; simpl;
    rewrite ?xorb_negb_l; try reflexivity.
  destruct (SFdiv_core_binary prec emax (Z.pos mx) ex (Z.pos my) ey) as [[mz ez] lz].
  apply binary_round_aux_opp.
Qed.

Lemma mul_opp_l x y : (- x) * y = - (x * y).
Proof.
  apply Prim2SF_inj. rewrite opp_spec, !mul_spec, opp_spec. apply SFmul_opp_l.
Qed.

Lemma div_opp_l x y : (- x) / y = - (x / y).
Proof.
  apply Prim2SF_inj. rewrite opp_spec, !div_spec, opp_spec. apply SFdiv_opp_l.
Qed.

Lemma opp_involutive x : - - x = x.
Proof.
  apply Prim2SF_inj. rewrite !opp_spec.
  destruct (Prim2SF x); simpl; now rewrite ?negb_involutive.
Qed.

Lemma cond_Zopp_negb s m : cond_Zopp (negb s) m = (- cond_Zopp s m)%Z.
Proof. destruct s; simpl; lia. Qed.

Lemma binary_normalize_opp m e :
  SFabs (binary_normalize prec emax (- m) e false)
    = SFabs (binary_normalize prec emax m e false).
Proof.
  destruct m as [|p|p]; simpl; try reflexivity; unfold binary_round;
    destruct (shl_align p e _) as [mz ez].
  - change true with (negb false). rewrite binary_round_aux_opp.
    now destruct (binary_round_aux prec emax false (Z.pos mz) ez loc_Exact).
  - change true with (negb false). rewrite binary_round_aux_opp.
    now destruct (binary_round_aux prec emax false (Z.pos mz) ez loc_Exact).
Qed.

Lemma SFsub_opp_opp X Y :
  SFabs (SF64sub (SFopp X) (SFopp Y)) = SFabs (SF64sub X Y).
Proof.
  destruct X as [[]|[]| |sx mx ex], Y as [[]|[]| |sy my ey]; simpl; try reflexivity.
  rewrite !cond_Zopp_negb.
  match goal with
  | |- context [(- ?a - - ?b)%Z] => replace (- a - - b)%Z with (- (a - b))%Z by lia
  end.
  apply binary_normalize_opp.
Qed.

(** Mirroring both the point and the centre changes at most the sign of the
    axial displacement. *)
Lemma sub_opp_opp x y : abs (- x - - y) = abs (x - y).
Proof.
  apply Prim2SF_inj. rewrite !abs_spec, !sub_spec, !opp_spec. apply SFsub_opp_opp.
Qed.

Lemma SFmul_self_abs X Y : SFabs X = SFabs Y -> SF64mul X X = SF64mul Y Y.
Proof.
  destruct X as [sx|sx| |sx mx ex], Y as [sy|sy| |sy my ey]; simpl;
    intros [=]; subst; try reflexivity;
    now destruct sx, sy.
Qed.

(** The square only depends on the absolute value. *)
Lemma mul_self_abs x y : abs x = abs y -> x * x = y * y.
Proof.
  intros H. apply Prim2SF_inj. rewrite !mul_spec. apply SFmul_self_abs.
  rewrite <- !abs_spec. now rewrite H.
Qed.

(** *** Addition *)

Lemma SFadd_comm X Y : SF64add X Y = SF64add Y X.
Proof.
  destruct X as [[]|[]| |sx mx ex], Y as [[]|[]| |sy my ey]; simpl; try reflexivity.
  now rewrite Z.min_comm, Z.add_comm.
Qed.

Lemma add_comm x y : x + y = y + x.
Proof. apply Prim2SF_inj. rewrite !add_spec. apply SFadd_comm. Qed.

Lemma add_zero_l x : Prim2SF x <> S754_zero true -> 0 + x = x.
Proof.
  intros Hx. apply Prim2SF_inj. rewrite add_spec.
  change (Prim2SF 0) with (S754_zero false).
  destruct (Prim2SF x) as [[]|[]| |[] m e]; try reflexivity. congruence.
Qed.

Lemma add_negzero_l x y : Prim2SF x = S754_zero true -> x + y = y.
Proof.
  intros Hx. apply Prim2SF_inj. rewrite add_spec, Hx.
  destruct (Prim2SF y) as [[]|[]| |[] m e]; reflexivity.
Qed.

Lemma add_zero_negzero x : Prim2SF x = S754_zero true -> 0 + x = 0.
Proof. intros Hx. apply Prim2SF_inj. rewrite add_spec, Hx. reflexivity. Qed.

Lemma negzero_or_not x :
  Prim2SF x = S754_zero true \/ Prim2SF x <> S754_zero true.
Proof.
  destruct (Prim2SF x) as [[]|[]| |[] m e]; (now left) || (right; discriminate).
Qed.

(** Starting the sum at [0] changes at most the sign of a zero. *)
Lemma sum_from_zero a b : same_number (0 + a + b) (a + b).
Proof.
  destruct (negzero_or_not a) as [Ha|Ha].
  - destruct (negzero_or_not b) as [Hb|Hb].
    + right. unfold strict_eq. rewrite eqb_spec, !add_spec, Ha, Hb.
      change (Prim2SF 0) with (S754_zero false). reflexivity.
    + left. rewrite (add_negzero_l a b Ha), (add_zero_negzero a Ha).
      now apply add_zero_l.
  - left. now rewrite add_zero_l.
Qed.

(** The sum that starts at [0] does not depend on the order of the two terms. *)
Lemma sum_from_zero_swap a b : 0 + a + b = 0 + b + a.
Proof.
  destruct (negzero_or_not a) as [Ha|Ha], (negzero_or_not b) as [Hb|Hb].
  - apply Prim2SF_inj. now rewrite !add_spec, Ha, Hb.
  - rewrite (add_zero_negzero a Ha), (add_zero_l b Hb).
    rewrite (add_comm b a). now rewrite (add_negzero_l a b Ha).
  - rewrite (add_zero_negzero b Hb), (add_zero_l a Ha).
    rewrite (add_comm a b). now rewrite (add_negzero_l b a Hb).
  - rewrite (add_zero_l a Ha), (add_zero_l b Hb). apply add_comm.
Qed.

(** ** Rounding to binary64, on the integers *)

Section RoundingFacts.
Local Open Scope Z_scope.

Lemma digits2_pos_bounds p :
  2 ^ (Zpos (digits2_pos p) - 1) <= Zpos p < 2 ^ (Zpos (digits2_pos p)).
Proof.
  induction p as [p IH|p IH|]; simpl digits2_pos.
  - rewrite Pos2Z.inj_succ.
    replace (Z.succ (Zpos (digits2_pos p)) - 1) with (Z.succ (Zpos (digits2_pos p) - 1)) by lia.
    rewrite !Z.pow_succ_r by lia. lia.
  - rewrite Pos2Z.inj_succ.
    replace (Z.succ (Zpos (digits2_pos p)) - 1) with (Z.succ (Zpos (digits2_pos p) - 1)) by lia.
    rewrite !Z.pow_succ_r by lia. lia.
  - simpl. lia.
Qed.

Lemma shr_1_div2 mrs : 0 <= shr_m mrs -> shr_m (shr_1 mrs) = shr_m mrs / 2.
Proof.
  destruct mrs as [[|[p|p|]|p] r s]; simpl shr_m; intros H; try lia.
  - reflexivity.
  - rewrite Pos2Z.inj_xI. apply Z.div_unique with 1; lia.
  - rewrite Pos2Z.inj_xO. apply Z.div_unique with 0; lia.
  - reflexivity.
Qed.


Lemma pow2_xI n : 2 ^ Zpos n~1 = 2 * 2 ^ Zpos n * 2 ^ Zpos n.
Proof.
  change (Zpos n~1) with (2 * Zpos n + 1).
  replace (2 * Zpos n + 1) with (1 + Zpos n + Zpos n) by lia.
  rewrite !Z.pow_add_r by lia. reflexivity.
Qed.

Lemma pow2_xO n : 2 ^ Zpos n~0 = 2 ^ Zpos n * 2 ^ Zpos n.
Proof.
  change (Zpos n~0) with (2 * Zpos n).
  replace (2 * Zpos n) with (Zpos n + Zpos n) by lia.
  rewrite !Z.pow_add_r by lia. reflexivity.
Qed.

Lemma iter_shr_1_div n : forall mrs,
  0 <= shr_m mrs ->
  shr_m (SpecFloat.iter_pos shr_1 n mrs) = shr_m mrs / 2 ^ Zpos n.
Proof.
  induction n as [n IH|n IH|]; intros mrs H; simpl SpecFloat.iter_pos;
    try assert (Hp : 0 < 2 ^ Zpos n) by (apply Z.pow_pos_nonneg; lia).
  - assert (H1 : 0 <= shr_m (shr_1 mrs)) by now apply shr_1_nonneg.
    assert (H2 : 0 <= shr_m (SpecFloat.iter_pos shr_1 n (shr_1 mrs))).
    { rewrite IH by assumption. apply Z.div_pos; lia. }
    rewrite IH, IH, shr_1_div2 by assumption.
    rewrite !Z.div_div by (try apply Z.mul_pos_pos; lia).
    rewrite pow2_xI. f_equal. ring.
  - assert (H2 : 0 <= shr_m (SpecFloat.iter_pos shr_1 n mrs)).
    { rewrite IH by assumption. apply Z.div_pos; lia. }
    rewrite IH, IH by assumption.
    rewrite !Z.div_div by (try apply Z.mul_pos_pos; lia).
    now rewrite pow2_xO.
  - rewrite shr_1_div2 by assumption. reflexivity.
Qed.

(** The mantissa after [shr]: a floor division. *)
Lemma shr_spec mrs e n :
  0 <= shr_m mrs ->
  shr_m (fst (shr mrs e n)) = shr_m mrs / 2 ^ Z.max 0 n /\
  snd (shr mrs e n) = e + Z.max 0 n.
Proof.
  intros H. unfold shr. destruct n as [|p|p]; simpl fst; simpl snd.
  - rewrite Z.max_id. simpl. rewrite Z.div_1_r. lia.
  - rewrite Z.max_r by lia. split; [now apply iter_shr_1_div | reflexivity].
  - rewrite Z.max_l by lia. simpl. rewrite Z.div_1_r. lia.
Qed.

Lemma round_nearest_even_cases m l :
  round_nearest_even m l = m \/ round_nearest_even m l = m + 1.
Proof. destruct l as [|[]]; simpl; auto. destruct (Z.even m); auto. Qed.

Lemma loc_of_shr_record_of_loc m l :
  loc_of_shr_record (shr_record_of_loc m l) = l.
Proof. now destruct l as [|[]]. Qed.

Lemma shr_m_of_loc m l : shr_m (shr_record_of_loc m l) = m.
Proof. now destruct l as [|[]]. Qed.


(** What [binary_round_aux] returns, in terms of floor divisions. *)
Lemma binary_round_aux_shape s m e l :
  0 < m ->
  let n1 := Z.max 0 (fexp64 (Zdigits2 m + e) - e) in
  let q := m / 2 ^ n1 in
  let e1 := e + n1 in
  exists q',
    (q' = q \/ q' = q + 1) /\
    (l = loc_Exact -> n1 = 0 -> q' = q) /\
    let n2 := Z.max 0 (fexp64 (Zdigits2 q' + e1) - e1) in
    let q'' := q' / 2 ^ n2 in
    let e2 := e1 + n2 in
    binary_round_aux prec emax s m e l =
      match q'' with
      | Z0 => S754_zero s
      | Zpos p => if e2 <=? emax - prec then S754_finite s p e2 else S754_infinity s
      | Zneg _ => S754_nan
      end.
Proof.
  intros Hm n1 q e1. unfold binary_round_aux, shr_fexp.
  fold fexp64.
  assert (H0 : 0 <= shr_m (shr_record_of_loc m l)) by (rewrite shr_m_of_loc; lia).
  destruct (shr_spec (shr_record_of_loc m l) e (fexp64 (Zdigits2 m + e) - e) H0)
    as [Hq He].
  rewrite shr_m_of_loc in Hq. fold n1 in Hq, He. fold q in Hq. fold e1 in He.
  destruct (shr (shr_record_of_loc m l) e (fexp64 (Zdigits2 m + e) - e))
    as [mrs' e'] eqn:Hshr. simpl in Hq, He. subst e'.
  set (q' := round_nearest_even (shr_m mrs') (loc_of_shr_record mrs')).
  exists q'. split; [|split].
  - unfold q'. rewrite <- Hq. apply round_nearest_even_cases.
  - intros -> Hn. unfold q'.
    assert (mrs' = shr_record_of_loc m loc_Exact).
    { unfold shr in Hshr. fold n1 in Hn.
      destruct (fexp64 (Zdigits2 m + e) - e); try (injection Hshr as <- _; reflexivity).
      unfold n1 in Hn. lia. }
    subst mrs'. simpl. unfold q. rewrite Hn. simpl. now rewrite Z.div_1_r.
  - cbv zeta.
    set (n2 := Z.max 0 (fexp64 (Zdigits2 q' + e1) - e1)).
    set (q'' := q' / 2 ^ n2). set (e2 := e1 + n2).
    assert (Hq' : 0 <= q').
    { unfold q'. destruct (round_nearest_even_cases (shr_m mrs') (loc_of_shr_record mrs'))
        as [-> | ->]; rewrite Hq; unfold q;
        assert (0 <= m / 2 ^ n1) by (apply Z.div_pos; lia); lia. }
    assert (H1 : 0 <= shr_m (shr_record_of_loc q' loc_Exact)) by exact Hq'.
    destruct (shr_spec (shr_record_of_loc q' loc_Exact) e1
                (fexp64 (Zdigits2 q' + e1) - e1) H1) as [Hq2 He2].
    simpl shr_m in Hq2 at 2. fold n2 in Hq2, He2. fold q'' in Hq2. fold e2 in He2.
    destruct (shr (shr_record_of_loc q' loc_Exact) e1 (fexp64 (Zdigits2 q' + e1) - e1))
      as [mrs'' e''] eqn:Hshr2. simpl in Hq2, He2. subst e''. rewrite Hq2.
    reflexivity.
Qed.

(** ** Values of binary64 numbers as real numbers *)


Lemma bpow_add a b : bpow (a + b) = (bpow a * bpow b)%R.
Proof. unfold bpow. apply powerRZ_add. lra. Qed.

Lemma bpow_pos e : (0 < bpow e)%R.
Proof. unfold bpow. apply powerRZ_lt. lra. Qed.

Lemma bpow_IZR n : (0 <= n)%Z -> bpow n = IZR (2 ^ n).
Proof.
  intros Hn. unfold bpow. destruct n as [|p|p]; try lia.
  - reflexivity.
  - change (2 ^ Zpos p)%Z with (Z.pow_pos 2 p). now rewrite Zpower_pos_powerRZ.
Qed.

Lemma bpow_ge_1 n : (0 <= n)%Z -> (1 <= bpow n)%R.
Proof.
  intros Hn. rewrite bpow_IZR by assumption. apply IZR_le.
  assert (0 < 2 ^ n)%Z by (apply Z.pow_pos_nonneg; lia). lia.
Qed.

Lemma bpow_le a b : (a <= b)%Z -> (bpow a <= bpow b)%R.
Proof.
  intros H. replace b with (a + (b - a))%Z by lia. rewrite bpow_add.
  pose proof (bpow_pos a). pose proof (bpow_ge_1 (b - a) ltac:(lia)). nra.
Qed.

Lemma bpow_1 : bpow 1 = 2%R.
Proof. unfold bpow. simpl. lra. Qed.

Lemma bpow_lt a b : (a < b)%Z -> (bpow a < bpow b)%R.
Proof.
  intros H. replace b with (a + 1 + (b - a - 1))%Z by lia. rewrite !bpow_add.
  pose proof (bpow_pos a). pose proof (bpow_ge_1 (b - a - 1) ltac:(lia)).
  rewrite bpow_1. nra.
Qed.

Lemma bpow_0 : bpow 0 = 1%R.
Proof. reflexivity. Qed.

Lemma bpow_opp e : bpow (- e) = (/ bpow e)%R.
Proof.
  pose proof (bpow_pos e). pose proof (bpow_add e (- e)) as H1.
  replace (e + - e)%Z with 0%Z in H1 by lia. rewrite bpow_0 in H1.
  apply Rmult_eq_reg_l with (bpow e); [|lra]. rewrite <- H1. field. lra.
Qed.



Lemma digits_bounds m :
  (0 < m)%Z -> (2 ^ (Zdigits2 m - 1) <= m < 2 ^ Zdigits2 m)%Z.
Proof.
  destruct m as [|p|p]; try lia. intros _. apply digits2_pos_bounds.
Qed.

Lemma Zdigits2_pos m : (0 < m)%Z -> (0 < Zdigits2 m)%Z.
Proof. destruct m; simpl; lia. Qed.

(** Digits of a floor division. *)
Lemma digits_unique m d : (2 ^ (d - 1) <= m < 2 ^ d)%Z -> (0 < d)%Z -> Zdigits2 m = d.
Proof.
  intros H Hd.
  assert (Hm : (0 < m)%Z).
  { assert (0 < 2 ^ (d - 1))%Z by (apply Z.pow_pos_nonneg; lia). lia. }
  pose proof (digits_bounds m Hm) as H1. pose proof (Zdigits2_pos m Hm) as H2.
  destruct (Z.lt_trichotomy (Zdigits2 m) d) as [L|[E|G]]; [|assumption|].
  - assert (2 ^ Zdigits2 m <= 2 ^ (d - 1))%Z by (apply Z.pow_le_mono_r; lia). lia.
  - assert (2 ^ d <= 2 ^ (Zdigits2 m - 1))%Z by (apply Z.pow_le_mono_r; lia). lia.
Qed.

Lemma div_pow2_bounds m d n :
  (0 <= n <= d - 1)%Z -> (2 ^ (d - 1) <= m < 2 ^ d)%Z ->
  (2 ^ (d - n - 1) <= m / 2 ^ n < 2 ^ (d - n))%Z.
Proof.
  intros Hn [H1 H2].
  assert (Hp : (0 < 2 ^ n)%Z) by (apply Z.pow_pos_nonneg; lia).
  split.
  - apply Z.div_le_lower_bound; [lia|].
    rewrite <- Z.pow_add_r by lia. now replace (n + (d - n - 1))%Z with (d - 1)%Z by lia.
  - apply Z.div_lt_upper_bound; [lia|].
    rewrite <- Z.pow_add_r by lia. now replace (n + (d - n))%Z with d by lia.
Qed.

Lemma fexp64_eq k : fexp64 k = Z.max (k - 53) (-1074).
Proof. reflexivity. Qed.

Lemma Zpos_IZR_pos p : (0 < IZR (Zpos p))%R.
Proof. apply IZR_lt. lia. Qed.

(** Rounding a positive value of the normal range: the result is finite and
    within one unit in the last place, that is, within [2^-52] of the value. *)
Lemma binary_round_aux_error s m e l (x : R) :
  (0 < m)%Z ->
  (IZR m <= x < IZR m + 1)%R ->
  (l = loc_Exact -> x = IZR m) ->
  (l = loc_Exact \/ 53 <= Zdigits2 m)%Z ->
  (-1074 <= Zdigits2 m + e - 53)%Z ->
  (Zdigits2 m + e <= 1023)%Z ->
  (e <= 970)%Z ->
  exists p e2,
    binary_round_aux prec emax s m e l = S754_finite s p e2 /\
    (Rabs (IZR (Zpos p) * bpow e2 - x * bpow e) <= bpow (-52) * (x * bpow e))%R.
Proof.
  intros Hm Hx Hex Hl H1 H2 H3.
  destruct (binary_round_aux_shape s m e l Hm) as (q' & Hq' & Hexact & Hres).
  cbv zeta in Hq', Hexact, Hres.
  set (d := Zdigits2 m) in *.
  pose proof (digits_bounds m Hm) as Hd. fold d in Hd.
  pose proof (Zdigits2_pos m Hm) as Hdpos. fold d in Hdpos.
  assert (Hf : fexp64 (d + e) = (d + e - 53)%Z) by (rewrite fexp64_eq; lia).
  rewrite Hf in Hq', Hexact, Hres.
  replace (d + e - 53 - e)%Z with (d - 53)%Z in Hq', Hexact, Hres by lia.
  set (n1 := Z.max 0 (d - 53)) in *.
  set (q := (m / 2 ^ n1)%Z) in *.
  destruct (Z_lt_le_dec d 53) as [Hlt|Hge].
  - (* fewer than 53 digits: the value is exact and kept *)
    assert (Hn1 : n1 = 0%Z) by (unfold n1; lia).
    destruct Hl as [Hl|Hl]; [|lia].
    specialize (Hexact Hl Hn1). specialize (Hex Hl).
    assert (Hq : q = m) by (unfold q; rewrite Hn1; simpl; apply Z.div_1_r).
    rewrite Hexact, Hq, Hn1 in Hres. fold d in Hres.
    rewrite Z.add_0_r in Hres. rewrite fexp64_eq in Hres.
    rewrite (Z.max_l 0) in Hres by lia. simpl (2 ^ 0)%Z in Hres.
    rewrite Z.div_1_r, Z.add_0_r in Hres.
    destruct m as [|p|p]; try lia.
    assert (He : (e <=? emax - prec)%Z = true) by (apply Z.leb_le; unfold emax, prec; lia).
    rewrite He in Hres. exists p, e. split; [exact Hres|].
    rewrite Hex. replace (IZR (Z.pos p) * bpow e - IZR (Z.pos p) * bpow e)%R with 0%R by ring.
    rewrite Rabs_R0.
    apply Rlt_le, Rmult_lt_0_compat; [apply bpow_pos|].
    apply Rmult_lt_0_compat; [apply Zpos_IZR_pos | apply bpow_pos].
  - (* at least 53 digits: the mantissa is cut to 53 digits *)
    assert (Hn1 : n1 = (d - 53)%Z) by (unfold n1; lia).
    assert (Hqb : (2 ^ 52 <= q < 2 ^ 53)%Z).
    { pose proof (div_pow2_bounds m d n1 ltac:(lia) Hd) as Hb.
      rewrite Hn1 in Hb. replace (d - (d - 53) - 1)%Z with 52%Z in Hb by lia.
      replace (d - (d - 53))%Z with 53%Z in Hb by lia. unfold q. now rewrite Hn1. }
    set (e1 := (e + n1)%Z) in *.
    assert (Hp2 : (0 < 2 ^ n1)%Z) by (apply Z.pow_pos_nonneg; lia).
    assert (Hdiv : (q * 2 ^ n1 <= m < (q + 1) * 2 ^ n1)%Z).
    { unfold q. pose proof (Z.div_mod m (2 ^ n1) ltac:(lia)).
      pose proof (Z.mod_pos_bound m (2 ^ n1) Hp2). nia. }
    (* the exact value, bracketed by two multiples of the unit *)
    assert (HX : (IZR q * bpow e1 <= x * bpow e < (IZR q + 1) * bpow e1)%R).
    { unfold e1. rewrite bpow_add. rewrite (bpow_IZR n1) by lia.
      pose proof (bpow_pos e) as He.
      assert (Hd1 : (IZR q * IZR (2 ^ n1) <= IZR m)%R).
      { rewrite <- mult_IZR. apply IZR_le. lia. }
      assert (Hm1 : (IZR m + 1 <= (IZR q + 1) * IZR (2 ^ n1))%R).
      { rewrite <- !plus_IZR, <- mult_IZR. apply IZR_le. lia. }
      destruct Hx as [Hx1 Hx2].
      split; nra. }
    assert (Hunit : (bpow e1 <= bpow (-52) * (x * bpow e))%R).
    { destruct HX as [HX1 _].
      assert (Hqb1 : (bpow 52 <= IZR q)%R).
      { rewrite bpow_IZR by lia. apply IZR_le. lia. }
      assert (H52 : (bpow (-52) * bpow 52 = 1)%R).
      { rewrite <- bpow_add. reflexivity. }
      apply Rle_trans with (bpow (-52) * (IZR q * bpow e1))%R.
      - replace (bpow e1) with (bpow (-52) * (bpow 52 * bpow e1))%R at 1
          by (rewrite <- Rmult_assoc, H52; ring).
        apply Rmult_le_compat_l; [left; apply bpow_pos|].
        apply Rmult_le_compat_r; [left; apply bpow_pos | exact Hqb1].
      - apply Rmult_le_compat_l; [left; apply bpow_pos | exact HX1]. }
    assert (Hval : forall p e2,
               (IZR (Zpos p) * bpow e2 = IZR q' * bpow e1)%R ->
               (Rabs (IZR (Zpos p) * bpow e2 - x * bpow e) <= bpow (-52) * (x * bpow e))%R).
    { intros p e2 ->. apply Rle_trans with (bpow e1); [|exact Hunit].
      pose proof (bpow_pos e1).
      apply Rabs_le. destruct Hq' as [-> | ->]; [|rewrite plus_IZR]; split; nra. }
    destruct (Z_lt_le_dec q' (2 ^ 53)) as [Hsmall|Hbig].
    + assert (Hdq : Zdigits2 q' = 53%Z) by (apply digits_unique; lia).
      rewrite Hdq, fexp64_eq in Hres.
      rewrite (Z.max_l (53 + e1 - 53)) in Hres by (unfold e1; lia).
      replace (53 + e1 - 53 - e1)%Z with 0%Z in Hres by lia.
      simpl (Z.max 0 0) in Hres. simpl (2 ^ 0)%Z in Hres.
      rewrite Z.div_1_r, Z.add_0_r in Hres.
      destruct q' as [|p|p]; try lia.
      assert (He : (e1 <=? emax - prec)%Z = true)
        by (apply Z.leb_le; unfold emax, prec, e1; lia).
      rewrite He in Hres. exists p, e1. split; [exact Hres|]. now apply Hval.
    + assert (Hq53 : q' = (2 ^ 53)%Z) by lia.
      rewrite Hq53 in Hres. change (Zdigits2 (2 ^ 53)) with 54%Z in Hres.
      rewrite fexp64_eq in Hres.
      rewrite (Z.max_l (54 + e1 - 53)) in Hres by (unfold e1; lia).
      replace (54 + e1 - 53 - e1)%Z with 1%Z in Hres by lia.
      change (2 ^ 53 / 2 ^ Z.max 0 1)%Z with (2 ^ 52)%Z in Hres.
      change (Z.max 0 1) with 1%Z in Hres.
      assert (He : (e1 + 1 <=? emax - prec)%Z = true)
        by (apply Z.leb_le; unfold emax, prec, e1; lia).
      change (2 ^ 52)%Z with (Zpos 4503599627370496) in Hres.
      cbv iota beta in Hres. rewrite He in Hres.
      exists 4503599627370496%positive, (e1 + 1)%Z. split; [exact Hres|].
      apply Hval. rewrite Hq53, bpow_add, bpow_1.
      change (2 ^ 53)%Z with 9007199254740992%Z. lra.
Qed.

(** ** Canonical representations *)

Lemma valid_finite s m e :
  valid_binary (S754_finite s m e) = true ->
  (fexp64 (Zpos (digits2_pos m) + e) = e /\ e <= 971)%Z.
Proof.
  unfold SpecFloat.valid_binary, SpecFloat.bounded, SpecFloat.canonical_mantissa.
  fold fexp64.
  rewrite andb_true_iff, Z.eqb_eq, Z.leb_le. unfold emax, prec. lia.
Qed.

Lemma Prim2SF_finite_valid x s m e :
  Prim2SF x = S754_finite s m e ->
  (Zpos (digits2_pos m) <= 53 /\ -1074 <= e <= 971 /\
   (Zpos (digits2_pos m) = 53 \/ e = -1074))%Z.
Proof.
  intros H. pose proof (Prim2SF_valid x) as Hv. rewrite H in Hv.
  apply valid_finite in Hv. rewrite fexp64_eq in Hv. lia.
Qed.


Lemma mag_pos m e : (0 < mag m e)%R.
Proof. apply Rmult_lt_0_compat; [apply Zpos_IZR_pos | apply bpow_pos]. Qed.

Lemma mag_bounds m e :
  (bpow (Zpos (digits2_pos m) - 1 + e) <= mag m e < bpow (Zpos (digits2_pos m) + e))%R.
Proof.
  pose proof (digits2_pos_bounds m) as [H1 H2].
  apply IZR_le in H1. apply IZR_lt in H2.
  rewrite <- !bpow_IZR in H1 by lia. rewrite <- bpow_IZR in H2 by lia.
  unfold mag. rewrite !bpow_add. pose proof (bpow_pos e). split; nra.
Qed.

(** From the size of the value to the sum of digits and exponent. *)
Lemma mag_lower m e k :
  (bpow k <= mag m e)%R -> (k < Zpos (digits2_pos m) + e)%Z.
Proof.
  intros H. destruct (mag_bounds m e) as [_ H2].
  destruct (Z_lt_le_dec k (Zpos (digits2_pos m) + e)) as [L|G]; [assumption|].
  apply bpow_le in G. lra.
Qed.

Lemma mag_upper m e k :
  (mag m e < bpow k)%R -> (Zpos (digits2_pos m) - 1 + e < k)%Z.
Proof.
  intros H. destruct (mag_bounds m e) as [H1 _].
  destruct (Z_lt_le_dec (Zpos (digits2_pos m) - 1 + e) k) as [L|G]; [assumption|].
  apply bpow_le in G. lra.
Qed.

(** A canonical number that is at least [2^-1022] is normal. *)
Lemma normal_digits x s m e :
  Prim2SF x = S754_finite s m e -> (bpow (-1022) <= mag m e)%R ->
  (Zpos (digits2_pos m) = 53)%Z.
Proof.
  intros Hx Hv. destruct (Prim2SF_finite_valid x s m e Hx) as (Hd & He & Hc).
  apply mag_lower in Hv. lia.
Qed.

(** ** Multiplication of two positive normal numbers *)

Lemma digits2_mul p q :
  (Zpos (digits2_pos p) + Zpos (digits2_pos q) - 1 <= Zpos (digits2_pos (p * q))
   <= Zpos (digits2_pos p) + Zpos (digits2_pos q))%Z.
Proof.
  pose proof (digits2_pos_bounds p) as [P1 P2].
  pose proof (digits2_pos_bounds q) as [Q1 Q2].
  pose proof (digits2_pos_bounds (p * q)) as [M1 M2].
  rewrite Pos2Z.inj_mul in M1, M2.
  set (dp := Zpos (digits2_pos p)) in *. set (dq := Zpos (digits2_pos q)) in *.
  set (d := Zpos (digits2_pos (p * q))) in *.
  assert (0 < dp)%Z by (unfold dp; lia). assert (0 < dq)%Z by (unfold dq; lia).
  assert (0 < d)%Z by (unfold d; lia).
  assert (L : (2 ^ (dp - 1 + (dq - 1)) <= Zpos p * Zpos q)%Z).
  { rewrite Z.pow_add_r by lia.
    assert (0 < 2 ^ (dp - 1))%Z by (apply Z.pow_pos_nonneg; lia).
    assert (0 < 2 ^ (dq - 1))%Z by (apply Z.pow_pos_nonneg; lia). nia. }
  assert (U : (Zpos p * Zpos q < 2 ^ (dp + dq))%Z).
  { rewrite Z.pow_add_r by lia. nia. }
  split.
  - destruct (Z_lt_le_dec d (dp + dq - 1)) as [L1|G1]; [|lia].
    assert (2 ^ d <= 2 ^ (dp - 1 + (dq - 1)))%Z by (apply Z.pow_le_mono_r; lia). lia.
  - destruct (Z_lt_le_dec (dp + dq) d) as [L1|G1]; [|lia].
    assert (2 ^ (dp + dq) <= 2 ^ (d - 1))%Z by (apply Z.pow_le_mono_r; lia). lia.
Qed.

Lemma SFmul_error mx ex my ey :
  (Zpos (digits2_pos mx) = 53)%Z -> (Zpos (digits2_pos my) = 53)%Z ->
  (bpow (-1021) <= mag mx ex * mag my ey < bpow 1022)%R ->
  exists p e2,
    SF64mul (S754_finite false mx ex) (S754_finite false my ey)
      = S754_finite false p e2 /\
    (Rabs (mag p e2 - mag mx ex * mag my ey)
       <= bpow (-52) * (mag mx ex * mag my ey))%R.
Proof.
  intros Hdx Hdy [Hlo Hhi]. unfold SF64mul, SFmul. simpl xorb.
  assert (Hprod : (mag mx ex * mag my ey = mag (mx * my) (ex + ey))%R).
  { unfold mag. rewrite Pos2Z.inj_mul, mult_IZR, bpow_add. ring. }
  rewrite Hprod in *.
  pose proof (digits2_mul mx my) as Hd.
  pose proof (mag_lower _ _ _ Hlo) as H1. pose proof (mag_upper _ _ _ Hhi) as H2.
  destruct (binary_round_aux_error false (Zpos (mx * my)) (ex + ey) loc_Exact
              (IZR (Zpos (mx * my)))) as (p & e2 & Hr & Hb);
    try (simpl Zdigits2; lia); try lra; auto.
  exists p, e2. split; [exact Hr|]. exact Hb.
Qed.

(** ** Alignment *)

Lemma iter_xO_mul m d : Zpos (Pos.iter xO m d) = (Zpos m * 2 ^ Zpos d)%Z.
Proof.
  induction d as [|d IH] using Pos.peano_ind.
  - simpl. lia.
  - rewrite Pos.iter_succ, Pos2Z.inj_xO, IH, Pos2Z.inj_succ, Z.pow_succ_r by lia. ring.
Qed.

Lemma shl_align_spec mx ex ex' :
  snd (shl_align mx ex ex') = Z.min ex ex' /\
  Zpos (fst (shl_align mx ex ex')) = (Zpos mx * 2 ^ (ex - Z.min ex ex'))%Z.
Proof.
  unfold shl_align. destruct (ex' - ex)%Z as [|d|d] eqn:E; simpl fst; simpl snd.
  - rewrite Z.min_l by lia. replace (ex - ex)%Z with 0%Z by lia. simpl. lia.
  - rewrite Z.min_l by lia. replace (ex - ex)%Z with 0%Z by lia. simpl. lia.
  - rewrite Z.min_r by lia. rewrite iter_xO_mul.
    replace (ex - ex')%Z with (Zpos d) by lia. split; reflexivity.
Qed.

Lemma mag_shift m e k :
  (0 <= k)%Z -> (IZR (Zpos m * 2 ^ k) * bpow (e - k) = mag m e)%R.
Proof.
  intros Hk. unfold mag. rewrite mult_IZR, <- bpow_IZR by assumption.
  replace e with ((e - k) + k)%Z at 2 by lia. rewrite (bpow_add (e - k) k). ring.
Qed.

Lemma digits_shift m k :
  (0 <= k)%Z -> Zdigits2 (Zpos m * 2 ^ k) = (Zpos (digits2_pos m) + k)%Z.
Proof.
  intros Hk. pose proof (digits2_pos_bounds m) as [H1 H2].
  assert (0 < 2 ^ k)%Z by (apply Z.pow_pos_nonneg; lia).
  apply digits_unique; [|lia]. split.
  - replace (Zpos (digits2_pos m) + k - 1)%Z with (Zpos (digits2_pos m) - 1 + k)%Z by lia.
    rewrite Z.pow_add_r by lia. nia.
  - rewrite Z.pow_add_r by lia. nia.
Qed.

(** ** Rounding an exact value given by any mantissa and exponent *)

Lemma binary_round_error s m e :
  (-1074 <= Zpos (digits2_pos m) + e - 53)%Z ->
  (Zpos (digits2_pos m) + e <= 1023)%Z ->
  exists p e2,
    binary_round prec emax s m e = S754_finite s p e2 /\
    (Rabs (mag p e2 - mag m e) <= bpow (-52) * mag m e)%R.
Proof.
  intros H1 H2. unfold binary_round. fold fexp64.
  destruct (shl_align_spec m e (fexp64 (Zpos (digits2_pos m) + e))) as [Hs Hf].
  destruct (shl_align m e (fexp64 (Zpos (digits2_pos m) + e))) as [mz ez].
  simpl in Hs, Hf. rewrite fexp64_eq in Hs, Hf.
  rewrite (Z.max_l (Zpos (digits2_pos m) + e - 53)) in Hs, Hf by lia.
  assert (Hk : (0 <= e - ez)%Z) by lia.
  assert (Hd : (Zdigits2 (Zpos mz) = Zpos (digits2_pos m) + (e - ez))%Z).
  { rewrite Hf, <- Hs. now apply digits_shift. }
  assert (Hv : (IZR (Zpos mz) * bpow ez = mag m e)%R).
  { rewrite Hf, <- Hs. replace ez with (e - (e - ez))%Z at 2 by lia.
    now apply mag_shift. }
  destruct (binary_round_aux_error s (Zpos mz) ez loc_Exact (IZR (Zpos mz)))
    as (p & e2 & Hr & Hb); try lia; try lra; auto.
  exists p, e2. split; [exact Hr|]. unfold mag at 1. now rewrite Hv in Hb.
Qed.

(** ** Addition of two positive numbers *)

Lemma SFadd_error mx ex my ey :
  (bpow (-1021) <= mag mx ex + mag my ey < bpow 1022)%R ->
  exists p e2,
    SF64add (S754_finite false mx ex) (S754_finite false my ey)
      = S754_finite false p e2 /\
    (Rabs (mag p e2 - (mag mx ex + mag my ey))
       <= bpow (-52) * (mag mx ex + mag my ey))%R.
Proof.
  intros [Hlo Hhi]. unfold SF64add, SFadd. cbv zeta.
  set (ez := Z.min ex ey).
  destruct (shl_align_spec mx ex ez) as [_ Hx].
  destruct (shl_align_spec my ey ez) as [_ Hy].
  rewrite (Z.min_r ex ez) in Hx by (unfold ez; lia).
  rewrite (Z.min_r ey ez) in Hy by (unfold ez; lia).
  set (mx' := fst (shl_align mx ex ez)) in *.
  set (my' := fst (shl_align my ey ez)) in *.
  simpl cond_Zopp. change (Zpos mx' + Zpos my')%Z with (Zpos (mx' + my')).
  simpl binary_normalize.
  assert (Hv : (mag (mx' + my') ez = mag mx ex + mag my ey)%R).
  { unfold mag at 1. rewrite Pos2Z.inj_add, plus_IZR, Hx, Hy, Rmult_plus_distr_r.
    rewrite <- (mag_shift mx ex (ex - ez)) by (unfold ez; lia).
    rewrite <- (mag_shift my ey (ey - ez)) by (unfold ez; lia).
    replace (ex - (ex - ez))%Z with ez by lia.
    replace (ey - (ey - ez))%Z with ez by lia. reflexivity. }
  rewrite <- Hv in *.
  pose proof (mag_lower _ _ _ Hlo) as H1. pose proof (mag_upper _ _ _ Hhi) as H2.
  apply binary_round_error; lia.
Qed.

(** ** Subtraction of two positive numbers *)


Lemma SFsub_error mx ex my ey :
  let A := mag mx ex in
  let B := mag my ey in
  (A = B \/ bpow (-1021) <= Rabs (A - B) < bpow 1022)%R ->
  exists r,
    SF64sub (S754_finite false mx ex) (S754_finite false my ey) = r /\
    finite_or_zero r /\
    (Rabs (SF2R r - (A - B)) <= bpow (-52) * Rabs (A - B))%R.
Proof.
  intros A B HAB. unfold SF64sub, SFsub. cbv zeta.
  set (ez := Z.min ex ey).
  destruct (shl_align_spec mx ex ez) as [_ Hx].
  destruct (shl_align_spec my ey ez) as [_ Hy].
  rewrite (Z.min_r ex ez) in Hx by (unfold ez; lia).
  rewrite (Z.min_r ey ez) in Hy by (unfold ez; lia).
  set (mx' := fst (shl_align mx ex ez)) in *.
  set (my' := fst (shl_align my ey ez)) in *.
  simpl cond_Zopp.
  assert (HA : (A = IZR (Zpos mx') * bpow ez)%R).
  { unfold A. rewrite Hx. rewrite <- (mag_shift mx ex (ex - ez)) by (unfold ez; lia).
    now replace (ex - (ex - ez))%Z with ez by lia. }
  assert (HB : (B = IZR (Zpos my') * bpow ez)%R).
  { unfold B. rewrite Hy. rewrite <- (mag_shift my ey (ey - ez)) by (unfold ez; lia).
    now replace (ey - (ey - ez))%Z with ez by lia. }
  assert (HD : (A - B = IZR (Zpos mx' - Zpos my') * bpow ez)%R).
  { rewrite minus_IZR, HA, HB. ring. }
  pose proof (bpow_pos ez) as Hez.
  destruct (Zpos mx' - Zpos my')%Z as [|p|p] eqn:E.
  - (* equal values *)
    eexists. split; [reflexivity|]. split; [exact I|].
    simpl. rewrite HD. rewrite Rmult_0_l, Rminus_0_r, Rabs_R0. lra.
  - (* a positive difference *)
    assert (Hpos : (A - B = mag p ez)%R) by (rewrite HD; reflexivity).
    destruct HAB as [HAB|[Hlo Hhi]].
    { exfalso. pose proof (mag_pos p ez). lra. }
    rewrite Hpos in *. rewrite Rabs_pos_eq in Hlo, Hhi by (left; apply mag_pos).
    pose proof (mag_lower _ _ _ Hlo) as H1. pose proof (mag_upper _ _ _ Hhi) as H2.
    simpl binary_normalize.
    destruct (binary_round_error false p ez) as (q & e2 & Hr & Hb); try lia.
    exists (S754_finite false q e2). split; [exact Hr|]. split; [exact I|].
    simpl SF2R. rewrite (Rabs_pos_eq (mag p ez)) by (left; apply mag_pos).
    replace (1 * IZR (Zpos q) * bpow e2)%R with (mag q e2) by (unfold mag; ring).
    exact Hb.
  - (* a negative difference *)
    assert (Hneg : (A - B = - mag p ez)%R).
    { rewrite HD. unfold mag. change (Zneg p) with (- Zpos p)%Z. rewrite opp_IZR. ring. }
    destruct HAB as [HAB|[Hlo Hhi]].
    { exfalso. pose proof (mag_pos p ez). lra. }
    rewrite Hneg in *. rewrite Rabs_Ropp in Hlo, Hhi.
    rewrite Rabs_pos_eq in Hlo, Hhi by (left; apply mag_pos).
    rewrite (Rabs_Ropp (mag p ez)), (Rabs_pos_eq (mag p ez)) by (left; apply mag_pos).
    pose proof (mag_lower _ _ _ Hlo) as H1. pose proof (mag_upper _ _ _ Hhi) as H2.
    simpl binary_normalize.
    destruct (binary_round_error true p ez) as (q & e2 & Hr & Hb); try lia.
    exists (S754_finite true q e2). split; [exact Hr|]. split; [exact I|].
    simpl SF2R.
    replace (-1 * IZR (Zpos q) * bpow e2 - - mag p ez)%R
      with (- (mag q e2 - mag p ez))%R by (unfold mag; ring).
    rewrite Rabs_Ropp. exact Hb.
Qed.

(** ** Halving a normal number is exact *)


Lemma SFdiv_two s mx ex :
  (Zpos (digits2_pos mx) = 53)%Z -> (-1072 <= ex <= 971)%Z ->
  SF64div (S754_finite s mx ex) SFtwo = S754_finite s mx (ex - 1).
Proof.
  intros Hd He. unfold SF64div, SFdiv, SFtwo, SFdiv_core_binary. fold fexp64.
  cbv zeta. simpl Zdigits2. rewrite Hd.
  change (Zpos (digits2_pos 4503599627370496)) with 53%Z.
  rewrite fexp64_eq.
  replace (Z.min (Z.max (53 + ex - (53 + -51) - 53) (-1074)) (ex - -51))
    with (ex - 2)%Z by lia.
  replace (ex - -51 - (ex - 2))%Z with 53%Z by lia.
  cbv iota. rewrite Z.shiftl_mul_pow2 by lia.
  assert (Hdiv : Z.div_eucl (Zpos mx * 2 ^ 53) (Zpos 4503599627370496)
                 = (Zpos mx~0, 0%Z)).
  { pose proof (Z.div_eucl_eq (Zpos mx * 2 ^ 53) (Zpos 4503599627370496) ltac:(lia)) as E.
    pose proof (Z.mod_pos_bound (Zpos mx * 2 ^ 53) (Zpos 4503599627370496) ltac:(lia)) as B.
    unfold Z.modulo in B.
    destruct (Z.div_eucl (Zpos mx * 2 ^ 53) (Zpos 4503599627370496)) as [q r].
    change (2 ^ 53)%Z with 9007199254740992%Z in E.
    assert (q = Zpos mx~0) by lia. assert (r = 0%Z) by lia. now subst. }
  rewrite Hdiv. change (new_location 4503599627370496 0) with loc_Exact.
  rewrite xorb_false_r.
  unfold binary_round_aux, shr_fexp. fold fexp64.
  change (Zdigits2 (Z.pos mx~0)) with (Z.pos (Pos.succ (digits2_pos mx))).
  rewrite Pos2Z.inj_succ, Hd, fexp64_eq.
  replace (Z.max (Z.succ 53 + (ex - 2) - 53) (-1074) - (ex - 2))%Z with 1%Z by lia.
  change (shr (shr_record_of_loc (Z.pos mx~0) loc_Exact) (ex - 2) 1)
    with ({| shr_m := Z.pos mx; shr_r := false; shr_s := false |}, (ex - 2 + 1)%Z).
  cbv iota beta.
  change (round_nearest_even _ _) with (Z.pos mx).
  change (Zdigits2 (Z.pos mx)) with (Z.pos (digits2_pos mx)).
  rewrite Hd, fexp64_eq.
  replace (Z.max (53 + (ex - 2 + 1) - 53) (-1074) - (ex - 2 + 1))%Z with 0%Z by lia.
  change (shr (shr_record_of_loc (Z.pos mx) loc_Exact) (ex - 2 + 1) 0)
    with ({| shr_m := Z.pos mx; shr_r := false; shr_s := false |}, (ex - 2 + 1)%Z).
  cbv iota beta. simpl shr_m. cbv iota.
  replace (ex - 2 + 1)%Z with (ex - 1)%Z by lia.
  assert (Hle : (ex - 1 <=? emax - prec)%Z = true)
    by (apply Z.leb_le; unfold emax, prec; lia).
  now rewrite Hle.
Qed.

Lemma SFdiv_two_zero s : SF64div (S754_zero s) SFtwo = S754_zero s.
Proof. now destruct s. Qed.

(** ** Order of nonnegative numbers *)


Lemma mag_lt_exp m1 e1 m2 e2 :
  canonical m1 e1 -> canonical m2 e2 -> (e1 < e2)%Z -> (mag m1 e1 < mag m2 e2)%R.
Proof.
  intros (D1 & E1 & C1) (D2 & E2 & C2) H.
  destruct (mag_bounds m1 e1) as [_ U]. destruct (mag_bounds m2 e2) as [L _].
  assert (Zpos (digits2_pos m2) = 53)%Z by lia.
  assert (Hle : (Zpos (digits2_pos m1) + e1 <= Zpos (digits2_pos m2) - 1 + e2)%Z) by lia.
  apply bpow_le in Hle. lra.
Qed.

Lemma mag_lt_mant m1 m2 e : (mag m1 e < mag m2 e)%R <-> (m1 < m2)%positive.
Proof.
  unfold mag. pose proof (bpow_pos e). split; intros Hlt.
  - destruct (Pos.lt_total m1 m2) as [L|[E|G]]; [assumption|subst; lra|].
    assert (IZR (Zpos m2) < IZR (Zpos m1))%R by (apply IZR_lt; lia). nra.
  - assert (IZR (Zpos m1) < IZR (Zpos m2))%R by (apply IZR_lt; lia). nra.
Qed.

Lemma SFltb_pos_R m1 e1 m2 e2 :
  canonical m1 e1 -> canonical m2 e2 ->
  (SFltb (S754_finite false m1 e1) (S754_finite false m2 e2) = true
   <-> (mag m1 e1 < mag m2 e2)%R).
Proof.
  intros C1 C2. unfold SFltb, SFcompare.
  destruct (Z.compare_spec e1 e2) as [E|L|G].
  - subst e2. rewrite mag_lt_mant.
    change (Pos.compare_cont Eq m1 m2) with (Pos.compare m1 m2).
    destruct (Pos.compare_spec m1 m2) as [E|L|G]; split; intros H;
      try reflexivity; try discriminate; try lia; assumption.
  - split; [intros _; now apply mag_lt_exp | reflexivity].
  - split; [discriminate|]. intros H.
    pose proof (mag_lt_exp m2 e2 m1 e1 C2 C1 G). lra.
Qed.

(** ** Square root of a normal number *)

Lemma sqrt_unique (x y : R) : (0 <= y)%R -> (y * y = x)%R -> sqrt x = y.
Proof. intros Hy <-. now apply sqrt_square. Qed.

Lemma SFsqrt_error mx ex :
  (Zpos (digits2_pos mx) = 53)%Z -> (-1000 <= ex <= 900)%Z ->
  exists p e2,
    SF64sqrt (S754_finite false mx ex) = S754_finite false p e2 /\
    (Rabs (mag p e2 - sqrt (mag mx ex)) <= bpow (-52) * sqrt (mag mx ex))%R.
Proof.
  intros Hd He. unfold SF64sqrt, SFsqrt, SFsqrt_core_binary. fold fexp64.
  cbv zeta. simpl Zdigits2. rewrite Hd, fexp64_eq, !Z.div2_div.
  set (h := (ex / 2)%Z).
  assert (Hh : (2 * h <= ex <= 2 * h + 1)%Z).
  { unfold h. pose proof (Z.div_mod ex 2 ltac:(lia)).
    pose proof (Z.mod_pos_bound ex 2 ltac:(lia)). lia. }
  assert (Ht : ((53 + ex + 1) / 2 = h + 27)%Z).
  { unfold h. replace (53 + ex + 1)%Z with (ex + 27 * 2)%Z by lia.
    now rewrite Z.div_add by lia. }
  rewrite Ht.
  replace (Z.min (Z.max (h + 27 - 53) (-1074)) h) with (h - 26)%Z by lia.
  set (e' := (h - 26)%Z).
  set (s := (ex - 2 * e')%Z).
  assert (Hs : (s = 52 \/ s = 53)%Z) by (unfold s, e'; lia).
  assert (Hm' : match s with
                | Z0 => Zpos mx | Zpos _ => Z.shiftl (Zpos mx) s | Zneg _ => 0%Z
                end = (Zpos mx * 2 ^ s)%Z).
  { destruct Hs as [-> | ->]; now rewrite Z.shiftl_mul_pow2 by lia. }
  rewrite Hm'. set (m' := (Zpos mx * 2 ^ s)%Z).
  assert (Hm'b : (2 ^ 104 <= m' < 2 ^ 106)%Z).
  { pose proof (digits2_pos_bounds mx) as [B1 B2]. rewrite Hd in B1, B2.
    unfold m'. destruct Hs as [-> | ->]; lia. }
  pose proof (Z.sqrtrem_spec m' ltac:(lia)) as Hsq.
  destruct (Z.sqrtrem m') as [q r]. destruct Hsq as [Hq Hr].
  assert (Hqb : (2 ^ 52 <= q < 2 ^ 53)%Z) by nia.
  set (l := if (r =? 0)%Z then loc_Exact
            else loc_Inexact (if (r <=? q)%Z then Lt else Gt)).
  set (x := sqrt (IZR m')).
  assert (Hx : (IZR q <= x < IZR q + 1)%R).
  { unfold x. split.
    - rewrite <- (sqrt_square (IZR q)) by (apply IZR_le; lia).
      apply sqrt_le_1_alt. rewrite <- mult_IZR. apply IZR_le. lia.
    - rewrite <- (sqrt_square (IZR q + 1)) by (apply Rplus_le_le_0_compat;
        [apply IZR_le; lia | lra]).
      apply sqrt_lt_1_alt. split; [apply IZR_le; lia|].
      rewrite <- plus_IZR, <- mult_IZR. apply IZR_lt. lia. }
  assert (Hdq : Zdigits2 q = 53%Z) by (apply digits_unique; lia).
  assert (Hl : l = loc_Exact -> x = IZR q).
  { unfold l. destruct (Z.eqb_spec r 0) as [E|N]; [|discriminate].
    intros _. unfold x. apply sqrt_unique; [apply IZR_le; lia|].
    rewrite <- mult_IZR. f_equal. lia. }
  assert (Hq0 : (0 < q)%Z) by lia.
  assert (Hl2 : l = loc_Exact \/ (53 <= Zdigits2 q)%Z) by (right; lia).
  assert (He1 : (-1074 <= Zdigits2 q + e' - 53)%Z) by (unfold e'; lia).
  assert (He2 : (Zdigits2 q + e' <= 1023)%Z) by (unfold e'; lia).
  assert (He3 : (e' <= 970)%Z) by (unfold e'; lia).
  destruct (binary_round_aux_error false q e' l x Hq0 Hx Hl Hl2 He1 He2 He3)
    as (p & e2 & Hres & Hb).
  exists p, e2. split; [exact Hres|].
  assert (Hval : (x * bpow e' = sqrt (mag mx ex))%R).
  { symmetry. apply sqrt_unique.
    - apply Rmult_le_pos; [unfold x; apply sqrt_pos | left; apply bpow_pos].
    - replace (x * bpow e' * (x * bpow e'))%R
        with ((x * x) * (bpow e' * bpow e'))%R by ring.
      unfold x. rewrite sqrt_sqrt by (apply IZR_le; lia).
      rewrite <- bpow_add. unfold m'. rewrite mult_IZR, <- bpow_IZR by lia.
      unfold mag. rewrite Rmult_assoc, <- bpow_add. f_equal. f_equal.
      unfold s. lia. }
  now rewrite Hval in Hb.
Qed.

(** ** The operations on primitive floats, with their values *)



Lemma u2_val : u2 = (/ 4503599627370496)%R.
Proof.
  unfold u2. change (-52)%Z with (- (52))%Z. rewrite bpow_opp, bpow_IZR by lia.
  reflexivity.
Qed.

Lemma posfloat_pos x v : posfloat x v -> (0 < v)%R.
Proof. intros (m & e & _ & ->). apply mag_pos. Qed.

Lemma posfloat_canonical x m e :
  Prim2SF x = S754_finite false m e -> canonical m e.
Proof.
  intros H. destruct (Prim2SF_finite_valid x false m e H) as (A & B & C).
  unfold canonical. lia.
Qed.

Lemma posfloat_normal x m e :
  Prim2SF x = S754_finite false m e -> (bpow (-1022) <= mag m e)%R ->
  (Zpos (digits2_pos m) = 53)%Z.
Proof. apply normal_digits. Qed.

(** Exponent of a normal number from the size of its value. *)
Lemma normal_exponent m e lo hi :
  (Zpos (digits2_pos m) = 53)%Z ->
  (bpow lo <= mag m e < bpow hi)%R -> (lo - 53 < e < hi - 52)%Z.
Proof.
  intros Hd [H1 H2]. apply mag_lower in H1. apply mag_upper in H2. lia.
Qed.

Lemma bpow_trans_le a b x : (a <= b)%Z -> (bpow b <= x)%R -> (bpow a <= x)%R.
Proof. intros H Hx. apply bpow_le in H. lra. Qed.

Lemma bpow_trans_lt a b x : (a <= b)%Z -> (x <= bpow a)%R -> (x < bpow (b + 1))%R.
Proof.
  intros H Hx. assert (a < b + 1)%Z by lia. apply bpow_lt in H0. lra.
Qed.

End RoundingFacts.

(** ** The operations on primitive floats, on the reals *)

Section RealValues.
Local Open Scope R_scope.

Lemma prod_range X Y :
  bpow (-200) <= X <= bpow 200 -> bpow (-200) <= Y <= bpow 200 ->
  bpow (-400) <= X * Y <= bpow 400.
Proof.
  intros HX HY.
  pose proof (bpow_pos (-200)). pose proof (bpow_pos 200).
  change (-400)%Z with (-200 + -200)%Z. change 400%Z with (200 + 200)%Z.
  rewrite !bpow_add. split; nra.
Qed.

Lemma mul_posfloat x y X Y :
  posfloat x X -> posfloat y Y ->
  bpow (-200) <= X <= bpow 200 -> bpow (-200) <= Y <= bpow 200 ->
  exists Z, posfloat (x * y)%float Z /\ Rabs (Z - X * Y) <= u2 * (X * Y).
Proof.
  intros (mx & ex & Ex & ->) (my & ey & Ey & ->) HX HY.
  pose proof (prod_range _ _ HX HY) as [P1 P2].
  destruct (SFmul_error mx ex my ey) as (p & e2 & Hr & Hb).
  - apply (posfloat_normal x _ _ Ex). apply bpow_trans_le with (-200)%Z; [lia|tauto].
  - apply (posfloat_normal y _ _ Ey). apply bpow_trans_le with (-200)%Z; [lia|tauto].
  - split; [apply bpow_trans_le with (-400)%Z; [lia|assumption]|].
    apply (bpow_trans_lt 400 1021); [lia|assumption].
  - exists (mag p e2). split; [|exact Hb].
    exists p, e2. split; [|reflexivity]. now rewrite mul_spec, Ex, Ey.
Qed.

Lemma add_posfloat x y X Y :
  posfloat x X -> posfloat y Y ->
  bpow (-200) <= X <= bpow 200 -> bpow (-200) <= Y <= bpow 200 ->
  exists Z, posfloat (x + y)%float Z /\ Rabs (Z - (X + Y)) <= u2 * (X + Y).
Proof.
  intros (mx & ex & Ex & ->) (my & ey & Ey & ->) HX HY.
  destruct (SFadd_error mx ex my ey) as (p & e2 & Hr & Hb).
  - pose proof (bpow_pos (-200)). split.
    + apply bpow_trans_le with (-200)%Z; [lia|lra].
    + apply (bpow_trans_lt 201 1021); [lia|].
      change 201%Z with (200 + 1)%Z. rewrite bpow_add, bpow_1. lra.
  - exists (mag p e2). split; [|exact Hb].
    exists p, e2. split; [|reflexivity]. now rewrite add_spec, Ex, Ey.
Qed.

Lemma Prim2SF_two : Prim2SF 2 = SFtwo.
Proof. reflexivity. Qed.

Lemma range_exponent m e lo hi :
  (Zpos (digits2_pos m) = 53)%Z ->
  bpow lo <= mag m e <= bpow hi -> (lo - 53 < e < hi - 51)%Z.
Proof.
  intros Hd [H1 H2]. apply mag_lower in H1.
  assert (H3 : mag m e < bpow (hi + 1)).
  { assert (hi < hi + 1)%Z by lia. apply bpow_lt in H. lra. }
  apply mag_upper in H3. lia.
Qed.

Lemma half_posfloat x X :
  posfloat x X -> bpow (-300) <= X <= bpow 300 -> posfloat (x / 2)%float (X / 2).
Proof.
  intros (m & e & E & ->) HX.
  assert (Hd : (Zpos (digits2_pos m) = 53)%Z).
  { apply (posfloat_normal x _ _ E). apply bpow_trans_le with (-300)%Z; [lia|tauto]. }
  pose proof (range_exponent m e _ _ Hd HX) as He.
  exists m, (e - 1)%Z. split.
  - rewrite div_spec, E, Prim2SF_two. apply SFdiv_two; [assumption|lia].
  - unfold mag. replace e with ((e - 1) + 1)%Z at 1 by lia.
    rewrite bpow_add, bpow_1. field.
Qed.

Lemma sqrt_posfloat x X :
  posfloat x X -> bpow (-400) <= X <= bpow 400 ->
  exists Z, posfloat (PrimFloat.sqrt x) Z /\ Rabs (Z - sqrt X) <= u2 * sqrt X.
Proof.
  intros (m & e & E & ->) HX.
  assert (Hd : (Zpos (digits2_pos m) = 53)%Z).
  { apply (posfloat_normal x _ _ E). apply bpow_trans_le with (-400)%Z; [lia|tauto]. }
  pose proof (range_exponent m e _ _ Hd HX) as He.
  destruct (SFsqrt_error m e Hd ltac:(lia)) as (p & e2 & Hr & Hb).
  exists (mag p e2). split; [|exact Hb].
  exists p, e2. split; [|reflexivity]. now rewrite sqrt_spec, E.
Qed.

(** Two different values with the same unit differ by at least that unit. *)
Lemma mag_diff_lower mx ex my ey :
  mag mx ex <> mag my ey ->
  bpow (Z.min ex ey) <= Rabs (mag mx ex - mag my ey).
Proof.
  intros Hne. set (ez := Z.min ex ey).
  rewrite <- (mag_shift mx ex (ex - ez)) in * by (unfold ez; lia).
  rewrite <- (mag_shift my ey (ey - ez)) in * by (unfold ez; lia).
  replace (ex - (ex - ez))%Z with ez in * by lia.
  replace (ey - (ey - ez))%Z with ez in * by lia.
  set (kx := (Zpos mx * 2 ^ (ex - ez))%Z) in *.
  set (ky := (Zpos my * 2 ^ (ey - ez))%Z) in *.
  replace (IZR kx * bpow ez - IZR ky * bpow ez) with (IZR (kx - ky) * bpow ez)
    by (rewrite minus_IZR; ring).
  pose proof (bpow_pos ez) as Hp.
  rewrite Rabs_mult, (Rabs_pos_eq (bpow ez)) by lra.
  assert (Hk : (kx - ky <> 0)%Z).
  { intros E. apply Hne. replace kx with ky by lia. reflexivity. }
  assert (H1 : 1 <= Rabs (IZR (kx - ky))).
  { rewrite <- abs_IZR. apply IZR_le. lia. }
  nra.
Qed.

(** The quantity [c = (a - b) / 2] of the loop, in absolute value. *)
Lemma sub_half_abs a b A B :
  posfloat a A -> posfloat b B ->
  bpow (-200) <= A <= bpow 200 -> bpow (-200) <= B <= bpow 200 ->
  exists C,
    0 <= C <= Rabs (A - B) * (1 + u2) / 2 /\
    (Prim2SF (abs ((a - b) / 2)) = S754_zero false \/
     posfloat (abs ((a - b) / 2)) C).
Proof.
  intros (ma & ea & Ea & ->) (mb & eb & Eb & ->) HA HB.
  assert (Hda : (Zpos (digits2_pos ma) = 53)%Z).
  { apply (posfloat_normal a _ _ Ea). apply bpow_trans_le with (-200)%Z; [lia|tauto]. }
  assert (Hdb : (Zpos (digits2_pos mb) = 53)%Z).
  { apply (posfloat_normal b _ _ Eb). apply bpow_trans_le with (-200)%Z; [lia|tauto]. }
  pose proof (range_exponent ma ea _ _ Hda HA) as Hea.
  pose proof (range_exponent mb eb _ _ Hdb HB) as Heb.
  set (A := mag ma ea) in *. set (B := mag mb eb) in *.
  assert (Hu : 0 < u2) by apply bpow_pos.
  assert (Hu1 : u2 <= / 2) by (rewrite u2_val; lra).
  assert (Hdiff : A = B \/ bpow (-1021) <= Rabs (A - B) < bpow 1022).
  { destruct (Req_dec A B) as [E|N]; [now left|right]. split.
    - apply Rle_trans with (bpow (Z.min ea eb)); [apply bpow_le; lia|].
      now apply mag_diff_lower.
    - assert (R1 : Rabs (A - B) <= bpow 200).
      { pose proof (mag_pos ma ea). pose proof (mag_pos mb eb). fold A B in H, H0.
        apply Rabs_le. lra. }
      assert (200 < 1022)%Z by lia. apply bpow_lt in H. lra. }
  destruct (SFsub_error ma ea mb eb Hdiff) as (r & Hr & Hfz & Hb).
  fold A B in Hb. change (bpow (-52)) with u2 in Hb.
  assert (Hsub : Prim2SF (a - b) = r) by (rewrite sub_spec, Ea, Eb; exact Hr).
  destruct r as [s| | |s p e]; try contradiction.
  - (* the difference is zero *)
    exists 0. split.
    + split; [lra|]. pose proof (Rabs_pos (A - B)). nra.
    + left. rewrite abs_spec, div_spec, Hsub, Prim2SF_two, SFdiv_two_zero. reflexivity.
  - (* the difference is a normal number *)
    simpl SF2R in Hb.
    set (D := (if s then -1 else 1) * IZR (Zpos p) * bpow e) in *.
    assert (HD : Rabs D = mag p e).
    { unfold D, mag. pose proof (mag_pos p e) as Hp. unfold mag in Hp.
      destruct s.
      - rewrite <- Rabs_Ropp.
        replace (- (-1 * IZR (Z.pos p) * bpow e)) with (IZR (Z.pos p) * bpow e) by ring.
        apply Rabs_pos_eq; lra.
      - replace (1 * IZR (Z.pos p) * bpow e) with (IZR (Z.pos p) * bpow e) by ring.
        apply Rabs_pos_eq; lra. }
    assert (Hne : A <> B).
    { intros E. rewrite E in Hb. replace (B - B) with 0 in Hb by ring.
      rewrite Rabs_R0, Rmult_0_r, Rminus_0_r in Hb.
      pose proof (mag_pos p e). pose proof (Rabs_pos D). lra. }
    destruct Hdiff as [E|[Hlo Hhi]]; [contradiction|].
    assert (Hlow : bpow (Z.min ea eb) <= Rabs (A - B)) by now apply mag_diff_lower.
    assert (Hbd : Rabs (A - B) * (1 - u2) <= mag p e <= Rabs (A - B) * (1 + u2)).
    { rewrite <- HD. pose proof (Rabs_triang_inv D (A - B)).
      pose proof (Rabs_triang (D - (A - B)) (A - B)).
      replace (D - (A - B) + (A - B)) with D in H0 by ring.
      pose proof (Rabs_triang_inv (A - B) D).
      rewrite (Rabs_minus_sym (A - B) D) in H1. split; lra. }
    assert (Hmag : bpow (-300) <= mag p e <= bpow 300).
    { split.
      - apply Rle_trans with (Rabs (A - B) * (1 - u2)); [|tauto].
        apply Rle_trans with (bpow (Z.min ea eb) * / 2).
        + replace (/ 2) with (bpow (-1)) by (unfold bpow; simpl; lra).
          rewrite <- bpow_add. apply bpow_le. lia.
        + pose proof (bpow_pos (Z.min ea eb)). nra.
      - apply Rle_trans with (Rabs (A - B) * (1 + u2)); [tauto|].
        assert (R1 : Rabs (A - B) <= bpow 200).
        { pose proof (mag_pos ma ea). pose proof (mag_pos mb eb). fold A B in H, H0.
          apply Rabs_le. lra. }
        assert (R2 : bpow 201 <= bpow 300) by (apply bpow_le; lia).
        change 201%Z with (200 + 1)%Z in R2. rewrite bpow_add, bpow_1 in R2.
        pose proof (bpow_pos 200). nra. }
    assert (Hd : (Zpos (digits2_pos p) = 53)%Z).
    { apply (normal_digits (a - b) s p e Hsub).
      apply bpow_trans_le with (-300)%Z; [lia|tauto]. }
    pose proof (range_exponent p e _ _ Hd Hmag) as He.
    exists (mag p e / 2). split.
    + pose proof (mag_pos p e). split; [lra|]. destruct Hbd as [_ Hbd]. lra.
    + right. exists p, (e - 1)%Z. split.
      * rewrite abs_spec, div_spec, Hsub, Prim2SF_two.
        rewrite SFdiv_two by (assumption || lia). reflexivity.
      * unfold mag. replace e with ((e - 1) + 1)%Z at 1 by lia.
        rewrite bpow_add, bpow_1. field.
Qed.

(** The loop test, read on the values. *)
Lemma test_true t c T C :
  posfloat t T ->
  (Prim2SF c = S754_zero false \/ posfloat c C) ->
  (t <? c)%float = true -> T < C.
Proof.
  intros (mt & et & Et & ->) Hc Hlt. rewrite ltb_spec, Et in Hlt.
  destruct Hc as [Ec|(mc & ec & Ec & ->)]; rewrite Ec in Hlt.
  - discriminate.
  - apply SFltb_pos_R in Hlt; [assumption| |].
    + now apply (posfloat_canonical t).
    + now apply (posfloat_canonical c).
Qed.

(** ** One step of the arithmetic-geometric mean, with rounding *)

Lemma Rabs_bounds x y r : Rabs (x - y) <= r -> y - r <= x <= y + r.
Proof. unfold Rabs. destruct (Rcase_abs (x - y)); lra. Qed.

Lemma sq_le_compat a b : 0 <= a <= b -> a * a <= b * b.
Proof. intros [H0 H1]. apply Rmult_le_compat; lra. Qed.

Lemma sq_lt_reg a b : 0 <= b -> a * a < b * b -> a < b.
Proof.
  intros Hb H. destruct (Rlt_le_dec a b) as [|C]; [assumption|exfalso].
  assert (b * b <= a * a) by (apply sq_le_compat; lra). lra.
Qed.

Section Step.
Variables A B S P G B' theta : R.
Hypothesis HA : 0 < A.
Hypothesis HB : 0 < B.
Hypothesis Hth : 0 <= theta.
Hypothesis Hgap : Rabs (A - B) <= theta * (A + B).
Hypothesis HS : Rabs (S - (A + B)) <= u2 * (A + B).
Hypothesis HP : Rabs (P - A * B) <= u2 * (A * B).
Hypothesis HG : G = sqrt P.
Hypothesis HB' : Rabs (B' - G) <= u2 * G.

Lemma step_AB_pos : 0 < A * B.
Proof. now apply Rmult_lt_0_compat. Qed.

Lemma step_P : A * B * (1 - u2) <= P <= A * B * (1 + u2).
Proof. apply Rabs_bounds in HP. lra. Qed.

Lemma step_P_pos : 0 < P.
Proof.
  pose proof step_AB_pos. pose proof step_P as [H1 _].
  rewrite u2_val in H1. lra.
Qed.

Lemma step_G : 0 < G /\ G * G = P.
Proof.
  pose proof step_P_pos. subst G. split; [now apply sqrt_lt_R0|].
  apply sqrt_sqrt. lra.
Qed.

Lemma step_B' : G * (1 - u2) <= B' <= G * (1 + u2).
Proof. apply Rabs_bounds in HB'. lra. Qed.

Lemma step_B'_pos : 0 < B'.
Proof.
  pose proof step_G as [G0 _]. pose proof step_B' as [H1 _].
  rewrite u2_val in H1. lra.
Qed.

Lemma step_S : (A + B) * (1 - u2) <= S <= (A + B) * (1 + u2).
Proof. apply Rabs_bounds in HS. lra. Qed.

Lemma step_S_pos : 0 < S / 2.
Proof. pose proof step_S as [H1 _]. rewrite u2_val in H1. lra. Qed.

Lemma step_gap_sq : (A - B) * (A - B) <= theta * theta * ((A + B) * (A + B)).
Proof.
  assert (H0 : 0 <= Rabs (A - B)) by apply Rabs_pos.
  assert (H1 : Rabs (A - B) * Rabs (A - B) = (A - B) * (A - B)).
  { rewrite <- Rabs_mult. apply Rabs_pos_eq. apply (Rle_0_sqr (A - B)). }
  rewrite <- H1.
  replace (theta * theta * ((A + B) * (A + B)))
    with ((theta * (A + B)) * (theta * (A + B))) by ring.
  apply sq_le_compat. lra.
Qed.

Lemma step_B'sq : P * ((1 - u2) * (1 - u2)) <= B' * B' <= P * ((1 + u2) * (1 + u2)).
Proof.
  pose proof step_G as [G0 G2]. pose proof step_B' as [L U].
  assert (0 <= G * (1 - u2)) by (rewrite u2_val; lra).
  pose proof (sq_le_compat (G * (1 - u2)) B' ltac:(lra)).
  pose proof (sq_le_compat B' (G * (1 + u2)) ltac:(lra)).
  rewrite <- G2. lra.
Qed.

Lemma step_Asq :
  (A + B) * (A + B) * ((1 - u2) * (1 - u2)) <= S * S
    <= (A + B) * (A + B) * ((1 + u2) * (1 + u2)).
Proof.
  pose proof step_S as [L U].
  assert (0 <= (A + B) * (1 - u2)) by (rewrite u2_val; lra).
  pose proof (sq_le_compat ((A + B) * (1 - u2)) S ltac:(lra)).
  pose proof (sq_le_compat S ((A + B) * (1 + u2)) ltac:(lra)).
  lra.
Qed.

(** The difference of the squares. *)
Lemma step_squares :
  Rabs (S * S - 4 * (B' * B')) <= (theta * theta + 8 * u2) * (S * S).
Proof.
  pose proof step_AB_pos as AB0. pose proof step_P as [P1 P2].
  pose proof step_B'sq as [B1 B2]. pose proof step_Asq as [A1 A2].
  pose proof step_gap_sq as Hg.
  set (s2 := (A + B) * (A + B)) in *.
  assert (Hs2 : s2 = (A - B) * (A - B) + 4 * (A * B)) by (unfold s2; ring).
  assert (D0 : 0 <= (A - B) * (A - B)) by apply (Rle_0_sqr (A - B)).
  assert (S0 : 0 <= s2) by lra.
  assert (T0 : 0 <= theta * theta) by apply (Rle_0_sqr theta).
  assert (TS : 0 <= theta * theta * s2) by now apply Rmult_le_pos.
  assert (SS : 0 <= S * S) by apply (Rle_0_sqr S).
  (* theta^2 * S^2 against theta^2 * s2 *)
  assert (TA : theta * theta * (s2 * ((1 - u2) * (1 - u2))) <= theta * theta * (S * S)).
  { now apply Rmult_le_compat_l. }
  (* P against A * B, scaled *)
  assert (PB1 : A * B * (1 - u2) * ((1 - u2) * (1 - u2)) <= B' * B').
  { apply Rle_trans with (P * ((1 - u2) * (1 - u2))); [|assumption].
    apply Rmult_le_compat_r; [rewrite u2_val; lra | assumption]. }
  assert (PB2 : B' * B' <= A * B * (1 + u2) * ((1 + u2) * (1 + u2))).
  { apply Rle_trans with (P * ((1 + u2) * (1 + u2))); [assumption|].
    apply Rmult_le_compat_r; [rewrite u2_val; lra | assumption]. }
  rewrite u2_val in *.
  apply Rabs_le. split; lra.
Qed.

(** The relative gap after the step. *)
Lemma step_gap :
  Rabs (S / 2 - B') <= (theta * theta + 8 * u2) * (S / 2 + B').
Proof.
  pose proof step_B'_pos as B0. pose proof step_S_pos as A0.
  pose proof step_squares as Hsq.
  set (k := theta * theta + 8 * u2) in *.
  assert (K0 : 0 <= k).
  { unfold k. pose proof (Rle_0_sqr theta) as T. unfold Rsqr in T.
    rewrite u2_val. lra. }
  replace (S * S - 4 * (B' * B')) with (4 * ((S / 2 - B') * (S / 2 + B'))) in Hsq by field.
  rewrite Rabs_mult, (Rabs_pos_eq 4), Rabs_mult, (Rabs_pos_eq (S / 2 + B')) in Hsq by lra.
  assert (H1 : k * (S * S) <= 4 * (k * (S / 2 + B') * (S / 2 + B'))).
  { replace (k * (S * S)) with (4 * (k * (S / 2 * (S / 2)))) by field.
    apply Rmult_le_compat_l; [lra|]. rewrite Rmult_assoc.
    apply Rmult_le_compat_l; [assumption|].
    apply Rle_trans with ((S / 2 + B') * (S / 2)).
    - apply Rmult_le_compat_r; lra.
    - apply Rmult_le_compat_l; lra. }
  apply Rmult_le_reg_r with (S / 2 + B'); lra.
Qed.

(** The sizes after the step. *)
Lemma step_range L H :
  0 < L -> L <= A <= H -> L <= B <= H ->
  (L / 2 <= S / 2 <= 2 * H) /\ (L / 2 <= B' <= 2 * H).
Proof.
  intros L0 [A1 A2] [B1 B2].
  pose proof step_S as [S1 S2]. pose proof step_P as [P1 P2].
  pose proof step_G as [G0 G2]. pose proof step_B' as [Bl Bu].
  assert (LL : L * L <= A * B) by (apply Rmult_le_compat; lra).
  assert (HH : A * B <= H * H) by (apply Rmult_le_compat; lra).
  assert (L2 : 0 < L * L) by now apply Rmult_lt_0_compat.
  rewrite u2_val in *.
  split; [split; lra|].
  assert (G1 : 3 / 4 * L < G).
  { apply sq_lt_reg; [lra|]. rewrite G2.
    replace (3 / 4 * L * (3 / 4 * L)) with (9 / 16 * (L * L)) by field. lra. }
  assert (G3 : G < 5 / 4 * H).
  { apply sq_lt_reg; [lra|]. rewrite G2.
    replace (5 / 4 * H * (5 / 4 * H)) with (25 / 16 * (H * H)) by field.
    assert (0 < H * H) by (apply Rmult_lt_0_compat; lra). lra. }
  split; lra.
Qed.

End Step.

(** ** Leaving the loop *)


Lemma TOL_val : TOL = 6338253001141147 / 633825300114114700748351602688.
Proof.
  unfold TOL, mag. change (-99)%Z with (- (99))%Z.
  rewrite bpow_opp, bpow_IZR by lia. reflexivity.
Qed.


Lemma exit_test A B S T C :
  0 < A -> 0 < B ->
  Rabs (A - B) <= theta0 * (A + B) ->
  Rabs (S - (A + B)) <= u2 * (A + B) ->
  Rabs (T - TOL * (S / 2)) <= u2 * (TOL * (S / 2)) ->
  0 <= C <= Rabs (A - B) * (1 + u2) / 2 ->
  ~ T < C.
Proof.
  intros HA HB Hgap HS HT [C0 C1] Hlt.
  apply Rabs_bounds in HS. apply Rabs_bounds in HT.
  rewrite TOL_val in HT. rewrite u2_val in *. unfold theta0 in Hgap.
  assert (0 <= Rabs (A - B)) by apply Rabs_pos.
  lra.
Qed.

(** ** How many steps the loop needs *)



Lemma next_nonneg theta : 0 <= next theta.
Proof.
  unfold next. pose proof (Rle_0_sqr theta) as H. unfold Rsqr in H.
  rewrite u2_val. lra.
Qed.

Lemma next_mono a b : 0 <= a <= b -> next a <= next b.
Proof. intros H. unfold next. pose proof (sq_le_compat a b H). lra. Qed.

Lemma reach_mono n : forall a b, 0 <= a <= b -> reach n b -> reach n a.
Proof.
  induction n as [|n IH]; intros a b H; simpl.
  - lra.
  - apply IH. split; [apply next_nonneg | now apply next_mono].
Qed.

Lemma reach_step n a b : 0 <= a -> next a <= b -> reach n b -> reach (S n) a.
Proof.
  intros Ha Hb Hr. simpl. apply reach_mono with b; [|assumption].
  split; [apply next_nonneg | assumption].
Qed.

Lemma reach_small : reach 9 (7 / 8).
Proof.
  apply reach_step with (77 / 100); [lra | unfold next; rewrite u2_val; lra|].
  apply reach_step with (6 / 10); [lra | unfold next; rewrite u2_val; lra|].
  apply reach_step with (37 / 100); [lra | unfold next; rewrite u2_val; lra|].
  apply reach_step with (14 / 100); [lra | unfold next; rewrite u2_val; lra|].
  apply reach_step with (2 / 100); [lra | unfold next; rewrite u2_val; lra|].
  apply reach_step with (/ 2048); [lra | unfold next; rewrite u2_val; lra|].
  apply reach_step with (/ 2097152); [lra | unfold next; rewrite u2_val; lra|].
  apply reach_step with (/ 2199023255552); [lra | unfold next; rewrite u2_val; lra|].
  apply reach_step with theta0;
    [lra | unfold next, theta0; rewrite u2_val; lra | simpl; lra].
Qed.

Lemma two_steps d : / 1073741824 <= d <= / 16 -> next (next (1 - d)) <= 1 - 2 * d.
Proof.
  intros [H1 H2].
  assert (D2 : d * d <= d * / 16) by (apply Rmult_le_compat_l; lra).
  assert (N1 : next (1 - d) <= 1 - 3 / 2 * d).
  { unfold next. rewrite u2_val. lra. }
  apply Rle_trans with (next (1 - 3 / 2 * d)).
  - apply next_mono. split; [apply next_nonneg | assumption].
  - unfold next. rewrite u2_val. lra.
Qed.

Lemma pow2_inv_bounds (j : nat) :
  (j <= 26)%nat -> / 1073741824 <= / 2 ^ (j + 4) <= / 16.
Proof.
  intros Hj.
  assert (H16 : 16 <= 2 ^ (j + 4)).
  { replace 16 with (2 ^ 4) by (simpl; lra). apply Rle_pow; [lra | lia]. }
  assert (H30 : 2 ^ (j + 4) <= 1073741824).
  { replace 1073741824 with (2 ^ 30) by (simpl; lra). apply Rle_pow; [lra | lia]. }
  split.
  - apply Rinv_le_contravar; lra.
  - apply Rinv_le_contravar; lra.
Qed.

Lemma reach_large (j : nat) : (j <= 27)%nat -> reach (2 * j + 9) (1 - / 2 ^ (j + 3)).
Proof.
  induction j as [|j IH]; intros Hj.
  - simpl Nat.add. simpl Nat.mul. replace (1 - / 2 ^ 3) with (7 / 8) by (simpl; field).
    apply reach_small.
  - replace (2 * S j + 9)%nat with (S (S (2 * j + 9))) by lia.
    pose proof (pow2_inv_bounds j ltac:(lia)) as Hb.
    replace (S j + 3)%nat with (j + 4)%nat by lia.
    assert (Hd : 2 * / 2 ^ (j + 4) = / 2 ^ (j + 3)).
    { replace (j + 4)%nat with (S (j + 3)) by lia. simpl.
      assert (0 < 2 ^ (j + 3)) by (apply pow_lt; lra). field. lra. }
    simpl reach. apply reach_mono with (1 - / 2 ^ (j + 3)); [|apply IH; lia].
    split; [apply next_nonneg|]. rewrite <- Hd. now apply two_steps.
Qed.

(** Fifty-nine steps bring the gap from [1 - 2^-28] down to [theta0]. *)
Lemma reach_initial : reach 59 (1 - / 268435456).
Proof.
  replace (/ 268435456) with (/ 2 ^ (25 + 3)) by (simpl; f_equal; lra).
  apply (reach_large 25). lia.
Qed.

Lemma tol_posfloat : posfloat tol TOL.
Proof. exists 6338253001141147%positive, (-99)%Z. split; reflexivity. Qed.

Lemma TOL_range : bpow (-200) <= TOL <= bpow 200.
Proof.
  destruct (mag_bounds 6338253001141147 (-99)) as [L U]. fold TOL in L, U.
  change (Zpos (digits2_pos 6338253001141147) - 1 + -99)%Z with (-47)%Z in L.
  change (Zpos (digits2_pos 6338253001141147) + -99)%Z with (-46)%Z in U.
  assert (bpow (-200) <= bpow (-47)) by (apply bpow_le; lia).
  assert (bpow (-46) <= bpow 200) by (apply bpow_le; lia). lra.
Qed.

Lemma range_widen lo hi lo' hi' x :
  (lo' <= lo)%Z -> (hi <= hi')%Z ->
  bpow lo <= x <= bpow hi -> bpow lo' <= x <= bpow hi'.
Proof.
  intros H1 H2 [L U]. apply bpow_le in H1. apply bpow_le in H2. lra.
Qed.

Lemma prod_range_gen lo hi X Y :
  bpow lo <= X <= bpow hi -> bpow lo <= Y <= bpow hi ->
  bpow (lo + lo) <= X * Y <= bpow (hi + hi).
Proof.
  intros [X1 X2] [Y1 Y2]. pose proof (bpow_pos lo). rewrite !bpow_add.
  split; apply Rmult_le_compat; lra.
Qed.

Lemma bpow_half k : bpow k / 2 = bpow (k - 1).
Proof.
  replace k with ((k - 1) + 1)%Z at 1 by lia. rewrite bpow_add, bpow_1. field.
Qed.

Lemma bpow_double k : 2 * bpow k = bpow (k + 1).
Proof. rewrite bpow_add, bpow_1. ring. Qed.

(** What one run of the loop body computes. *)
Lemma body_values a b A B lo hi :
  posfloat a A -> posfloat b B ->
  (-100 <= lo)%Z -> (hi <= 100)%Z ->
  bpow lo <= A <= bpow hi -> bpow lo <= B <= bpow hi ->
  let an := ((a + b) / 2)%float in
  let bn := Math_sqrt (a * b)%float in
  let c := ((a - b) / 2)%float in
  exists S P B' T C,
    posfloat an (S / 2) /\ posfloat bn B' /\
    Rabs (S - (A + B)) <= u2 * (A + B) /\
    Rabs (P - A * B) <= u2 * (A * B) /\
    Rabs (B' - sqrt P) <= u2 * sqrt P /\
    (bpow (lo - 1) <= S / 2 <= bpow (hi + 1)) /\
    (bpow (lo - 1) <= B' <= bpow (hi + 1)) /\
    posfloat (tol * an)%float T /\
    Rabs (T - TOL * (S / 2)) <= u2 * (TOL * (S / 2)) /\
    0 <= C <= Rabs (A - B) * (1 + u2) / 2 /\
    (Prim2SF (Math_abs c) = S754_zero false \/ posfloat (Math_abs c) C).
Proof.
  intros Ha Hb Hlo Hhi HA HB an bn c.
  pose proof (posfloat_pos _ _ Ha) as A0. pose proof (posfloat_pos _ _ Hb) as B0.
  assert (HA1 : bpow (-100) <= A <= bpow 100) by (apply (range_widen lo hi); auto).
  assert (HB1 : bpow (-100) <= B <= bpow 100) by (apply (range_widen lo hi); auto).
  assert (HA2 : bpow (-200) <= A <= bpow 200) by (apply (range_widen lo hi); auto; lia).
  assert (HB2 : bpow (-200) <= B <= bpow 200) by (apply (range_widen lo hi); auto; lia).
  destruct (add_posfloat a b A B Ha Hb HA2 HB2) as (S & Hs & HS).
  destruct (mul_posfloat a b A B Ha Hb HA2 HB2) as (P & Hp & HP).
  pose proof (bpow_pos lo) as L0.
  (* the square root *)
  assert (HPr : bpow (-400) <= P <= bpow 400).
  { pose proof (prod_range_gen _ _ A B HA1 HB1) as [Q1 Q2].
    pose proof (step_P A B P HP) as [P1 P2].
    assert (AB0 : 0 < A * B) by now apply Rmult_lt_0_compat.
    rewrite u2_val in P1, P2.
    pose proof (bpow_half (-100 + -100)) as E1.
    pose proof (bpow_double (100 + 100)) as E2.
    assert (bpow (-400) <= bpow (-100 + -100 - 1)) by (apply bpow_le; lia).
    assert (bpow (100 + 100 + 1) <= bpow 400) by (apply bpow_le; lia).
    pose proof (bpow_pos (-100 + -100)). lra. }
  destruct (sqrt_posfloat (a * b)%float P Hp HPr) as (B' & Hbn & HB').
  destruct (step_range A B S P (sqrt P) B' A0 B0 HS HP eq_refl HB' (bpow lo) (bpow hi)
              L0 HA HB) as [RS RB].
  rewrite bpow_half, bpow_double in RS, RB.
  (* the mean *)
  assert (Han : posfloat an (S / 2)).
  { apply half_posfloat; [assumption|].
    pose proof (step_S A B S HS) as [S1 S2]. rewrite u2_val in S1, S2.
    pose proof (bpow_pos (-200)).
    assert (bpow (-300) <= bpow (-200)) by (apply bpow_le; lia).
    assert (bpow (200 + 1 + 1) <= bpow 300) by (apply bpow_le; lia).
    rewrite <- !bpow_double in H1. lra. }
  (* the threshold *)
  assert (HSr : bpow (-200) <= S / 2 <= bpow 200)
    by (apply (range_widen (lo - 1) (hi + 1)); auto; lia).
  destruct (mul_posfloat tol an TOL (S / 2) tol_posfloat Han TOL_range HSr)
    as (T & Ht & HT).
  (* the half difference *)
  destruct (sub_half_abs a b A B Ha Hb HA2 HB2) as (C & HC & Hc).
  exists S, P, B', T, C. repeat split; try tauto; try assumption.
Qed.

(** The loop returns within [n] runs of its body when the relative gap of
    [a] and [b] is bounded by a level that reaches [theta0] in [n] steps. *)
Lemma agm_loop_returns n : forall theta a b c sum pow A B fuel,
  posfloat a A -> posfloat b B ->
  bpow (Z.of_nat n - 100) <= A <= bpow (100 - Z.of_nat n) ->
  bpow (Z.of_nat n - 100) <= B <= bpow (100 - Z.of_nat n) ->
  0 <= theta -> Rabs (A - B) <= theta * (A + B) -> reach n theta ->
  (n < fuel)%nat ->
  exists r, agm_loop fuel a b c sum pow = Return r.
Proof.
  induction n as [|n IH]; intros theta a b c sum pow A B fuel Ha Hb HA HB Hth Hgap Hr Hf.
  - (* the gap is below [theta0]: the test after one more run fails *)
    destruct fuel as [|fuel]; [lia|]. simpl agm_loop.
    destruct (Math_abs c >? tol * a)%float; [|eauto].
    destruct (body_values a b A B (Z.of_nat 0 - 100) (100 - Z.of_nat 0) Ha Hb
                ltac:(lia) ltac:(lia) HA HB)
      as (S & P & B' & T & C & Han & Hbn & HS & HP & HB' & RS & RB & Ht & HT & HC & Hc).
    simpl in Hr.
    assert (Hexit : ((tol * ((a + b) / 2)) <? Math_abs ((a - b) / 2))%float = false).
    { destruct (_ <? _)%float eqn:E; [exfalso|reflexivity].
      apply (test_true _ _ T C Ht Hc) in E.
      apply (exit_test A B S T C); auto.
      - now apply (posfloat_pos a).
      - now apply (posfloat_pos b).
      - apply Rle_trans with (theta * (A + B)); [assumption|].
        apply Rmult_le_compat_r; [|assumption].
        pose proof (posfloat_pos _ _ Ha). pose proof (posfloat_pos _ _ Hb). lra. }
    destruct fuel as [|fuel]; simpl agm_loop; rewrite Hexit; eauto.
  - destruct fuel as [|fuel]; [lia|]. simpl agm_loop.
    destruct (Math_abs c >? tol * a)%float; [|eauto].
    destruct (body_values a b A B (Z.of_nat (Datatypes.S n) - 100)
                (100 - Z.of_nat (Datatypes.S n)) Ha Hb ltac:(lia) ltac:(lia) HA HB)
      as (S & P & B' & T & C & Han & Hbn & HS & HP & HB' & RS & RB & Ht & HT & HC & Hc).
    apply (IH (next theta) _ _ _ _ _ (S / 2) B'); auto.
    + replace (Z.of_nat n - 100)%Z with (Z.of_nat (Datatypes.S n) - 100 - 1)%Z by lia.
      replace (100 - Z.of_nat n)%Z with (100 - Z.of_nat (Datatypes.S n) + 1)%Z by lia.
      exact RS.
    + replace (Z.of_nat n - 100)%Z with (Z.of_nat (Datatypes.S n) - 100 - 1)%Z by lia.
      replace (100 - Z.of_nat n)%Z with (100 - Z.of_nat (Datatypes.S n) + 1)%Z by lia.
      exact RB.
    + apply next_nonneg.
    + apply (step_gap A B S P (sqrt P) B' theta); auto.
      * now apply (posfloat_pos a).
      * now apply (posfloat_pos b).
    + lia.
Qed.

(** ** The first values of the loop *)

Lemma one_posfloat : posfloat 1 1.
Proof.
  exists 4503599627370496%positive, (-52)%Z. split; [reflexivity|].
  unfold mag. change (-52)%Z with (- (52))%Z. rewrite bpow_opp, bpow_IZR by lia.
  change (2 ^ 52)%Z with 4503599627370496%Z. field.
Qed.

Lemma mag_one : mag 4503599627370496 (-52) = 1.
Proof.
  unfold mag. change (-52)%Z with (- (52))%Z. rewrite bpow_opp, bpow_IZR by lia.
  change (2 ^ 52)%Z with 4503599627370496%Z. field.
Qed.

(** A binary64 number below 1 is at most [1 - 2^-53]. *)
Lemma below_one m e :
  canonical m e -> mag m e < 1 -> mag m e <= 1 - bpow (-53).
Proof.
  intros (D & E & C) H.
  assert (H0 : mag m e < bpow 0) by (rewrite bpow_0; exact H).
  apply mag_upper in H0.
  pose proof (digits2_pos_bounds m) as [_ U].
  assert (Hm : (Zpos m <= 2 ^ 53 - 1)%Z).
  { assert (2 ^ Zpos (digits2_pos m) <= 2 ^ 53)%Z by (apply Z.pow_le_mono_r; lia). lia. }
  apply IZR_le in Hm. rewrite minus_IZR in Hm.
  change (IZR (2 ^ 53)) with 9007199254740992 in Hm.
  assert (He : bpow e <= bpow (-53)) by (apply bpow_le; lia).
  assert (H53 : bpow (-53) = / 9007199254740992).
  { change (-53)%Z with (- (53))%Z. rewrite bpow_opp, bpow_IZR by lia. reflexivity. }
  pose proof (bpow_pos e) as Hp. unfold mag.
  apply Rle_trans with ((9007199254740992 - 1) * bpow (-53)).
  - apply Rle_trans with ((9007199254740992 - 1) * bpow e).
    + apply Rmult_le_compat_r; lra.
    + apply Rmult_le_compat_l; lra.
  - rewrite H53. lra.
Qed.

Lemma sqrt_bpow_even k : sqrt (bpow (k + k)) = bpow k.
Proof.
  rewrite bpow_add. apply sqrt_square. left. apply bpow_pos.
Qed.

(** The first [b] of the loop, [sqrt(1 - m)], for a number [m] of (0, 1). *)
Lemma first_b m mm em :
  Prim2SF m = S754_finite false mm em -> (m <? 1)%float = true ->
  exists B0, posfloat (Math_sqrt (1 - m)%float) B0 /\ bpow (-28) <= B0 <= bpow 2.
Proof.
  intros Em Hlt.
  pose proof (posfloat_canonical m mm em Em) as Cm.
  assert (HM : mag mm em < 1).
  { rewrite <- mag_one. apply SFltb_pos_R; [assumption | |].
    - apply (posfloat_canonical 1). reflexivity.
    - rewrite ltb_spec, Em in Hlt. exact Hlt. }
  pose proof (below_one mm em Cm HM) as HM1.
  pose proof (mag_pos mm em) as HM0.
  set (M := mag mm em) in *.
  assert (H53 : bpow (-53) = / 9007199254740992).
  { change (-53)%Z with (- (53))%Z. rewrite bpow_opp, bpow_IZR by lia. reflexivity. }
  (* 1 - m *)
  assert (Hdiff : mag 4503599627370496 (-52) = M \/
                  bpow (-1021) <= Rabs (mag 4503599627370496 (-52) - M) < bpow 1022).
  { right. rewrite mag_one, Rabs_pos_eq by lra. split.
    - apply Rle_trans with (bpow (-53)); [apply bpow_le; lia | lra].
    - apply Rlt_le_trans with (bpow 0); [rewrite bpow_0; lra | apply bpow_le; lia]. }
  destruct (SFsub_error 4503599627370496 (-52) mm em Hdiff) as (r & Hr & Hfz & Hb).
  cbv zeta in Hb. fold M in Hb. rewrite mag_one in Hb.
  rewrite (Rabs_pos_eq (1 - M)) in Hb by lra. change (bpow (-52)) with u2 in Hb.
  apply Rabs_bounds in Hb. rewrite u2_val in Hb.
  assert (Hsub : Prim2SF (1 - m) = r).
  { rewrite sub_spec, Em. exact Hr. }
  assert (Hx : exists X0, posfloat (1 - m)%float X0 /\ bpow (-54) <= X0 <= bpow 1).
  { assert (H54 : bpow (-54) = bpow (-53) / 2) by (rewrite bpow_half; reflexivity).
    destruct r as [s| | |s p e]; try contradiction.
    - simpl in Hb. lra.
    - simpl SF2R in Hb. pose proof (mag_pos p e) as Hp. unfold mag in Hp.
      destruct s; [lra|].
      exists (mag p e). split; [now exists p, e|].
      unfold mag. rewrite bpow_1. lra. }
  destruct Hx as (X0 & HX0 & HXr).
  destruct (sqrt_posfloat (1 - m)%float X0 HX0) as (B0 & HB0 & HBb).
  { apply (range_widen (-54) 1); auto; lia. }
  exists B0. split; [exact HB0|].
  assert (S1 : bpow (-27) <= sqrt X0).
  { rewrite <- (sqrt_bpow_even (-27)). apply sqrt_le_1_alt. tauto. }
  assert (S2 : sqrt X0 <= bpow 1).
  { rewrite <- (sqrt_bpow_even 1). apply sqrt_le_1_alt.
    apply Rle_trans with (bpow 1); [tauto | apply bpow_le; lia]. }
  apply Rabs_bounds in HBb. rewrite u2_val in HBb.
  pose proof (bpow_half (-27)) as E1. pose proof (bpow_double 1) as E2.
  change (-27 - 1)%Z with (-28)%Z in E1. change (1 + 1)%Z with 2%Z in E2.
  pose proof (bpow_pos (-27)). pose proof (bpow_pos 1). lra.
Qed.

(** The relative gap of [1] and the first [b]. *)
Lemma first_gap B0 :
  bpow (-28) <= B0 <= bpow 2 ->
  Rabs (1 - B0) <= (1 - / 268435456) * (1 + B0).
Proof.
  intros [L U].
  assert (E28 : bpow (-28) = / 268435456).
  { change (-28)%Z with (- (28))%Z. rewrite bpow_opp, bpow_IZR by lia. reflexivity. }
  assert (E2 : bpow 2 = 4) by (unfold bpow; simpl; lra).
  rewrite E28 in L. rewrite E2 in U.
  apply Rabs_le. split; lra.
Qed.


End RealValues.
(** ** Rounding at the next exponent *)

Section ScalingFacts.
Local Open Scope Z_scope.

Lemma digits_upper m : 0 <= m -> m < 2 ^ Zdigits2 m.
Proof.
  intros H. destruct m as [|p|p]; [reflexivity| |lia].
  apply (digits_bounds (Zpos p)). lia.
Qed.

Lemma digits_le m k : 0 <= m < 2 ^ k -> 0 <= k -> Zdigits2 m <= k.
Proof.
  intros [H0 H1] Hk. destruct m as [|p|p]; [simpl; lia| |lia].
  pose proof (digits_bounds (Zpos p) ltac:(lia)) as [H2 _].
  destruct (Z_le_gt_dec (Zdigits2 (Zpos p)) k) as [L|G]; [assumption|].
  assert (2 ^ k <= 2 ^ (Zdigits2 (Zpos p) - 1)) by (apply Z.pow_le_mono_r; lia). lia.
Qed.

(** One pass of [shr_fexp] on an exponent one higher keeps the digits, when
    the exponent it returns is above the smallest one. *)
Lemma shr_fexp_shift m e l mrs e1 :
  shr_fexp prec emax m e l = (mrs, e1) -> -1074 < e1 ->
  shr_fexp prec emax m (e + 1) l = (mrs, e1 + 1).
Proof.
  unfold shr_fexp. fold fexp64. rewrite !fexp64_eq.
  set (d := Zdigits2 m). unfold shr.
  destruct (Z.max (d + e - 53) (-1074) - e) as [|p|p] eqn:E;
    intros H; injection H as <- <-; intros He1.
  - replace (Z.max (d + (e + 1) - 53) (-1074) - (e + 1)) with 0 by lia. reflexivity.
  - replace (Z.max (d + (e + 1) - 53) (-1074) - (e + 1)) with (Zpos p) by lia.
    f_equal. lia.
  - destruct (Z.max (d + (e + 1) - 53) (-1074) - (e + 1)) eqn:E'; try lia; reflexivity.
Qed.

(** The second pass, on at most [2^53] at the smallest exponent, adds at most
    one to the exponent. *)
Lemma shr_fexp_small q mrs e2 :
  0 <= q <= 2 ^ 53 ->
  shr_fexp prec emax q (-1074) loc_Exact = (mrs, e2) -> e2 <= -1073.
Proof.
  intros Hq H.
  assert (Hd : Zdigits2 q <= 54).
  { apply digits_le; [|lia]. change (2 ^ 54) with (2 * 2 ^ 53). lia. }
  unfold shr_fexp in H. fold fexp64 in H. rewrite fexp64_eq in H.
  assert (H0 : 0 <= shr_m (shr_record_of_loc q loc_Exact)) by (simpl; lia).
  pose proof (shr_spec (shr_record_of_loc q loc_Exact) (-1074)
                (Z.max (Zdigits2 q + -1074 - 53) (-1074) - -1074) H0) as S.
  rewrite H in S. simpl snd in S. destruct S as [_ S]. lia.
Qed.

Lemma shr_fexp_exponent m e l mrs e1 :
  0 <= m -> shr_fexp prec emax m e l = (mrs, e1) ->
  -1074 <= e1 /\ 0 <= shr_m mrs /\
  (e1 = -1074 -> shr_m mrs < 2 ^ 53).
Proof.
  intros Hm H. unfold shr_fexp in H. fold fexp64 in H. rewrite fexp64_eq in H.
  assert (H0 : 0 <= shr_m (shr_record_of_loc m l)) by (rewrite shr_m_of_loc; lia).
  pose proof (shr_spec (shr_record_of_loc m l) e
                (Z.max (Zdigits2 m + e - 53) (-1074) - e) H0) as S.
  rewrite H in S. simpl fst in S. simpl snd in S. rewrite shr_m_of_loc in S.
  destruct S as [S1 S2].
  set (k := Z.max 0 (Z.max (Zdigits2 m + e - 53) (-1074) - e)) in *.
  assert (Hp : 0 < 2 ^ k) by (apply Z.pow_pos_nonneg; lia).
  split; [lia|]. split.
  - rewrite S1. apply Z.div_pos; lia.
  - intros He. rewrite S1. apply Z.div_lt_upper_bound; [lia|].
    pose proof (digits_upper m Hm) as Hu.
    assert (2 ^ Zdigits2 m <= 2 ^ (k + 53)).
    { apply Z.pow_le_mono_r; lia. }
    rewrite <- Z.pow_add_r by lia. lia.
Qed.

(** Rounding at an exponent one higher: the same digits, one exponent up,
    provided the result is at least [2^-1020] and below [2^1023]. *)
Lemma binary_round_aux_shift s m e l p e2 :
  0 <= m ->
  binary_round_aux prec emax s m e l = S754_finite s p e2 ->
  -1072 <= e2 <= 970 ->
  binary_round_aux prec emax s m (e + 1) l = S754_finite s p (e2 + 1).
Proof.
  intros Hm H He2. unfold binary_round_aux in *.
  destruct (shr_fexp prec emax m e l) as [mrs' e1] eqn:S1.
  destruct (shr_fexp_exponent m e l mrs' e1 Hm S1) as (Hlo & Hpos & Hsmall).
  set (q' := round_nearest_even (shr_m mrs') (loc_of_shr_record mrs')) in *.
  destruct (shr_fexp prec emax q' e1 loc_Exact) as [mrs'' e2'] eqn:S2.
  destruct (shr_m mrs'') as [|p'|p'] eqn:Hm''; try discriminate.
  destruct (e2' <=? emax - prec) eqn:Hle; try discriminate.
  injection H as -> ->.
  assert (He1 : -1074 < e1).
  { destruct (Z.eq_dec e1 (-1074)) as [E|N]; [|lia]. exfalso.
    specialize (Hsmall E). subst e1.
    assert (0 <= q' <= 2 ^ 53).
    { unfold q'. destruct (round_nearest_even_cases (shr_m mrs') (loc_of_shr_record mrs'))
        as [-> | ->]; lia. }
    pose proof (shr_fexp_small q' mrs'' e2 ltac:(assumption) S2). lia. }
  rewrite (shr_fexp_shift m e l mrs' e1 S1 He1). fold q'.
  rewrite (shr_fexp_shift q' e1 loc_Exact mrs'' e2 S2) by lia.
  rewrite Hm''.
  assert (Hle' : (e2 + 1 <=? emax - prec) = true)
    by (apply Z.leb_le; unfold emax, prec; lia).
  now rewrite Hle'.
Qed.

(** Rounding a number below [2^-1021]: the result is below [2^-1020]. *)
Lemma binary_round_aux_small s q l p e2 :
  0 <= q < 2 ^ 53 ->
  binary_round_aux prec emax s q (-1074) l = S754_finite s p e2 -> e2 <= -1073.
Proof.
  intros Hq H. unfold binary_round_aux in H.
  destruct (shr_fexp prec emax q (-1074) l) as [mrs' e1] eqn:S1.
  assert (Hd : Zdigits2 q <= 53) by (apply digits_le; lia).
  assert (H0 : 0 <= shr_m (shr_record_of_loc q l)) by (rewrite shr_m_of_loc; lia).
  pose proof (shr_spec (shr_record_of_loc q l) (-1074)
                (fexp64 (Zdigits2 q + -1074) - -1074) H0) as S.
  unfold shr_fexp in S1. fold fexp64 in S1. rewrite S1 in S.
  simpl fst in S. simpl snd in S. rewrite shr_m_of_loc, fexp64_eq in S.
  replace (Z.max 0 (Z.max (Zdigits2 q + -1074 - 53) (-1074) - -1074)) with 0 in S by lia.
  destruct S as [Sm Se]. simpl in Sm. rewrite Z.div_1_r in Sm.
  replace e1 with (-1074) in * by lia.
  set (q' := round_nearest_even (shr_m mrs') (loc_of_shr_record mrs')) in *.
  destruct (shr_fexp prec emax q' (-1074) loc_Exact) as [mrs'' e2'] eqn:S2.
  assert (0 <= q' <= 2 ^ 53).
  { unfold q'. destruct (round_nearest_even_cases (shr_m mrs') (loc_of_shr_record mrs'))
      as [-> | ->]; lia. }
  pose proof (shr_fexp_small q' mrs'' e2' ltac:(assumption) S2).
  destruct (shr_m mrs''); try discriminate.
  destruct (e2' <=? emax - prec); try discriminate.
  injection H as _ <-. assumption.
Qed.

Lemma SFmul_shift su mu eu sv mv ev s p e2 :
  SF64mul (S754_finite su mu eu) (S754_finite sv mv ev) = S754_finite s p e2 ->
  -1072 <= e2 <= 970 ->
  SF64mul (S754_finite su mu (eu + 1)) (S754_finite sv mv ev) = S754_finite s p (e2 + 1).
Proof.
  unfold SF64mul, SFmul. intros H He.
  assert (Hs : s = xorb su sv).
  { unfold binary_round_aux in H.
    destruct (shr_fexp _ _ _ _ _) as [a b].
    destruct (shr_fexp _ _ _ _ _) as [c d].
    destruct (shr_m c); try discriminate.
    destruct (d <=? emax - prec); try discriminate. now injection H. }
  subst s. replace (eu + 1 + ev) with (eu + ev + 1) by lia.
  apply binary_round_aux_shift; [lia|assumption|assumption].
Qed.

Lemma binary_round_aux_sign s m e l s' p e2 :
  binary_round_aux prec emax s m e l = S754_finite s' p e2 -> s' = s.
Proof.
  unfold binary_round_aux.
  destruct (shr_fexp _ _ _ _ _) as [a b].
  destruct (shr_fexp _ _ _ _ _) as [c d].
  destruct (shr_m c); try discriminate.
  destruct (d <=? emax - prec); try discriminate. intros H. now injection H.
Qed.

Lemma SFdiv_shift su mu eu sv mv ev s p e2 :
  SF64div (S754_finite su mu eu) (S754_finite sv mv ev) = S754_finite s p e2 ->
  -1072 <= e2 <= 970 ->
  SF64div (S754_finite su mu (eu + 1)) (S754_finite sv mv ev) = S754_finite s p (e2 + 1).
Proof.
  unfold SF64div, SFdiv, SFdiv_core_binary. fold fexp64. cbv zeta.
  rewrite !fexp64_eq.
  set (du := Zdigits2 (Zpos mu)). set (dv := Zdigits2 (Zpos mv)).
  remember (Z.min (Z.max (du + eu - (dv + ev) - 53) (-1074)) (eu - ev)) as E' eqn:HE'.
  intros H He.
  pose proof (digits_bounds (Zpos mu) ltac:(lia)) as Hu. fold du in Hu.
  pose proof (digits_bounds (Zpos mv) ltac:(lia)) as Hv. fold dv in Hv.
  pose proof (Zdigits2_pos (Zpos mu) ltac:(lia)) as Hup. fold du in Hup.
  pose proof (Zdigits2_pos (Zpos mv) ltac:(lia)) as Hvp. fold dv in Hvp.
  clearbody du dv.
  assert (Hs : 0 <= eu - ev - E') by (clear - HE'; lia).
  set (m' := match eu - ev - E' with
             | 0 => Zpos mu
             | Zpos _ => Z.shiftl (Zpos mu) (eu - ev - E')
             | Zneg _ => 0
             end) in *.
  assert (Hm' : m' = Zpos mu * 2 ^ (eu - ev - E')).
  { unfold m'. destruct (eu - ev - E') eqn:Es; [| |lia].
    - rewrite Z.pow_0_r, Z.mul_1_r. reflexivity.
    - now rewrite Z.shiftl_mul_pow2 by lia. }
  assert (Hp : 0 < 2 ^ (eu - ev - E')) by (apply Z.pow_pos_nonneg; lia).
  destruct (Z.div_eucl m' (Zpos mv)) as [q r] eqn:Hd.
  assert (Hq : q = m' / Zpos mv) by (unfold Z.div; now rewrite Hd).
  assert (Hq0 : 0 <= q) by (rewrite Hq; apply Z.div_pos; nia).
  pose proof (binary_round_aux_sign _ _ _ _ _ _ _ H) as ->.
  destruct (Z_lt_le_dec (du + eu - (dv + ev) - 53) (-1074)) as [Hc|Hc];
    [destruct (Z_lt_le_dec (eu - ev) (-1074)) as [Hc2|Hc2]|].
  - (* below the normal range, no shift of the dividend *)
    replace (Z.min (Z.max (du + (eu + 1) - (dv + ev) - 53) (-1074)) (eu + 1 - ev))
      with (E' + 1) by lia.
    replace (eu + 1 - ev - (E' + 1)) with (eu - ev - E') by lia.
    fold m'. rewrite Hd.
    apply binary_round_aux_shift; assumption.
  - (* below the normal range: the quotient is small *)
    exfalso.
    assert (HE : E' = -1074) by lia. rewrite HE in H.
    assert (Hq53 : q < 2 ^ 53).
    { rewrite Hq. apply Z.div_lt_upper_bound; [lia|].
      assert (m' < 2 ^ (du + (eu - ev - E'))).
      { rewrite Hm', Z.pow_add_r by lia. nia. }
      assert (H2 : 2 ^ (du + (eu - ev - E')) <= 2 ^ (dv - 1 + 53))
        by (apply Z.pow_le_mono_r; lia).
      rewrite (Z.pow_add_r 2 (dv - 1) 53) in H2 by lia.
      assert (2 ^ (dv - 1) * 2 ^ 53 <= Zpos mv * 2 ^ 53)
        by (apply Z.mul_le_mono_nonneg_r; lia).
      lia. }
    pose proof (binary_round_aux_small _ q _ _ _ ltac:(lia) H). lia.
  - replace (Z.min (Z.max (du + (eu + 1) - (dv + ev) - 53) (-1074)) (eu + 1 - ev))
      with (E' + 1) by lia.
    replace (eu + 1 - ev - (E' + 1)) with (eu - ev - E') by lia.
    fold m'. rewrite Hd.
    apply binary_round_aux_shift; assumption.
Qed.

(** Twice a normal number below [2^1023]: the same digits, one exponent up. *)
Lemma SFdouble_finite s m e :
  Zpos (digits2_pos m) = 53 -> -1074 <= e <= 970 ->
  SF64mul SFtwo (S754_finite s m e) = S754_finite s m (e + 1).
Proof.
  intros Hd He. unfold SF64mul, SFmul, SFtwo. simpl xorb.
  unfold binary_round_aux, shr_fexp. fold fexp64.
  assert (Hdig : Zdigits2 (Zpos (4503599627370496 * m)) = 105).
  { rewrite Pos2Z.inj_mul, Z.mul_comm.
    change (Zpos 4503599627370496) with (2 ^ 52).
    rewrite digits_shift by lia. lia. }
  rewrite Hdig, fexp64_eq.
  replace (Z.max (105 + (-51 + e) - 53) (-1074) - (-51 + e)) with 52 by lia.
  change (shr (shr_record_of_loc (Zpos (4503599627370496 * m)) loc_Exact) (-51 + e) 52)
    with ({| shr_m := Zpos m; shr_r := false; shr_s := false |}, (-51 + e + 52)).
  cbv iota beta.
  change (round_nearest_even _ _) with (Zpos m).
  change (Zdigits2 (Zpos m)) with (Zpos (digits2_pos m)).
  rewrite Hd, fexp64_eq.
  replace (Z.max (53 + (-51 + e + 52) - 53) (-1074) - (-51 + e + 52)) with 0 by lia.
  change (shr (shr_record_of_loc (Zpos m) loc_Exact) (-51 + e + 52) 0)
    with ({| shr_m := Zpos m; shr_r := false; shr_s := false |}, (-51 + e + 52)).
  cbv iota beta. simpl shr_m. cbv iota.
  replace (-51 + e + 52) with (e + 1) by lia.
  assert (Hle : (e + 1 <=? emax - prec) = true)
    by (apply Z.leb_le; unfold emax, prec; lia).
  now rewrite Hle.
Qed.

Lemma SFmul_comm x y : SF64mul x y = SF64mul y x.
Proof.
  unfold SF64mul, SFmul.
  destruct x as [sx|sx| |sx mx ex], y as [sy|sy| |sy my ey];
    try reflexivity; try (now rewrite xorb_comm).
  now rewrite xorb_comm, Pos.mul_comm, Z.add_comm.
Qed.

End ScalingFacts.

(** ** Doubling a binary64 number *)

Lemma SFleb_finite m1 e1 m2 e2 :
  SFleb (S754_finite false m1 e1) (S754_finite false m2 e2) = true -> (e1 <= e2)%Z.
Proof.
  unfold SFleb, SFcompare. destruct (Z.compare_spec e1 e2); try lia; discriminate.
Qed.

Lemma SFltb_finite m1 e1 m2 e2 :
  SFltb (S754_finite false m1 e1) (S754_finite false m2 e2) = true ->
  (e1 < e2)%Z \/ (e1 = e2 /\ (m1 < m2)%positive).
Proof.
  unfold SFltb, SFcompare. destruct (Z.compare_spec e1 e2); try lia; try discriminate.
  change (Pos.compare_cont Eq m1 m2) with (Pos.compare m1 m2).
  destruct (Pos.compare_spec m1 m2); try discriminate. tauto.
Qed.

Lemma roomy_spec r :
  roomy r = true ->
  exists s m e, Prim2SF r = S754_finite s m e /\
    (Zpos (digits2_pos m) = 53 /\ -1072 <= e <= 970)%Z.
Proof.
  unfold roomy, Math_abs. rewrite andb_true_iff, leb_spec, ltb_spec, abs_spec.
  intros [H1 H2].
  change (Prim2SF 0x1p-1020) with (S754_finite false 4503599627370496 (-1072)) in H1.
  change (Prim2SF 0x1p1023) with (S754_finite false 4503599627370496 971) in H2.
  destruct (Prim2SF r) as [s|s| |s m e] eqn:E; try discriminate.
  destruct (Prim2SF_finite_valid r s m e E) as (Hd & He & Hc).
  exists s, m, e. split; [reflexivity|].
  apply SFleb_finite in H1. apply SFltb_finite in H2.
  assert (Hd53 : Zpos (digits2_pos m) = 53%Z) by (clear - Hc H1; lia).
  split; [assumption|]. split; [assumption|].
  destruct H2 as [H2|[H2 H3]]; [clear - H1 H2; lia|]. exfalso.
  pose proof (digits2_pos_bounds m) as [B _]. rewrite Hd53 in B.
  apply Pos2Z.pos_lt_pos in H3.
  change (2 ^ (53 - 1))%Z with 4503599627370496%Z in B. clear - B H3. lia.
Qed.

Lemma unscaled_spec r :
  unscaled r = true <->
  match Prim2SF r with S754_finite _ _ _ => False | _ => True end.
Proof.
  unfold unscaled, strict_eq, isFinite, is_finite, is_infinity, PrimFloat.is_nan.
  rewrite !eqb_spec, abs_spec.
  change (Prim2SF 0) with (S754_zero false).
  change (Prim2SF infinity) with (S754_infinity false).
  destruct (Prim2SF r) as [[]|[]| |[] m e]; simpl; try tauto;
    unfold SFeqb, SFcompare; simpl; rewrite Z.compare_refl;
    change (Pos.compare_cont Eq m m) with (Pos.compare m m);
    rewrite Pos.compare_refl; simpl; (split; [discriminate|contradiction]).
Qed.

Lemma unscaled_false r :
  unscaled r = false -> exists s m e, Prim2SF r = S754_finite s m e.
Proof.
  intros H. pose proof (unscaled_spec r) as S. rewrite H in S.
  destruct (Prim2SF r) as [s|s| |s m e]; try (exfalso; apply diff_false_true, S; exact I).
  now exists s, m, e.
Qed.

Lemma double_finite r s m e :
  Prim2SF r = S754_finite s m e ->
  (Zpos (digits2_pos m) = 53)%Z -> (e <= 970)%Z ->
  Prim2SF (2 * r) = S754_finite s m (e + 1).
Proof.
  intros E Hd He. rewrite mul_spec, E.
  destruct (Prim2SF_finite_valid r s m e E) as (_ & He' & _).
  change (Prim2SF 2) with SFtwo. apply SFdouble_finite; [assumption|lia].
Qed.

Lemma double_unscaled r : unscaled r = true -> 2 * r = r.
Proof.
  rewrite unscaled_spec. intros H. apply Prim2SF_inj. rewrite mul_spec.
  change (Prim2SF 2) with SFtwo.
  destruct (Prim2SF r) as [[]|[]| |]; try reflexivity. contradiction.
Qed.

Lemma mul_comm x y : x * y = y * x.
Proof. apply Prim2SF_inj. rewrite !mul_spec. apply SFmul_comm. Qed.

(** A product doubles with its first factor. *)
Lemma mul_scaled u v :
  scalable u = true -> scales u v (u * v) = true ->
  (2 * u) * v = 2 * (u * v) /\ scalable (u * v) = true.
Proof.
  unfold scalable, scales. rewrite !orb_true_iff. intros Hu Hr.
  assert (Cases :
    (unscaled u = true \/ (roomy u = true /\ unscaled v = true)) \/
    (roomy u = true /\ unscaled v = false /\ roomy (u * v) = true)).
  { destruct (unscaled u) eqn:Eu; [tauto|]. destruct (unscaled v) eqn:Ev.
    - destruct Hu as [Hu|Hu]; [tauto|discriminate].
    - right. repeat split; try tauto. destruct Hu; [assumption|discriminate].
      destruct Hr as [[Hr|Hr]|Hr]; [assumption|discriminate|discriminate]. }
  destruct Cases as [Fix|(Hru & Hv & Hrr)].
  - assert (Hfix : unscaled (u * v) = true /\ (2 * u) * v = u * v).
    { destruct Fix as [Fu|[Ru Fv]].
      - rewrite (double_unscaled u Fu). split; [|reflexivity].
        rewrite unscaled_spec in *. rewrite mul_spec.
        destruct (Prim2SF u) as [[]|[]| |]; try contradiction;
          destruct (Prim2SF v) as [[]|[]| |[]]; exact I.
      - destruct (roomy_spec u Ru) as (s & m & e & E & Hd & He).
        pose proof (double_finite u s m e E Hd ltac:(lia)) as E2.
        split.
        + rewrite unscaled_spec in *. rewrite mul_spec, E.
          destruct (Prim2SF v) as [[]|[]| |]; try contradiction; exact I.
        + apply Prim2SF_inj. rewrite (mul_spec (2 * u)), (mul_spec u), E2, E.
          rewrite unscaled_spec in Fv.
          destruct (Prim2SF v) as [[]|[]| |]; try contradiction; reflexivity. }
    destruct Hfix as [F1 F2]. rewrite F2, (double_unscaled _ F1). tauto.
  - split; [|tauto].
    destruct (roomy_spec u Hru) as (s & m & e & E & Hd & He).
    destruct (unscaled_false v Hv) as (sv & mv & ev & Ev).
    destruct (roomy_spec _ Hrr) as (sr & mr & er & Er & Hdr & Her).
    pose proof (double_finite u s m e E Hd ltac:(lia)) as E2.
    pose proof (double_finite _ sr mr er Er Hdr ltac:(lia)) as Er2.
    apply Prim2SF_inj. rewrite Er2. rewrite mul_spec, E2, Ev.
    rewrite mul_spec, E, Ev in Er.
    apply SFmul_shift; assumption.
Qed.

Lemma mul_scaled_r u v :
  scalable u = true -> scales u v (v * u) = true ->
  v * (2 * u) = 2 * (v * u) /\ scalable (v * u) = true.
Proof.
  rewrite (mul_comm v (2 * u)), (mul_comm v u). apply mul_scaled.
Qed.

(** A quotient doubles with its dividend. *)
Lemma div_scaled u v :
  scalable u = true -> scales u v (u / v) = true ->
  (2 * u) / v = 2 * (u / v) /\ scalable (u / v) = true.
Proof.
  unfold scalable, scales. rewrite !orb_true_iff. intros Hu Hr.
  assert (Cases :
    (unscaled u = true \/ (roomy u = true /\ unscaled v = true)) \/
    (roomy u = true /\ unscaled v = false /\ roomy (u / v) = true)).
  { destruct (unscaled u) eqn:Eu; [tauto|]. destruct (unscaled v) eqn:Ev.
    - destruct Hu as [Hu|Hu]; [tauto|discriminate].
    - right. repeat split; try tauto. destruct Hu; [assumption|discriminate].
      destruct Hr as [[Hr|Hr]|Hr]; [assumption|discriminate|discriminate]. }
  destruct Cases as [Fix|(Hru & Hv & Hrr)].
  - assert (Hfix : unscaled (u / v) = true /\ (2 * u) / v = u / v).
    { destruct Fix as [Fu|[Ru Fv]].
      - rewrite (double_unscaled u Fu). split; [|reflexivity].
        rewrite unscaled_spec in *. rewrite div_spec.
        destruct (Prim2SF u) as [[]|[]| |]; try contradiction;
          destruct (Prim2SF v) as [[]|[]| |[]]; exact I.
      - destruct (roomy_spec u Ru) as (s & m & e & E & Hd & He).
        pose proof (double_finite u s m e E Hd ltac:(lia)) as E2.
        split.
        + rewrite unscaled_spec in *. rewrite div_spec, E.
          destruct (Prim2SF v) as [[]|[]| |]; try contradiction; exact I.
        + apply Prim2SF_inj. rewrite (div_spec (2 * u)), (div_spec u), E2, E.
          rewrite unscaled_spec in Fv.
          destruct (Prim2SF v) as [[]|[]| |]; try contradiction; reflexivity. }
    destruct Hfix as [F1 F2]. rewrite F2, (double_unscaled _ F1). tauto.
  - split; [|tauto].
    destruct (roomy_spec u Hru) as (s & m & e & E & Hd & He).
    destruct (unscaled_false v Hv) as (sv & mv & ev & Ev).
    destruct (roomy_spec _ Hrr) as (sr & mr & er & Er & Hdr & Her).
    pose proof (double_finite u s m e E Hd ltac:(lia)) as E2.
    pose proof (double_finite _ sr mr er Er Hdr ltac:(lia)) as Er2.
    apply Prim2SF_inj. rewrite Er2. rewrite div_spec, E2, Ev.
    rewrite div_spec, E, Ev in Er.
    apply SFdiv_shift; assumption.
Qed.

(** ** Doubling a sum *)

Section SumFacts.
Local Open Scope Z_scope.

Lemma shl_align_shift m e f :
  shl_align m (e + 1) (f + 1) = (fst (shl_align m e f), snd (shl_align m e f) + 1).
Proof.
  unfold shl_align. replace (f + 1 - (e + 1)) with (f - e) by lia.
  destruct (f - e); reflexivity.
Qed.

(** Rounding an integer at an exponent of the format never gives a zero. *)
Lemma binary_round_aux_not_zero s m e s0 :
  0 < m -> -1074 <= e ->
  binary_round_aux prec emax s m e loc_Exact <> S754_zero s0.
Proof.
  intros Hm He.
  destruct (binary_round_aux_shape s m e loc_Exact Hm) as (q' & Hq' & _ & Hr).
  cbv zeta in Hr. rewrite Hr. clear Hr.
  rewrite !fexp64_eq in *.
  set (d := Zdigits2 m) in *.
  pose proof (digits_bounds m Hm) as Hd. fold d in Hd.
  pose proof (Zdigits2_pos m Hm) as Hdp. fold d in Hdp.
  set (n1 := Z.max 0 (Z.max (d + e - 53) (-1074) - e)) in *.
  assert (Hn1 : 0 <= n1 <= d - 1) by (unfold n1; lia).
  pose proof (div_pow2_bounds m d n1 Hn1 Hd) as [Hq _].
  assert (Hq1 : 1 <= m / 2 ^ n1).
  { assert (0 < 2 ^ (d - n1 - 1)) by (apply Z.pow_pos_nonneg; lia). lia. }
  assert (Hq'1 : 0 < q') by (destruct Hq' as [-> | ->]; lia).
  set (d' := Zdigits2 q') in *.
  pose proof (digits_bounds q' Hq'1) as Hd'. fold d' in Hd'.
  pose proof (Zdigits2_pos q' Hq'1) as Hdp'. fold d' in Hdp'.
  set (n2 := Z.max 0 (Z.max (d' + (e + n1) - 53) (-1074) - (e + n1))) in *.
  assert (Hn2 : 0 <= n2 <= d' - 1) by (unfold n2; lia).
  pose proof (div_pow2_bounds q' d' n2 Hn2 Hd') as [Hq2 _].
  assert (Hq21 : 1 <= q' / 2 ^ n2).
  { assert (0 < 2 ^ (d' - n2 - 1)) by (apply Z.pow_pos_nonneg; lia). lia. }
  destruct (q' / 2 ^ n2) as [|p|p]; try lia.
  destruct (_ <=? _); discriminate.
Qed.

Lemma binary_round_not_zero s m e s0 :
  -1074 <= e -> binary_round prec emax s m e <> S754_zero s0.
Proof.
  intros He. unfold binary_round. fold fexp64.
  destruct (shl_align_spec m e (fexp64 (Zpos (digits2_pos m) + e))) as [Hs _].
  destruct (shl_align m e (fexp64 (Zpos (digits2_pos m) + e))) as [mz ez].
  simpl in Hs. rewrite fexp64_eq in Hs.
  apply binary_round_aux_not_zero; lia.
Qed.

(** Rounding at an exponent one higher, from any mantissa. *)
Lemma binary_round_shift s m e s' p e2 :
  -1074 <= e ->
  binary_round prec emax s m e = S754_finite s' p e2 ->
  -1072 <= e2 <= 970 ->
  binary_round prec emax s m (e + 1) = S754_finite s' p (e2 + 1).
Proof.
  intros He H He2. unfold binary_round in *. fold fexp64 in *.
  rewrite fexp64_eq in *.
  set (d := Zpos (digits2_pos m)) in *.
  destruct (Z_lt_le_dec (d + e - 53) (-1074)) as [Hc|Hc].
  - exfalso.
    rewrite (Z.max_r (d + e - 53)) in H by lia.
    destruct (shl_align_spec m e (-1074)) as [Hs Hf].
    destruct (shl_align m e (-1074)) as [mz ez]. cbn [fst snd] in Hs, Hf.
    rewrite Z.min_r in Hs, Hf by lia. subst ez.
    pose proof (binary_round_aux_sign _ _ _ _ _ _ _ H) as ->.
    assert (Hlt : Zpos mz < 2 ^ 53).
    { rewrite Hf.
      pose proof (digits2_pos_bounds m) as [_ Hu]. fold d in Hu.
      assert (Hp : 0 < 2 ^ (e - -1074)) by (apply Z.pow_pos_nonneg; lia).
      assert (Zpos m * 2 ^ (e - -1074) < 2 ^ d * 2 ^ (e - -1074))
        by (apply Z.mul_lt_mono_pos_r; lia).
      rewrite <- Z.pow_add_r in H0 by lia.
      assert (2 ^ (d + (e - -1074)) <= 2 ^ 53) by (apply Z.pow_le_mono_r; lia).
      lia. }
    pose proof (binary_round_aux_small _ (Zpos mz) _ _ _ ltac:(lia) H). lia.
  - rewrite (Z.max_l (d + e - 53)) in H by lia.
    replace (Z.max (d + (e + 1) - 53) (-1074)) with ((d + e - 53) + 1) by lia.
    rewrite shl_align_shift.
    destruct (shl_align m e (d + e - 53)) as [mz ez]. simpl fst. simpl snd.
    pose proof (binary_round_aux_sign _ _ _ _ _ _ _ H) as ->.
    apply binary_round_aux_shift; [lia|assumption|assumption].
Qed.

(** The sum of two finite numbers at exponents one higher. *)
Lemma SFadd_shift su mu eu sv mv ev :
  -1074 <= eu -> -1074 <= ev ->
  match SF64add (S754_finite su mu eu) (S754_finite sv mv ev) with
  | S754_finite s p e2 =>
      -1072 <= e2 <= 970 ->
      SF64add (S754_finite su mu (eu + 1)) (S754_finite sv mv (ev + 1))
        = S754_finite s p (e2 + 1)
  | S754_zero s =>
      SF64add (S754_finite su mu (eu + 1)) (S754_finite sv mv (ev + 1)) = S754_zero s
  | _ => True
  end.
Proof.
  intros Hu Hv. unfold SF64add, SFadd. cbv zeta.
  replace (Z.min (eu + 1) (ev + 1)) with (Z.min eu ev + 1) by lia. rewrite !shl_align_shift. simpl fst.
  set (ez := Z.min eu ev).
  assert (Hez : -1074 <= ez) by (unfold ez; lia).
  destruct (cond_Zopp su (Zpos (fst (shl_align mu eu ez))) +
            cond_Zopp sv (Zpos (fst (shl_align mv ev ez)))) as [|M|M];
    unfold binary_normalize.
  - reflexivity.
  - destruct (binary_round prec emax false M ez) as [s0|s0| |s p e2] eqn:E; try exact I.
    + exfalso. exact (binary_round_not_zero _ _ _ _ Hez E).
    + intros He2. now apply binary_round_shift.
  - destruct (binary_round prec emax true M ez) as [s0|s0| |s p e2] eqn:E; try exact I.
    + exfalso. exact (binary_round_not_zero _ _ _ _ Hez E).
    + intros He2. now apply binary_round_shift.
Qed.

End SumFacts.

(** A sum doubles with its two terms. *)
Lemma add_scaled u v :
  scalable u = true -> scalable v = true -> sums u v (u + v) = true ->
  (2 * u) + (2 * v) = 2 * (u + v) /\ scalable (u + v) = true.
Proof.
  assert (Half : forall u v, unscaled u = true -> scalable v = true ->
            2 * u + 2 * v = 2 * (u + v) /\ scalable (u + v) = true).
  { clear. intros u v Fu Sv. rewrite (double_unscaled u Fu).
    unfold scalable in Sv. rewrite orb_true_iff in Sv.
    destruct Sv as [Rv|Fv].
    - destruct (roomy_spec v Rv) as (s & m & e & E & Hd & He).
      pose proof (double_finite v s m e E Hd ltac:(lia)) as E2.
      rewrite unscaled_spec in Fu.
      destruct (Prim2SF u) as [su|su| |] eqn:Eu; try contradiction.
      + assert (Huv : u + v = v).
        { apply Prim2SF_inj. rewrite add_spec, Eu, E. reflexivity. }
        assert (Huv2 : u + 2 * v = 2 * v).
        { apply Prim2SF_inj. rewrite add_spec, Eu, E2. reflexivity. }
        rewrite Huv, Huv2. split; [reflexivity|].
        unfold scalable. now rewrite Rv.
      + assert (Huv : u + v = u).
        { apply Prim2SF_inj. rewrite add_spec, Eu, E. reflexivity. }
        assert (Huv2 : u + 2 * v = u).
        { apply Prim2SF_inj. rewrite add_spec, Eu, E2. reflexivity. }
        assert (Fu' : unscaled u = true) by (rewrite unscaled_spec, Eu; exact I).
        rewrite Huv, Huv2, (double_unscaled u Fu'). split; [reflexivity|].
        unfold scalable. now rewrite Fu', orb_true_r.
      + assert (Huv : u + v = u).
        { apply Prim2SF_inj. rewrite add_spec, Eu. reflexivity. }
        assert (Huv2 : u + 2 * v = u).
        { apply Prim2SF_inj. rewrite add_spec, Eu. reflexivity. }
        assert (Fu' : unscaled u = true) by (rewrite unscaled_spec, Eu; exact I).
        rewrite Huv, Huv2, (double_unscaled u Fu'). split; [reflexivity|].
        unfold scalable. now rewrite Fu', orb_true_r.
    - rewrite (double_unscaled v Fv).
      assert (F : unscaled (u + v) = true).
      { rewrite unscaled_spec in *. rewrite add_spec.
        destruct (Prim2SF u) as [[]|[]| |]; try contradiction;
          destruct (Prim2SF v) as [[]|[]| |]; try contradiction; exact I. }
      rewrite (double_unscaled _ F). split; [reflexivity|].
      unfold scalable. now rewrite F, orb_true_r. }
  intros Su Sv Hr.
  destruct (unscaled u) eqn:Fu; [now apply Half|].
  destruct (unscaled v) eqn:Fv.
  { rewrite (add_comm (2 * u)), (add_comm u). now apply Half. }
  unfold scalable in Su, Sv. rewrite Fu in Su. rewrite Fv in Sv.
  rewrite orb_false_r in Su, Sv.
  unfold sums in Hr. rewrite Fu, Fv, !orb_false_r in Hr.
  destruct (roomy_spec u Su) as (su & mu & eu & Eu & Hdu & Heu).
  destruct (roomy_spec v Sv) as (sv & mv & ev & Ev & Hdv & Hev).
  pose proof (double_finite u su mu eu Eu Hdu ltac:(lia)) as Eu2.
  pose proof (double_finite v sv mv ev Ev Hdv ltac:(lia)) as Ev2.
  pose proof (SFadd_shift su mu eu sv mv ev ltac:(lia) ltac:(lia)) as Sh.
  rewrite <- Eu, <- Ev, <- add_spec in Sh.
  rewrite orb_true_iff in Hr. destruct Hr as [Rr|Zr].
  - destruct (roomy_spec _ Rr) as (sr & mr & er & Er & Hdr & Her).
    pose proof (double_finite _ sr mr er Er Hdr ltac:(lia)) as Er2.
    rewrite Er in Sh. specialize (Sh Her).
    split; [|unfold scalable; now rewrite Rr].
    apply Prim2SF_inj. rewrite Er2, add_spec, Eu2, Ev2. exact Sh.
  - assert (F : unscaled (u + v) = true) by (unfold unscaled; now rewrite Zr).
    split; [|unfold scalable; now rewrite F, orb_true_r].
    rewrite (double_unscaled _ F).
    unfold strict_eq in Zr. rewrite eqb_spec in Zr.
    change (Prim2SF 0) with (S754_zero false) in Zr.
    destruct (Prim2SF (u + v)) as [s0|s0| |s0 m0 e0] eqn:Er;
      try (destruct s0; discriminate); try discriminate.
    apply Prim2SF_inj. rewrite Er, add_spec, Eu2, Ev2. exact Sh.
Qed.

(** ** The elliptic parameter and the domain error *)

Lemma agm_loop_never_throws fuel : forall a b c sum pow e,
  agm_loop fuel a b c sum pow <> Throw e.
Proof.
  induction fuel as [|fuel IH]; intros a b c sum pow e; simpl;
    destruct (Math_abs c >? tol * a); try discriminate.
  apply IH.
Qed.

Lemma ellipticKE_throws fuel m e :
  ellipticKE fuel m = Throw e <->
  ((m <? 0) || (m >=? 1) = true /\ e = domain_message).
Proof.
  unfold ellipticKE. destruct ((m <? 0) || (m >=? 1)).
  - split; [intros [= <-]; auto | intros [_ ->]; reflexivity].
  - split; [|intros [? _]; discriminate].
    destruct (agm_loop _ _ _ _ _ _) as [[a s]| |] eqn:L; try discriminate.
    now apply agm_loop_never_throws in L.
Qed.

(** The clamp of the single-coil file: [Math.min(1 - 1e-14, Math.max(0, raw))]
    passes the domain test of [ellipticKE] whatever [raw] is, [NaN] included. *)
Lemma clamp_in_domain raw :
  let kSq := Math_min (1 - 1e-14) (Math_max 0 raw) in
  (kSq <? 0) || (kSq >=? 1) = false.
Proof.
  set (c := 1 - 1e-14).
  assert (Hc1 : (c <? 1) = true) by reflexivity.
  assert (Hmax : Math_max 0 raw = nan \/
                 (PrimFloat.is_nan (Math_max 0 raw) = false /\
                  (Math_max 0 raw <? 0) = false)).
  { unfold Math_max. change (PrimFloat.is_nan 0) with false. simpl orb.
    destruct (PrimFloat.is_nan raw) eqn:Hn; [now left|right].
    destruct (0 <? raw) eqn:H0.
    - split; [assumption|]. now apply ltb_asym.
    - destruct (raw <? 0); change (PrimFloat.get_sign 0) with false; now split. }
  cbv zeta. destruct Hmax as [-> | [Hn Hlo]]; [reflexivity|].
  set (v := Math_max 0 raw) in *.
  unfold Math_min. change (PrimFloat.is_nan c) with false. rewrite Hn. simpl orb.
  destruct (c <? v) eqn:Hcv; [reflexivity|].
  assert (Hle : (v <=? c) = true) by (apply total; auto).
  assert (Hk : (v <? 0) || (v >=? 1) = false).
  { rewrite Hlo. simpl. now apply leb_below with c. }
  destruct (v <? c); [exact Hk|].
  change (PrimFloat.get_sign c) with false. exact Hk.
Qed.

Section SingleCoilDomain.
Context {host : Host}.

(** No call of the single-coil field throws. *)
Lemma single_coil_never_throws fuel x y z R I N e :
  result (SingleCoil.loopFieldMeters fuel x y z R I N) <> Throw e.
Proof.
  unfold SingleCoil.loopFieldMeters, bind, enter, ret, lift, result.
  destruct (strict_eq _ 0); [discriminate|].
  destruct (ellipticKE fuel _) as [[K E]| |] eqn:HKE; simpl; try discriminate.
  apply ellipticKE_throws in HKE. destruct HKE as [HKE _].
  now rewrite clamp_in_domain in HKE.
Qed.

End SingleCoilDomain.

Section DomainError.
Context {host : Host}.

(** C2 (the Helmholtz file departs from the claim).  The single-coil file
    clamps the elliptic parameter and never throws ([single_coil_never_throws]);
    the Helmholtz file passes the raw value.  For a field point on the wire of
    the first loop (x = -50 cm, y = 100 cm, z = 0, R = 100 cm, so rho = R and
    zax = 0) the parameter is exactly 1 and [ellipticKE] throws its domain
    error out of [helmholtzField], whatever the voltage, the resistance, the
    turn count and the fuel; the click handler then shows that message. *)
Theorem helmholtz_on_wire_throws fuel V Omega N p :
  Math_hypot2 1 0 = 1 ->
  Math_pow 2 2 = 4 ->
  rejected (-50) 100 0 100 V Omega N = false ->
  result (Helmholtz.helmholtzField fuel (-50) 100 0 100 V Omega N)
    = Throw domain_message /\
  result (Helmholtz.onClick fuel (-50) 100 0 100 V Omega N p)
    = Return {| error_text := domain_message; output_text := output_text p |}.
Proof.
  intros Hh Hp Hrej.
  assert (E : result (Helmholtz.helmholtzField fuel (-50) 100 0 100 V Omega N)
              = Throw domain_message).
  { unfold Helmholtz.helmholtzField, mapM, Helmholtz.loopField.
    change (-50 * 1e-2) with (-0.5). change (100 * 1e-2) with 1.
    change (0 * 1e-2) with 0. change (- (1) / 2) with (-0.5).
    change (-0.5 - -0.5) with 0. rewrite Hh.
    change (strict_eq 1 0) with false. cbv iota.
    change (1 + 1) with 2. rewrite Hp.
    change (4 * 1 * 1 / (4 + 0 * 0)) with 1.
    reflexivity. }
  split; [exact E|].
  unfold Helmholtz.onClick.
  unfold rejected in Hrej.
  destruct (existsb _ _); [discriminate|].
  destruct (100 <=? 0); [discriminate|].
  destruct (Omega <=? 0); [discriminate|].
  destruct (N <=? 0); [discriminate|].
  destruct (Helmholtz.helmholtzField fuel (-50) 100 0 100 V Omega N) as [t o].
  simpl in E. subst o. reflexivity.
Qed.

End DomainError.

(** ** Validation in the click handlers *)

Lemma trace_enter {A} fn args (c : traced A) :
  trace (enter fn args ;;; c) = Call fn args :: trace c.
Proof. unfold bind, enter, trace. now destruct c. Qed.

Lemma result_enter {A} fn args (c : traced A) :
  result (enter fn args ;;; c) = result c.
Proof. unfold bind, enter, result. now destruct c. Qed.

Lemma trace_try_catch {A B} (body : traced A) (k : A -> B) handler :
  trace (try_catch body k handler) = trace body.
Proof. now destruct body as [t [a| |]]. Qed.

Section Validation.
Context {host : Host}.

(** C8.  When a field did not parse to a number, or R, Omega or N is zero or
    negative, both click handlers finish with one of the four validation
    messages in the error node, leave the output node as it was, and enter
    none of [coilFieldWithGrad], [helmholtzField] or the loop-field
    functions: the trace of calls is empty. *)
Theorem validation_rejects fuel x y z R IV Omega N p :
  rejected x y z R IV Omega N = true ->
  exists msg,
    In msg validation_messages /\
    SingleCoil.onClick fuel x y z R IV Omega N p
      = ([], Return {| error_text := msg; output_text := output_text p |}) /\
    Helmholtz.onClick fuel x y z R IV Omega N p
      = ([], Return {| error_text := msg; output_text := output_text p |}).
Proof.
  unfold rejected, SingleCoil.onClick, Helmholtz.onClick, validation_messages.
  destruct (existsb _ _);
    [intros _; eexists; split; [left; reflexivity | split; reflexivity]|].
  destruct (R <=? 0);
    [intros _; eexists; split; [right; left; reflexivity | split; reflexivity]|].
  destruct (Omega <=? 0);
    [intros _; eexists; split;
       [right; right; left; reflexivity | split; reflexivity]|].
  destruct (N <=? 0);
    [intros _; eexists; split;
       [right; right; right; left; reflexivity | split; reflexivity]|].
  discriminate.
Qed.

(** The other inputs do reach the field computation. *)
Lemma accepted_runs fuel x y z R IV Omega N p :
  rejected x y z R IV Omega N = false ->
  hd_error (trace (SingleCoil.onClick fuel x y z R IV Omega N p))
    = Some (Call "coilFieldWithGrad" [x; y; z; R; IV; N]) /\
  hd_error (trace (Helmholtz.onClick fuel x y z R IV Omega N p))
    = Some (Call "helmholtzField" [x; y; z; R; IV; Omega; N]).
Proof.
  unfold rejected, SingleCoil.onClick, Helmholtz.onClick.
  destruct (existsb _ _); [discriminate|].
  destruct (R <=? 0); [discriminate|].
  destruct (Omega <=? 0); [discriminate|].
  destruct (N <=? 0); [discriminate|]. intros _.
  rewrite !trace_try_catch.
  unfold SingleCoil.coilFieldWithGrad, Helmholtz.helmholtzField.
  rewrite !trace_enter. split; reflexivity.
Qed.

End Validation.

(** ** The field on the axis *)

Section OnAxis.
Context {host : Host}.

(** C4.  When the radial distance [rho = Math.hypot(y, z)] is zero ([rho === 0],
    which holds of [+0] and [-0]), the loop field is the closed form
    [mu0*I*N*R*R / (2 * Math.pow(R*R + zax*zax, 1.5))] along x and [0] along y
    and z, with [zax = x] for the single coil, centred at the origin, and
    [zax = xp - x0] for a loop of the Helmholtz pair centred at [x0]. *)
Theorem on_axis_closed_form fuel x y z R I N x0 :
  strict_eq (Math_hypot2 y z) 0 = true ->
  result (SingleCoil.loopFieldMeters fuel x y z R I N)
    = Return (mu0 * I * N * R * R / (2 * Math_pow (R * R + x * x) 1.5), 0, 0) /\
  result (Helmholtz.loopField fuel I N x y z R x0)
    = Return (let zax := x - x0 in
              (mu0 * I * N * R * R / (2 * Math_pow (R * R + zax * zax) 1.5), 0, 0)).
Proof.
  intros Hrho.
  unfold SingleCoil.loopFieldMeters, Helmholtz.loopField.
  rewrite !result_enter, Hrho. split; reflexivity.
Qed.

End OnAxis.

(** ** Superposition of the two loops *)

Section Superposition.
Context {host : Host}.

(** C3.  [helmholtzField] ends as the evaluation of the loop field at the
    centre [-R/2] followed by the one at [+R/2] does, with the same radius,
    turn count and current [I = V / Omega]: when both return, it returns their
    componentwise sum (the same numbers: the [reduce] starts from [0], which
    can only turn a [-0] into [+0]); when one throws or does not finish, so
    does [helmholtzField].  Its calls are its own entry and then those of the
    two evaluations.  This holds for every input, so also when R > 0 and
    Omega <> 0. *)
Theorem helmholtz_superposition fuel x_cm y_cm z_cm R_cm V Omega N :
  let x := x_cm * 1e-2 in
  let y := y_cm * 1e-2 in
  let z := z_cm * 1e-2 in
  let R := R_cm * 1e-2 in
  let I := V / Omega in
  let two_loops :=
    b1 <- Helmholtz.loopField fuel I N x y z R (- R / 2) ;;
    b2 <- Helmholtz.loopField fuel I N x y z R (R / 2) ;;
    ret (idx0 b1 + idx0 b2, idx1 b1 + idx1 b2, idx2 b1 + idx2 b2) in
  outcome_rel same_vec
    (result (Helmholtz.helmholtzField fuel x_cm y_cm z_cm R_cm V Omega N))
    (result two_loops) /\
  trace (Helmholtz.helmholtzField fuel x_cm y_cm z_cm R_cm V Omega N)
    = Call "helmholtzField" [x_cm; y_cm; z_cm; R_cm; V; Omega; N] :: trace two_loops.
Proof.
  intros x y z R I two_loops. subst two_loops.
  unfold Helmholtz.helmholtzField. rewrite result_enter, trace_enter.
  fold x y z R I. unfold mapM.
  destruct (Helmholtz.loopField fuel I N x y z R (- R / 2)) as [t1 [b1| |]];
    [|split; [constructor | reflexivity]..].
  destruct (Helmholtz.loopField fuel I N x y z R (R / 2)) as [t2 [b2| |]];
    [|split; [constructor | cbn; now rewrite ?app_nil_r]..].
  split; [|cbn; now rewrite ?app_nil_r].
  cbn. constructor. unfold same_vec, Helmholtz.add_vec, idx0, idx1, idx2. cbn.
  repeat split; apply sum_from_zero.
Qed.

End Superposition.

(** ** The gradient of the field magnitude *)

Section Gradient.
Context {host : Host}.

(** Every call of the loop field is recorded once, whatever its outcome. *)
Lemma loopFieldMeters_trace fuel x y z R I N :
  trace (SingleCoil.loopFieldMeters fuel x y z R I N)
    = [Call "loopFieldMeters" [x; y; z; R; I; N]].
Proof.
  unfold SingleCoil.loopFieldMeters. rewrite trace_enter. f_equal.
  destruct (strict_eq _ 0); [reflexivity|].
  unfold bind, lift. now destruct (ellipticKE fuel _) as [[K E]| |].
Qed.

(** The step is [Math.max(1e-5, R * 1e-4)] whenever the radius is a number:
    [|| 0] only replaces a zero by a zero. *)
Lemma step_is_max R :
  Number_isNaN R = false -> SingleCoil.step R = Math_max 1e-5 (R * 1e-4).
Proof.
  intros HR. unfold Number_isNaN in HR.
  assert (Hn : PrimFloat.is_nan (R * 1e-4) = false)
    by (eapply mul_finite_not_nan; [reflexivity | exact HR]).
  unfold SingleCoil.step, or_else, truthy. rewrite Hn, orb_false_r.
  destruct (PrimFloat.is_zero (R * 1e-4)) eqn:Hz; [|reflexivity].
  simpl. symmetry. rewrite Math_max_above; [reflexivity | reflexivity |].
  apply eqb_zero_ltb; [exact Hz | reflexivity].
Qed.

(** The radius in metres is a number when the radius in centimetres is. *)
Lemma metres_not_nan R_cm :
  Number_isNaN R_cm = false -> Number_isNaN (R_cm * 1e-2) = false.
Proof. intros H. eapply mul_finite_not_nan; [reflexivity | exact H]. Qed.

(** One run of the closure [magAt]. *)
Lemma magAt_inv fuel x y z R I N dx dy dz t m :
  SingleCoil.magAt fuel x y z R I N dx dy dz = (t, Return m) ->
  exists b,
    result (SingleCoil.loopFieldMeters fuel (x + dx) (y + dy) (z + dz) R I N) = Return b /\
    m = magnitude b /\
    t = [Call "loopFieldMeters" [x + dx; y + dy; z + dz; R; I; N]].
Proof.
  unfold SingleCoil.magAt. intros H.
  pose proof (loopFieldMeters_trace fuel (x + dx) (y + dy) (z + dz) R I N) as Ht.
  destruct (SingleCoil.loopFieldMeters fuel (x + dx) (y + dy) (z + dz) R I N)
    as [t0 [[[bx by_] bz]| |]]; simpl in *; try discriminate.
  injection H as <- <-. exists (bx, by_, bz). subst t0. repeat split.
Qed.

Lemma bind_inv {A B} (c : traced A) (k : A -> traced B) t b :
  (x <- c ;; k x) = (t, Return b) ->
  exists t1 a t2, c = (t1, Return a) /\ k a = (t2, Return b) /\ t = t1 ++ t2.
Proof.
  destruct c as [t1 [a| |]]; simpl; try discriminate.
  destruct (k a) as [t2 r] eqn:E. intros [= <- ->].
  now exists t1, a, t2.
Qed.

(** What a run of [coilFieldWithGrad] that returned has done, when the radius
    is a number: the seven evaluations, the step and the three quotients. *)
Lemma returned_gradient fuel x_cm y_cm z_cm R_cm I N t r :
  let x := x_cm * 1e-2 in
  let y := y_cm * 1e-2 in
  let z := z_cm * 1e-2 in
  let R := R_cm * 1e-2 in
  let h := Math_max 1e-5 (R * 1e-4) in
  let field px py pz := SingleCoil.loopFieldMeters fuel px py pz R I N in
  let entry px py pz := Call "loopFieldMeters" [px; py; pz; R; I; N] in
  Number_isNaN R_cm = false ->
  SingleCoil.coilFieldWithGrad fuel x_cm y_cm z_cm R_cm I N = (t, Return r) ->
  exists b0 bxp bxm byp bym bzp bzm,
    result (field x y z) = Return b0 /\
    result (field (x + h) (y + 0) (z + 0)) = Return bxp /\
    result (field (x + - h) (y + 0) (z + 0)) = Return bxm /\
    result (field (x + 0) (y + h) (z + 0)) = Return byp /\
    result (field (x + 0) (y + - h) (z + 0)) = Return bym /\
    result (field (x + 0) (y + 0) (z + h)) = Return bzp /\
    result (field (x + 0) (y + 0) (z + - h)) = Return bzm /\
    SingleCoil.B r = b0 /\
    SingleCoil.Bmag r = magnitude b0 /\
    SingleCoil.grad r =
      ((magnitude bxp - magnitude bxm) / (2 * h),
       (magnitude byp - magnitude bym) / (2 * h),
       (magnitude bzp - magnitude bzm) / (2 * h)) /\
    t = [ Call "coilFieldWithGrad" [x_cm; y_cm; z_cm; R_cm; I; N];
          entry x y z;
          entry (x + h) (y + 0) (z + 0); entry (x + - h) (y + 0) (z + 0);
          entry (x + 0) (y + h) (z + 0); entry (x + 0) (y + - h) (z + 0);
          entry (x + 0) (y + 0) (z + h); entry (x + 0) (y + 0) (z + - h) ].
Proof.
  intros x y z R h field entry HR Hrun.
  assert (Hh : SingleCoil.step R = h) by (apply step_is_max, metres_not_nan, HR).
  unfold SingleCoil.coilFieldWithGrad in Hrun.
  fold x y z R in Hrun. rewrite Hh in Hrun.
  apply bind_inv in Hrun. destruct Hrun as (t0 & [] & t' & He & Hrun & ->).
  injection He as <-.
  apply bind_inv in Hrun. destruct Hrun as (tb & b0 & t1 & Hb0 & Hrun & ->).
  pose proof (loopFieldMeters_trace fuel x y z R I N) as Htb.
  rewrite Hb0 in Htb. simpl in Htb. subst tb.
  apply bind_inv in Hrun. destruct Hrun as (? & mxp & t2 & Hxp & Hrun & ->).
  apply bind_inv in Hrun. destruct Hrun as (? & mxm & t3 & Hxm & Hrun & ->).
  apply bind_inv in Hrun. destruct Hrun as (? & myp & t4 & Hyp & Hrun & ->).
  apply bind_inv in Hrun. destruct Hrun as (? & mym & t5 & Hym & Hrun & ->).
  apply bind_inv in Hrun. destruct Hrun as (? & mzp & t6 & Hzp & Hrun & ->).
  apply bind_inv in Hrun. destruct Hrun as (? & mzm & t7 & Hzm & Hrun & ->).
  injection Hrun as <- <-.
  apply magAt_inv in Hxp, Hxm, Hyp, Hym, Hzp, Hzm.
  destruct Hxp as (bxp & Hxp & -> & ->). destruct Hxm as (bxm & Hxm & -> & ->).
  destruct Hyp as (byp & Hyp & -> & ->). destruct Hym as (bym & Hym & -> & ->).
  destruct Hzp as (bzp & Hzp & -> & ->). destruct Hzm as (bzm & Hzm & -> & ->).
  exists b0, bxp, bxm, byp, bym, bzp, bzm.
  unfold field. rewrite Hb0. repeat split; assumption || reflexivity.
Qed.

End Gradient.

(** ** The centre of the Helmholtz pair *)

Section Center.
Context {host : Host}.

(** C5.  At the point (0, 0, 0) with R = 10 cm, N = 100, V = 10 and Omega = 10,
    a host whose [Math.hypot(0, 0)] is zero and whose
    [Math.pow(0.012500000000000002, 1.5)] is one of the five binary64 numbers
    nearest to the exact power makes [helmholtzField] return [bx, 0, 0] with
    [bx] within 1% of [mu0 * N * I * (4/5)^1.5 / R] for R = 0.1 m and I = 1 A,
    and within 1% of 9.0e-4. *)
Theorem helmholtz_center_field fuel :
  strict_eq (Math_hypot2 0 0) 0 = true ->
  In (Math_pow 0.012500000000000002 1.5) pow_center_candidates ->
  exists bx,
    result (Helmholtz.helmholtzField fuel 0 0 0 10 10 10 100) = Return (bx, 0, 0) /\
    within 0.01 (helmholtz_center_formula 0.1 100 1) bx = true /\
    within 0.01 9.0e-4 bx = true.
Proof.
  intros Hh Hp.
  unfold Helmholtz.helmholtzField. rewrite result_enter.
  change (0 * 1e-2) with 0. change (10 * 1e-2) with 0.1.
  change (10 / 10) with 1. change (- (0.1) / 2) with (-0.05).
  change (0.1 / 2) with 0.05.
  unfold mapM, Helmholtz.loopField.
  unfold bind at 5. unfold enter at 2. unfold bind at 2. unfold enter at 1.
  rewrite Hh.
  change (0.1 * 0.1 + (0 - -0.05) * (0 - -0.05)) with 0.012500000000000002.
  change (0.1 * 0.1 + (0 - 0.05) * (0 - 0.05)) with 0.012500000000000002.
  unfold pow_center_candidates in Hp. simpl in Hp.
  destruct Hp as [<-|[<-|[<-|[<-|[<-|[]]]]]];
    eexists; (split; [vm_compute; reflexivity | split; vm_compute; reflexivity]).
Qed.

End Center.

(** ** Mirror symmetry of the Helmholtz pair *)

Section Mirror.
Context {host : Host}.

(** The axial component of one loop only depends on the absolute value of the
    axial displacement, and so does the way the call ends. *)
Lemma loopField_axial_mirror fuel I N xp xp' yp zp a x0 x0' :
  abs (xp' - x0') = abs (xp - x0) ->
  outcome_map idx0 (result (Helmholtz.loopField fuel I N xp' yp zp a x0'))
    = outcome_map idx0 (result (Helmholtz.loopField fuel I N xp yp zp a x0)).
Proof.
  intros H. apply mul_self_abs in H.
  unfold Helmholtz.loopField. rewrite !result_enter. cbv zeta. rewrite H.
  destruct (strict_eq _ 0); [reflexivity|].
  unfold bind, lift, result.
  destruct (ellipticKE fuel _) as [[K E]| |]; reflexivity.
Qed.

Lemma outcome_map_Return {A B} (f : A -> B) (c : traced A) b :
  outcome_map f (result c) = Return b ->
  exists t a, c = (t, Return a) /\ f a = b.
Proof.
  destruct c as [t [a| |]]; simpl; try discriminate.
  intros [= <-]. now exists t, a.
Qed.

(** C10.  When [helmholtzField] returns at (x, y, z), it returns at
    (-x, y, z) as well, with the same fuel and the other arguments unchanged,
    and the two x components are the same number. *)
Theorem helmholtz_mirror_symmetry fuel x_cm y_cm z_cm R_cm V Omega N b :
  result (Helmholtz.helmholtzField fuel x_cm y_cm z_cm R_cm V Omega N) = Return b ->
  exists b',
    result (Helmholtz.helmholtzField fuel (- x_cm) y_cm z_cm R_cm V Omega N)
      = Return b' /\
    idx0 b' = idx0 b.
Proof.
  unfold Helmholtz.helmholtzField. rewrite !result_enter.
  rewrite mul_opp_l, div_opp_l.
  set (x := x_cm * 1e-2). set (y := y_cm * 1e-2). set (z := z_cm * 1e-2).
  set (R := R_cm * 1e-2). set (I := V / Omega). set (c := R / 2).
  pose proof (loopField_axial_mirror fuel I N x (- x) y z R c (- c)
                (sub_opp_opp x c)) as M1.
  assert (Hc : abs (- x - c) = abs (x - - c)).
  { rewrite <- (opp_involutive c) at 1. apply sub_opp_opp. }
  pose proof (loopField_axial_mirror fuel I N x (- x) y z R (- c) c Hc) as M2.
  unfold mapM.
  destruct (Helmholtz.loopField fuel I N x y z R (- c)) as [t1 [b1| |]];
    try discriminate.
  destruct (Helmholtz.loopField fuel I N x y z R c) as [t2 [b2| |]];
    try discriminate.
  simpl in M1, M2. apply outcome_map_Return in M1, M2.
  destruct M1 as (t1' & b1' & -> & E1), M2 as (t2' & b2' & -> & E2).
  cbn. intros [= <-]. eexists. split; [reflexivity|].
  unfold Helmholtz.add_vec, idx0 in *. cbn.
  rewrite E1, E2. apply sum_from_zero_swap.
Qed.

End Mirror.

(** ** Termination of the loop of [ellipticKE] *)

Section Termination.
Local Open Scope R_scope.

(** C9.  For every binary64 number [m] with [0 <= m] and [m < 1],
    [ellipticKE(m)] returns: the [while] loop ends after at most 59 runs of
    its body, so any fuel of 60 or more is enough and the call returns a pair
    [(K, E)].  The relative gap [|a - b| / (a + b)] is at most [1 - 2^-28] at
    the start and goes from [t] to at most [t^2 + 2^-49] in one run, rounding
    included; the test fails once it is below [2^-47]. *)
Theorem ellipticKE_terminates m fuel :
  (0 <=? m)%float = true -> (m <? 1)%float = true -> (60 <= fuel)%nat ->
  exists K E, ellipticKE fuel m = Return (K, E).
Proof.
  intros H0 H1 Hf. unfold ellipticKE.
  assert (Hdom : ((m <? 0) || (m >=? 1))%float = false).
  { rewrite (leb_not_ltb _ _ H0). simpl.
    destruct (1 <=? m)%float eqn:E; [|reflexivity].
    pose proof (leb_ltb_trans _ _ _ E H1) as C.
    rewrite ltb_spec in C. discriminate. }
  rewrite Hdom.
  assert (Hloop : exists r, agm_loop fuel 1 (Math_sqrt (1 - m)) (1 - Math_sqrt (1 - m)) 0 1
                            = Return r).
  { rewrite leb_spec in H0. rewrite ltb_spec in H1.
    change (Prim2SF 0) with (S754_zero false) in H0.
    change (Prim2SF 1) with (S754_finite false 4503599627370496 (-52)) in H1.
    destruct (Prim2SF m) as [s|s| |s mm em] eqn:Em.
    - (* m is a zero: b = 1 and the loop is not entered *)
      assert (E1 : (1 - m)%float = 1%float).
      { apply Prim2SF_inj. rewrite sub_spec, Em. now destruct s. }
      rewrite E1. change (Math_sqrt 1) with 1%float. change (1 - 1)%float with 0%float.
      destruct fuel; simpl; eauto.
    - destruct s; discriminate.
    - discriminate.
    - destruct s; [discriminate|].
      assert (Hlt : (m <? 1)%float = true).
      { rewrite ltb_spec, Em. exact H1. }
      destruct (first_b m mm em Em Hlt) as (B0 & HB0 & HBr).
      apply (agm_loop_returns 59 (1 - / 268435456) _ _ _ _ _ 1 B0).
      + exact one_posfloat.
      + exact HB0.
      + change (Z.of_nat 59 - 100)%Z with (-41)%Z. change (100 - Z.of_nat 59)%Z with 41%Z.
        pose proof (bpow_pos (-41)).
        assert (bpow (-41) <= bpow 0) by (apply bpow_le; lia).
        assert (bpow 0 <= bpow 41) by (apply bpow_le; lia).
        rewrite bpow_0 in *. lra.
      + change (Z.of_nat 59 - 100)%Z with (-41)%Z. change (100 - Z.of_nat 59)%Z with 41%Z.
        apply (range_widen (-28) 2); auto; lia.
      + lra.
      + now apply first_gap.
      + exact reach_initial.
      + lia. }
  destruct Hloop as ([a s] & ->). eauto.
Qed.

End Termination.

(** ** Accuracy of [ellipticKE] *)

Section Accuracy.
Local Open Scope R_scope.

Lemma sin_sq_le_1 theta : 0 <= sin theta * sin theta <= 1.
Proof.
  pose proof (sin2_cos2 theta) as H. unfold Rsqr in H.
  pose proof (Rle_0_sqr (sin theta)) as Hs. pose proof (Rle_0_sqr (cos theta)) as Hc.
  unfold Rsqr in Hs, Hc. lra.
Qed.

Lemma E_integrand_bounds m theta : 0 <= m < 1 -> 0 <= E_integrand m theta <= 1.
Proof.
  intros [M0 M1]. pose proof (sin_sq_le_1 theta) as [S0 S1]. unfold E_integrand.
  assert (P : 0 <= m * (sin theta * sin theta)) by now apply Rmult_le_pos.
  split; [apply sqrt_pos|].
  rewrite <- sqrt_1 at 2. apply sqrt_le_1_alt. lra.
Qed.

Lemma E_integrand_continuous m theta :
  0 <= m < 1 -> continuity_pt (E_integrand m) theta.
Proof.
  intros [M0 M1].
  change (E_integrand m) with (comp sqrt (fun t => 1 - m * (sin t * sin t))).
  apply continuity_pt_comp.
  - apply derivable_continuous_pt. reg.
  - apply continuity_pt_sqrt. pose proof (sin_sq_le_1 theta) as [S0 S1].
    assert (m * (sin theta * sin theta) <= 1 * 1) by (apply Rmult_le_compat; lra). lra.
Qed.

Lemma PI2_pos : 0 <= PI / 2.
Proof. pose proof PI2_RGT_0. lra. Qed.

Lemma complete_E_exists m : 0 <= m < 1 -> exists E, complete_E m E.
Proof.
  intros Hm.
  assert (pr : Riemann_integrable (E_integrand m) 0 (PI / 2)).
  { apply continuity_implies_RiemannInt; [apply PI2_pos|].
    intros x _. now apply E_integrand_continuous. }
  exists (RiemannInt pr). now exists pr.
Qed.

Lemma complete_E_bounds m E : 0 <= m < 1 -> complete_E m E -> 0 <= E <= PI / 2.
Proof.
  intros Hm [pr <-].
  assert (p0 : Riemann_integrable (fct_cte 0) 0 (PI / 2)) by apply RiemannInt_P14.
  assert (p1 : Riemann_integrable (fct_cte 1) 0 (PI / 2)) by apply RiemannInt_P14.
  pose proof (RiemannInt_P15 p0) as I0. pose proof (RiemannInt_P15 p1) as I1.
  split.
  - apply Rle_trans with (RiemannInt p0); [rewrite I0; lra|].
    apply RiemannInt_P19; [apply PI2_pos|].
    intros x _. unfold fct_cte. now apply E_integrand_bounds.
  - apply Rle_trans with (RiemannInt p1); [|rewrite I1; lra].
    apply RiemannInt_P19; [apply PI2_pos|].
    intros x _. unfold fct_cte. now apply E_integrand_bounds.
Qed.

Lemma F2R_finite x s m e :
  Prim2SF x = S754_finite s m e ->
  F2R x = (if s then -1 else 1) * IZR (Zpos m) * bpow e.
Proof. intros H. unfold F2R. now rewrite H. Qed.

(** C1 (the code departs from the claim).  [ellipticKE(0.9)] returns a pair
    [(K, E)] whose [E] does not agree to 10 significant digits with the
    complete elliptic integral of the second kind of parameter 0.9: that
    integral is at most [PI / 2], since its integrand is at most 1, and the
    [E] returned is above 2.26.  The sum of the loop starts at the term of
    [c1]: the term [m / 2] of [c0] is left out, and [E] is too large by
    [K * m / 2]. *)
Theorem elliptic_E_not_accurate :
  exists K E,
    ellipticKE 60 0.9 = Return (K, E) /\
    (exists Etrue, complete_E (F2R 0.9) Etrue) /\
    forall Etrue, complete_E (F2R 0.9) Etrue -> ~ agrees_to 10 (F2R E) Etrue.
Proof.
  eexists. eexists. split; [vm_compute; reflexivity|].
  assert (E53 : bpow (-53) = / 9007199254740992).
  { change (-53)%Z with (- (53))%Z. rewrite bpow_opp, bpow_IZR by lia. reflexivity. }
  assert (E51 : bpow (-51) = / 2251799813685248).
  { change (-51)%Z with (- (51))%Z. rewrite bpow_opp, bpow_IZR by lia. reflexivity. }
  assert (Hm : 0 <= F2R 0.9 < 1).
  { rewrite (F2R_finite 0.9 false 8106479329266893 (-53)) by reflexivity.
    rewrite E53. lra. }
  split; [now apply complete_E_exists|].
  intros Etrue HE Hagree.
  pose proof (complete_E_bounds _ _ Hm HE) as [E0 E1].
  pose proof PI_4 as P4.
  unfold agrees_to in Hagree.
  match type of Hagree with context [F2R ?e] =>
    rewrite (F2R_finite e false 5100137840492572 (-51)) in Hagree by reflexivity end.
  rewrite E51 in Hagree.
  rewrite (Rabs_pos_eq Etrue) in Hagree by assumption.
  rewrite Rabs_pos_eq in Hagree by lra.
  simpl in Hagree. lra.
Qed.

End Accuracy.
(** ** More facts about binary64 numbers *)

(** *** Opposites *)

Lemma mul_opp_r x y : x * (- y) = - (x * y).
Proof. now rewrite (mul_comm x (- y)), mul_opp_l, (mul_comm y x). Qed.

Lemma abs_opp x : abs (- x) = abs x.
Proof.
  apply Prim2SF_inj. rewrite !abs_spec, opp_spec. now destruct (Prim2SF x).
Qed.

(** *** The same number, up to the sign of a zero *)

Lemma same_number_refl x : same_number x x.
Proof. now left. Qed.

Lemma same_zero_negzero : same_number 0 (- 0).
Proof. right. reflexivity. Qed.

(** Two numbers that are the same are equal, or they are two zeros. *)
Lemma same_number_cases a b :
  same_number a b ->
  a = b \/ exists s s', Prim2SF a = S754_zero s /\ Prim2SF b = S754_zero s'.
Proof.
  intros [H|H]; [now left|]. unfold strict_eq in H. rewrite eqb_spec in H.
  destruct (Prim2SF a) as [sa|sa| |sa ma ea] eqn:Ea,
           (Prim2SF b) as [sb|sb| |sb mb eb] eqn:Eb;
    try (destruct sa; discriminate); try (destruct sb; discriminate);
    try discriminate.
  - right. eauto.
  - left. apply Prim2SF_inj. rewrite Ea, Eb. destruct sa, sb; try discriminate; reflexivity.
  - left. apply Prim2SF_inj. rewrite Ea, Eb.
    unfold SFeqb, SFcompare in H.
    destruct sa, sb; try discriminate;
      destruct (Z.compare_spec ea eb); try discriminate; subst;
      change (Pos.compare_cont Eq ma mb) with (Pos.compare ma mb) in H;
      destruct (Pos.compare_spec ma mb); try discriminate; subst; reflexivity.
Qed.

Lemma zeros_same a b s s' :
  Prim2SF a = S754_zero s -> Prim2SF b = S754_zero s' -> same_number a b.
Proof.
  intros Ha Hb. right. unfold strict_eq. rewrite eqb_spec, Ha, Hb. reflexivity.
Qed.

Lemma same_number_of_spec a b :
  (Prim2SF a = Prim2SF b \/
   exists s s', Prim2SF a = S754_zero s /\ Prim2SF b = S754_zero s') ->
  same_number a b.
Proof.
  intros [H|(s & s' & Ha & Hb)]; [left; now apply Prim2SF_inj | eapply zeros_same; eauto].
Qed.

Lemma same_number_sym a b : same_number a b -> same_number b a.
Proof.
  intros H. destruct (same_number_cases a b H) as [->|(s & s' & Ha & Hb)];
    [now left | eapply zeros_same; eauto].
Qed.

Lemma same_number_trans a b c : same_number a b -> same_number b c -> same_number a c.
Proof.
  intros H1 H2.
  destruct (same_number_cases a b H1) as [->|(s & s' & Ha & Hb)]; [assumption|].
  destruct (same_number_cases b c H2) as [<-|(t & t' & Hb' & Hc)]; [assumption|].
  eapply zeros_same; eauto.
Qed.

Lemma same_number_opp a b : same_number a b -> same_number (- a) (- b).
Proof.
  intros H. destruct (same_number_cases a b H) as [->|(s & s' & Ha & Hb)]; [now left|].
  apply (zeros_same _ _ (negb s) (negb s')); rewrite opp_spec; [rewrite Ha|rewrite Hb];
    reflexivity.
Qed.

Lemma same_number_mul_l a b y : same_number a b -> same_number (a * y) (b * y).
Proof.
  intros H. destruct (same_number_cases a b H) as [->|(s & s' & Ha & Hb)]; [now left|].
  apply same_number_of_spec. rewrite !mul_spec, Ha, Hb.
  destruct (Prim2SF y) as [sy|sy| |sy my ey]; simpl; eauto.
Qed.

Lemma same_number_mul_r a b y : same_number a b -> same_number (y * a) (y * b).
Proof. rewrite (mul_comm y a), (mul_comm y b). apply same_number_mul_l. Qed.

Lemma same_number_div_l a b y : same_number a b -> same_number (a / y) (b / y).
Proof.
  intros H. destruct (same_number_cases a b H) as [->|(s & s' & Ha & Hb)]; [now left|].
  apply same_number_of_spec. rewrite !div_spec, Ha, Hb.
  destruct (Prim2SF y) as [sy|sy| |sy my ey]; simpl; eauto.
Qed.

Lemma same_number_add a a' b b' :
  same_number a a' -> same_number b b' -> same_number (a + b) (a' + b').
Proof.
  intros H1 H2.
  destruct (same_number_cases a a' H1) as [->|(s & s' & Ha & Ha')];
    destruct (same_number_cases b b' H2) as [->|(t & t' & Hb & Hb')].
  - now left.
  - apply same_number_of_spec. rewrite !add_spec, Hb, Hb'.
    destruct (Prim2SF a') as [[]|[]| |[] ma ea]; destruct t, t'; simpl; eauto.
  - apply same_number_of_spec. rewrite !add_spec, Ha, Ha'.
    destruct (Prim2SF b') as [[]|[]| |[] mb eb]; destruct s, s'; simpl; eauto.
  - apply same_number_of_spec. rewrite !add_spec, Ha, Ha', Hb, Hb'.
    destruct s, s', t, t'; simpl; eauto.
Qed.

Lemma binary_normalize_opp_sign m e :
  binary_normalize prec emax (- m) e false
    = SFopp (binary_normalize prec emax m e false) \/ m = 0%Z.
Proof.
  destruct m as [|p|p]; [now right|left..]; simpl; unfold binary_round;
    destruct (shl_align p e _) as [mz ez].
  - change true with (negb false). now rewrite binary_round_aux_opp.
  - change true with (negb false). rewrite binary_round_aux_opp.
    now destruct (binary_round_aux prec emax false (Z.pos mz) ez loc_Exact);
      simpl; rewrite ?negb_involutive.
Qed.

Lemma SFsub_opp_both X Y :
  SF64sub (SFopp X) (SFopp Y) = SFopp (SF64sub X Y) \/
  exists s s', SF64sub (SFopp X) (SFopp Y) = S754_zero s /\
               SFopp (SF64sub X Y) = S754_zero s'.
Proof.
  destruct X as [[]|[]| |sx mx ex], Y as [[]|[]| |sy my ey]; simpl;
    try (now left); try (right; eexists; eexists; split; reflexivity);
    try (left; now rewrite negb_involutive).
  rewrite !cond_Zopp_negb.
  match goal with
  | |- context [(- ?a - - ?b)%Z] => replace (- a - - b)%Z with (- (a - b))%Z by lia
  end.
  match goal with
  | |- context [binary_normalize _ _ (- ?m) ?e false] =>
      destruct (binary_normalize_opp_sign m e) as [H|H]; [now left|right];
      rewrite H; simpl; eexists; eexists; split; reflexivity
  end.
Qed.

Lemma SFadd_opp_both X Y :
  SF64add (SFopp X) (SFopp Y) = SFopp (SF64add X Y) \/
  exists s s', SF64add (SFopp X) (SFopp Y) = S754_zero s /\
               SFopp (SF64add X Y) = S754_zero s'.
Proof.
  destruct X as [[]|[]| |sx mx ex], Y as [[]|[]| |sy my ey]; simpl;
    try (now left); try (right; eexists; eexists; split; reflexivity);
    try (left; now rewrite negb_involutive).
  rewrite !cond_Zopp_negb.
  match goal with
  | |- context [(- ?a + - ?b)%Z] => replace (- a + - b)%Z with (- (a + b))%Z by lia
  end.
  match goal with
  | |- context [binary_normalize _ _ (- ?m) ?e false] =>
      destruct (binary_normalize_opp_sign m e) as [H|H]; [now left|right];
      rewrite H; simpl; eexists; eexists; split; reflexivity
  end.
Qed.

Lemma sub_opp_both x y : same_number (- x - - y) (- (x - y)).
Proof.
  apply same_number_of_spec. rewrite !opp_spec, !sub_spec, !opp_spec.
  apply SFsub_opp_both.
Qed.

Lemma add_opp_both x y : same_number (- x + - y) (- (x + y)).
Proof.
  apply same_number_of_spec. rewrite !opp_spec, !add_spec, !opp_spec.
  apply SFadd_opp_both.
Qed.

(** A zero minus [-c] and minus [c]. *)
Lemma zero_minus x c s :
  Prim2SF x = S754_zero s -> same_number (x - - c) (- (x - c)).
Proof.
  intros Hx. apply same_number_of_spec. rewrite opp_spec, !sub_spec, opp_spec, Hx.
  destruct (Prim2SF c) as [[]|[]| |sc mc ec]; destruct s; simpl;
    try (now left); try (right; eexists; eexists; split; reflexivity);
    left; now rewrite ?negb_involutive.
Qed.

Lemma square_same u v : same_number u (- v) -> u * u = v * v.
Proof.
  intros H. destruct (same_number_cases _ _ H) as [->|(s & s' & Hu & Hv)].
  - apply mul_self_abs, abs_opp.
  - apply Prim2SF_inj. rewrite !mul_spec, Hu. rewrite opp_spec in Hv.
    destruct (Prim2SF v) as [sv|sv| |sv mv ev]; try discriminate.
    simpl. now destruct s, sv.
Qed.

(** What is left of [0 + (-q) + q]: a zero when [q] is finite, [NaN] when it
    is an infinity or [NaN]. *)
Lemma cancel_sum p q :
  same_number p (- q) ->
  if isFinite q then strict_eq (0 + p + q) 0 = true
  else Number_isNaN (0 + p + q) = true.
Proof.
  intros H.
  unfold isFinite, PrimFloat.is_finite, PrimFloat.is_infinity, strict_eq, Number_isNaN,
    PrimFloat.is_nan.
  rewrite !eqb_spec, abs_spec, !add_spec. change (Prim2SF 0) with (S754_zero false).
  change (Prim2SF infinity) with (S754_infinity false).
  destruct (same_number_cases _ _ H) as [->|(s & s' & Hp & Hq)].
  - rewrite opp_spec.
    destruct (Prim2SF q) as [[]|[]| |sq mq eq]; try reflexivity.
    assert (Hf : negb (negb (SFeqb (S754_finite sq mq eq) (S754_finite sq mq eq))
                       || SFeqb (SFabs (S754_finite sq mq eq)) (S754_infinity false))
                 = true).
    { unfold SFeqb, SFcompare. rewrite Z.compare_refl.
      change (Pos.compare_cont Eq mq mq) with (Pos.compare mq mq).
      rewrite Pos.compare_refl. now destruct sq. }
    rewrite Hf.
    simpl SFopp. unfold SF64add at 2. unfold SFadd at 1.
    unfold SF64add, SFadd. cbv zeta. rewrite cond_Zopp_negb.
    rewrite Z.add_opp_diag_l. reflexivity.
  - rewrite Hp. rewrite opp_spec in Hq.
    destruct (Prim2SF q) as [sq|sq| |sq mq eq]; try discriminate.
    now destruct s, sq.
Qed.

(** *** Order *)

Lemma SF_total_leb x y :
  x <> S754_nan -> y <> S754_nan -> SFleb x y = false -> SFltb y x = true.
Proof. sf_order. Qed.

Lemma ltb_not_nan_l x y : (x <? y) = true -> PrimFloat.is_nan x = false.
Proof.
  rewrite ltb_spec, not_nan_spec. intros H E. rewrite E in H. discriminate.
Qed.

Lemma ltb_not_nan_r x y : (x <? y) = true -> PrimFloat.is_nan y = false.
Proof.
  rewrite ltb_spec, not_nan_spec. intros H E. rewrite E in H.
  destruct (Prim2SF x) as [[]|[]| |[] ? ?]; discriminate.
Qed.

Lemma ltb_not_zero x : (1e-5 <? x) = true -> PrimFloat.is_zero x = false.
Proof.
  unfold PrimFloat.is_zero. rewrite ltb_spec, eqb_spec.
  change (Prim2SF 1e-5) with (S754_finite false 5902958103587057 (-69)).
  change (Prim2SF zero) with (S754_zero false).
  destruct (Prim2SF x) as [[]|[]| |[] ? ?]; try discriminate; reflexivity.
Qed.

(** *** Zeros *)

Lemma zero_times x c :
  strict_eq x 0 = true -> PrimFloat.is_finite c = true ->
  exists s, Prim2SF (x * c) = S754_zero s.
Proof.
  unfold strict_eq, PrimFloat.is_finite, PrimFloat.is_nan, PrimFloat.is_infinity.
  rewrite !eqb_spec, abs_spec, mul_spec.
  change (Prim2SF 0) with (S754_zero false).
  change (Prim2SF infinity) with (S754_infinity false).
  destruct (Prim2SF x) as [sx|[]| |[] mx ex]; try discriminate.
  intros _. destruct (Prim2SF c) as [sc|[]| |sc mc ec]; try discriminate;
    intros _; eexists; reflexivity.
Qed.




(** *** Numbers that are at least [1e-5] *)

Section Top.
Local Open Scope Z_scope.

(** Twice a normal number of the top binade overflows. *)
Lemma SFdouble_top s m :
  Zpos (digits2_pos m) = 53 ->
  SF64mul SFtwo (S754_finite s m 971) = S754_infinity s.
Proof.
  intros Hd. unfold SF64mul, SFmul, SFtwo. simpl xorb.
  unfold binary_round_aux, shr_fexp. fold fexp64.
  assert (Hdig : Zdigits2 (Zpos (4503599627370496 * m)) = 105).
  { rewrite Pos2Z.inj_mul, Z.mul_comm.
    change (Zpos 4503599627370496) with (2 ^ 52).
    rewrite digits_shift by lia. lia. }
  rewrite Hdig.
  change (fexp64 (105 + (-51 + 971)) - (-51 + 971)) with 52.
  change (shr (shr_record_of_loc (Zpos (4503599627370496 * m)) loc_Exact) (-51 + 971) 52)
    with ({| shr_m := Zpos m; shr_r := false; shr_s := false |}, 972).
  cbv iota beta.
  change (round_nearest_even _ _) with (Zpos m).
  change (Zdigits2 (Zpos m)) with (Zpos (digits2_pos m)).
  rewrite Hd.
  change (fexp64 (53 + 972) - 972) with 0.
  change (shr (shr_record_of_loc (Zpos m) loc_Exact) 972 0)
    with ({| shr_m := Zpos m; shr_r := false; shr_s := false |}, 972).
  reflexivity.
Qed.

End Top.

(** A number that is at least [1e-5] is [+Infinity] or a positive normal
    number. *)
Lemma at_least_step_shape h :
  (1e-5 <=? h) = true ->
  Prim2SF h = S754_infinity false \/
  exists m e, Prim2SF h = S754_finite false m e /\
              (Zpos (digits2_pos m) = 53 /\ -69 <= e <= 971)%Z.
Proof.
  rewrite leb_spec.
  change (Prim2SF 1e-5) with (S754_finite false 5902958103587057 (-69)).
  intros H. destruct (Prim2SF h) as [s|s| |s m e] eqn:E; try discriminate.
  - destruct s; [discriminate|now left].
  - destruct s; [discriminate|]. right. exists m, e. split; [reflexivity|].
    apply SFleb_finite in H.
    destruct (Prim2SF_finite_valid h false m e E) as (Hd & He & Hc).
    clear - H Hd He Hc. lia.
Qed.

Lemma double_at_least_step h :
  (1e-5 <=? h) = true ->
  Prim2SF (2 * h) = S754_infinity false \/
  exists m e, Prim2SF (2 * h) = S754_finite false m e.
Proof.
  intros H. rewrite mul_spec. change (Prim2SF 2) with SFtwo.
  destruct (at_least_step_shape h H) as [->|(m & e & -> & Hd & He)]; [now left|].
  destruct (Z.eq_dec e 971) as [->|Hne].
  - left. now apply SFdouble_top.
  - right. exists m, (e + 1)%Z. apply SFdouble_finite; [assumption|lia].
Qed.

(** *** Quotients *)

Section Quotient.
Local Open Scope Z_scope.

(** The quotient of two positive normal numbers whose exponents are not far
    apart is a positive finite number. *)
Lemma SFdiv_positive m1 e1 m2 e2 :
  Zpos (digits2_pos m1) = 53 -> Zpos (digits2_pos m2) = 53 ->
  -900 <= e1 - e2 <= 900 ->
  exists p e, SF64div (S754_finite false m1 e1) (S754_finite false m2 e2)
              = S754_finite false p e.
Proof.
  intros H1 H2 He. unfold SF64div, SFdiv, SFdiv_core_binary. fold fexp64.
  cbv zeta. simpl Zdigits2. rewrite H1, H2, fexp64_eq.
  replace (Z.min (Z.max (53 + e1 - (53 + e2) - 53) (-1074)) (e1 - e2))
    with (e1 - e2 - 53) by lia.
  replace (e1 - e2 - (e1 - e2 - 53)) with 53 by lia.
  cbv iota. rewrite Z.shiftl_mul_pow2 by lia.
  pose proof (digits2_pos_bounds m1) as [A1 A2]. rewrite H1 in A1, A2.
  pose proof (digits2_pos_bounds m2) as [B1 B2]. rewrite H2 in B1, B2.
  change (2 ^ (53 - 1)) with 4503599627370496 in A1, B1.
  change (2 ^ 53) with 9007199254740992 in *.
  set (m' := Zpos m1 * 9007199254740992).
  destruct (Z.div_eucl m' (Zpos m2)) as [q r] eqn:Hd.
  assert (Hq : q = m' / Zpos m2) by (unfold Z.div; now rewrite Hd).
  assert (Hq1 : 2 ^ 52 <= q).
  { rewrite Hq. apply Z.div_le_lower_bound; [lia|].
    change (2 ^ 52) with 4503599627370496. unfold m'. nia. }
  assert (Hq2 : q < 2 ^ 54).
  { rewrite Hq. apply Z.div_lt_upper_bound; [lia|].
    change (2 ^ 54) with 18014398509481984. unfold m'. nia. }
  assert (Hdq : 53 <= Zdigits2 q <= 54).
  { split.
    - destruct (Z_lt_le_dec q (2 ^ 53)) as [L|G].
      + rewrite (digits_unique q 53); [lia|split; [exact Hq1|exact L]|lia].
      + rewrite (digits_unique q 54); [lia|split; [exact G|exact Hq2]|lia].
    - apply digits_le; lia. }
  set (l := new_location (Zpos m2) r).
  set (x := match l with loc_Exact => IZR q | _ => (IZR q + / 2)%R end).
  assert (Hx : (IZR q <= x < IZR q + 1)%R) by (unfold x; destruct l; lra).
  assert (Hl : l = loc_Exact -> x = IZR q) by (unfold x; now intros ->).
  change (2 ^ 52) with 4503599627370496 in Hq1.
  assert (G1 : 0 < q) by lia.
  assert (G2 : l = loc_Exact \/ 53 <= Zdigits2 q) by (right; lia).
  assert (G3 : -1074 <= Zdigits2 q + (e1 - e2 - 53) - 53) by lia.
  assert (G4 : Zdigits2 q + (e1 - e2 - 53) <= 1023) by lia.
  assert (G5 : e1 - e2 - 53 <= 970) by lia.
  destruct (binary_round_aux_error false q (e1 - e2 - 53) l x G1 Hx Hl G2 G3 G4 G5)
    as (p & e & Hr & _).
  simpl xorb. exists p, e. exact Hr.
Qed.

End Quotient.

(** ** Reversals and reflections of the loop field *)

Section Reflections.
Context {host : Host}.

(** X1.  Reversing the current reverses the field.  For every field point,
    geometry, turn count, fuel and host, the loop-field functions of both
    files end for the current [-I] as they do for [I] (a thrown error stays
    the same error), and when they return, each component for [-I] is the
    opposite of the one for [I]; on the axis the two components written as
    [0] stay [0], the same number as [-0].  No range condition is needed:
    changing a sign is exact. *)
Theorem current_reversal_reverses_field fuel x y z R I N x0 :
  outcome_rel (fun b b' => same_vec b' (flip_vec true true true b))
    (result (SingleCoil.loopFieldMeters fuel x y z R I N))
    (result (SingleCoil.loopFieldMeters fuel x y z R (- I) N)) /\
  outcome_rel (fun b b' => same_vec b' (flip_vec true true true b))
    (result (Helmholtz.loopField fuel I N x y z R x0))
    (result (Helmholtz.loopField fuel (- I) N x y z R x0)).
Proof.
  unfold SingleCoil.loopFieldMeters, Helmholtz.loopField.
  rewrite !result_enter. cbv zeta.
  rewrite !(mul_opp_r mu0 I), !mul_opp_l, !div_opp_l, !mul_opp_l.
  split.
  - destruct (strict_eq _ 0).
    + constructor. repeat split; try apply same_number_refl; apply same_zero_negzero.
    + unfold bind, lift, ret, result.
      destruct (ellipticKE fuel _) as [[K E]| |]; constructor.
      rewrite ?mul_opp_l, ?div_opp_l, ?mul_opp_l.
      repeat split; apply same_number_refl.
  - destruct (strict_eq _ 0).
    + constructor. repeat split; try apply same_number_refl; apply same_zero_negzero.
    + unfold bind, lift, ret, result.
      destruct (ellipticKE fuel _) as [[K E]| |]; constructor.
      rewrite ?mul_opp_l, ?div_opp_l, ?mul_opp_l.
      repeat split; apply same_number_refl.
Qed.

(** X2.  The field of the single coil is symmetric about the plane of the
    coil: [loopFieldMeters] ends at (-x, y, z) as it does at (x, y, z), and
    when it returns, the axial component is the same number and the two
    transverse components are the opposite numbers. *)
Theorem single_coil_mirror fuel x y z R I N :
  outcome_rel (fun b b' => same_vec b' (flip_vec false true true b))
    (result (SingleCoil.loopFieldMeters fuel x y z R I N))
    (result (SingleCoil.loopFieldMeters fuel (- x) y z R I N)).
Proof.
  unfold SingleCoil.loopFieldMeters.
  rewrite !result_enter. cbv zeta.
  rewrite (mul_self_abs (- x) x (abs_opp x)).
  destruct (strict_eq _ 0).
  - constructor. repeat split; try apply same_number_refl; apply same_zero_negzero.
  - unfold bind, lift, ret, result.
    destruct (ellipticKE fuel _) as [[K E]| |]; constructor.
    rewrite ?div_opp_l, ?mul_opp_r, ?mul_opp_l.
    repeat split; apply same_number_refl.
Qed.


(** X3.  Reflecting the field point in a plane through the axis.  When
    [Math.hypot] gives the radial distance of (y, z) also for (-y, z) and for
    (y, -z), the loop-field functions of both files end at the reflected
    point as at the point itself, and when they return, only the component
    along the reflected coordinate changes, to its opposite. *)
Theorem transverse_reflection fuel x y z R I N x0 :
  Math_hypot2 (- y) z = Math_hypot2 y z ->
  Math_hypot2 y (- z) = Math_hypot2 y z ->
  (outcome_rel (fun b b' => same_vec b' (flip_vec false true false b))
     (result (SingleCoil.loopFieldMeters fuel x y z R I N))
     (result (SingleCoil.loopFieldMeters fuel x (- y) z R I N)) /\
   outcome_rel (fun b b' => same_vec b' (flip_vec false false true b))
     (result (SingleCoil.loopFieldMeters fuel x y z R I N))
     (result (SingleCoil.loopFieldMeters fuel x y (- z) R I N))) /\
  (outcome_rel (fun b b' => same_vec b' (flip_vec false true false b))
     (result (Helmholtz.loopField fuel I N x y z R x0))
     (result (Helmholtz.loopField fuel I N x (- y) z R x0)) /\
   outcome_rel (fun b b' => same_vec b' (flip_vec false false true b))
     (result (Helmholtz.loopField fuel I N x y z R x0))
     (result (Helmholtz.loopField fuel I N x y (- z) R x0))).
Proof.
  intros Hy Hz.
  unfold SingleCoil.loopFieldMeters, Helmholtz.loopField.
  rewrite !result_enter. cbv zeta. rewrite Hy, Hz.
  repeat split;
    (destruct (strict_eq _ 0);
     [constructor; repeat split; try apply same_number_refl; apply same_zero_negzero
     |unfold bind, lift, ret, result;
      destruct (ellipticKE fuel _) as [[K E]| |]; constructor;
      rewrite ?div_opp_l, ?mul_opp_r;
      repeat split; apply same_number_refl]).
Qed.

(** X4.  Exchanging the two transverse coordinates.  When [Math.hypot] gives
    the same radial distance for (z, y) as for (y, z), the loop-field
    functions of both files end at (x, z, y) as at (x, y, z), and when they
    return, the second and third components are exchanged, number for
    number. *)
Theorem transverse_exchange fuel x y z R I N x0 :
  Math_hypot2 z y = Math_hypot2 y z ->
  result (SingleCoil.loopFieldMeters fuel x z y R I N)
    = outcome_map swap_yz (result (SingleCoil.loopFieldMeters fuel x y z R I N)) /\
  result (Helmholtz.loopField fuel I N x z y R x0)
    = outcome_map swap_yz (result (Helmholtz.loopField fuel I N x y z R x0)).
Proof.
  intros H.
  unfold SingleCoil.loopFieldMeters, Helmholtz.loopField.
  rewrite !result_enter. cbv zeta. rewrite H.
  split;
    (destruct (strict_eq _ 0); [reflexivity|];
     unfold bind, lift, ret, result;
     destruct (ellipticKE fuel _) as [[K E]| |]; reflexivity).
Qed.

End Reflections.

(** ** How the calls end *)

Section Returns.
Local Open Scope R_scope.

(** The loop ends for every parameter that passes the test at the head of
    [ellipticKE], [NaN] included. *)
Lemma ellipticKE_returns m fuel :
  ((m <? 0) || (m >=? 1))%float = false -> (60 <= fuel)%nat ->
  exists K E, ellipticKE fuel m = Return (K, E).
Proof.
  intros Hdom Hf. unfold ellipticKE. rewrite Hdom.
  apply orb_false_elim in Hdom. destruct Hdom as [H0 H1].
  assert (Hloop : exists r, agm_loop fuel 1 (Math_sqrt (1 - m)) (1 - Math_sqrt (1 - m)) 0 1
                            = Return r).
  { rewrite ltb_spec in H0. rewrite leb_spec in H1.
    change (Prim2SF 0) with (S754_zero false) in H0.
    change (Prim2SF 1) with (S754_finite false 4503599627370496 (-52)) in H1.
    destruct (Prim2SF m) as [s|s| |s mm em] eqn:Em.
    - assert (E1 : (1 - m)%float = 1%float).
      { apply Prim2SF_inj. rewrite sub_spec, Em. now destruct s. }
      rewrite E1. change (Math_sqrt 1) with 1%float. change (1 - 1)%float with 0%float.
      destruct fuel; simpl; eauto.
    - destruct s; discriminate.
    - assert (E1 : (1 - m)%float = nan).
      { apply Prim2SF_inj. rewrite sub_spec, Em. reflexivity. }
      rewrite E1. change (Math_sqrt nan) with nan. change (1 - nan)%float with nan.
      destruct fuel; simpl; eauto.
    - destruct s; [discriminate|].
      assert (Hlt : (m <? 1)%float = true).
      { rewrite ltb_spec, Em.
        change (Prim2SF 1) with (S754_finite false 4503599627370496 (-52)).
        apply SF_total_leb; [discriminate|discriminate|exact H1]. }
      destruct (first_b m mm em Em Hlt) as (B0 & HB0 & HBr).
      apply (agm_loop_returns 59 (1 - / 268435456) _ _ _ _ _ 1 B0).
      + exact one_posfloat.
      + exact HB0.
      + change (Z.of_nat 59 - 100)%Z with (-41)%Z. change (100 - Z.of_nat 59)%Z with 41%Z.
        pose proof (bpow_pos (-41)).
        assert (bpow (-41) <= bpow 0) by (apply bpow_le; lia).
        assert (bpow 0 <= bpow 41) by (apply bpow_le; lia).
        rewrite bpow_0 in *. lra.
      + change (Z.of_nat 59 - 100)%Z with (-41)%Z. change (100 - Z.of_nat 59)%Z with 41%Z.
        apply (range_widen (-28) 2); auto; lia.
      + lra.
      + now apply first_gap.
      + exact reach_initial.
      + lia. }
  destruct Hloop as ([a s] & ->). eauto.
Qed.

(** The loop returns a positive [a], of a size between [2^-101] and [2^101]. *)
Lemma agm_loop_value n : forall theta a b c sum pow A B fuel,
  posfloat a A -> posfloat b B ->
  bpow (Z.of_nat n - 100) <= A <= bpow (100 - Z.of_nat n) ->
  bpow (Z.of_nat n - 100) <= B <= bpow (100 - Z.of_nat n) ->
  0 <= theta -> Rabs (A - B) <= theta * (A + B) -> reach n theta ->
  (n < fuel)%nat ->
  exists a' s A', agm_loop fuel a b c sum pow = Return (a', s) /\
                  posfloat a' A' /\ bpow (-101) <= A' <= bpow 101.
Proof.
  induction n as [|n IH]; intros theta a b c sum pow A B fuel Ha Hb HA HB Hth Hgap Hr Hf.
  - destruct fuel as [|fuel]; [lia|]. simpl agm_loop.
    destruct (Math_abs c >? tol * a)%float.
    2:{ exists a, sum, A. repeat split; [assumption|..];
        apply (range_widen (Z.of_nat 0 - 100) (100 - Z.of_nat 0) (-101) 101) in HA;
        simpl; try lia; tauto. }
    destruct (body_values a b A B (Z.of_nat 0 - 100) (100 - Z.of_nat 0) Ha Hb
                ltac:(lia) ltac:(lia) HA HB)
      as (S & P & B' & T & C & Han & Hbn & HS & HP & HB' & RS & RB & Ht & HT & HC & Hc).
    simpl in Hr.
    assert (Hexit : ((tol * ((a + b) / 2)) <? Math_abs ((a - b) / 2))%float = false).
    { destruct (_ <? _)%float eqn:E; [exfalso|reflexivity].
      apply (test_true _ _ T C Ht Hc) in E.
      apply (exit_test A B S T C); auto.
      - now apply (posfloat_pos a).
      - now apply (posfloat_pos b).
      - apply Rle_trans with (theta * (A + B)); [assumption|].
        apply Rmult_le_compat_r; [|assumption].
        pose proof (posfloat_pos _ _ Ha). pose proof (posfloat_pos _ _ Hb). lra. }
    assert (RS' : bpow (-101) <= S / 2 <= bpow 101) by exact RS.
    destruct fuel as [|fuel]; simpl agm_loop; rewrite Hexit;
      eexists; eexists; exists (S / 2); (split; [reflexivity|split; assumption]).
  - destruct fuel as [|fuel]; [lia|]. simpl agm_loop.
    destruct (Math_abs c >? tol * a)%float.
    2:{ exists a, sum, A. repeat split; [assumption|..];
        apply (range_widen _ _ (-101) 101) in HA; try lia; tauto. }
    destruct (body_values a b A B (Z.of_nat (Datatypes.S n) - 100)
                (100 - Z.of_nat (Datatypes.S n)) Ha Hb ltac:(lia) ltac:(lia) HA HB)
      as (S & P & B' & T & C & Han & Hbn & HS & HP & HB' & RS & RB & Ht & HT & HC & Hc).
    apply (IH (next theta) _ _ _ _ _ (S / 2) B'); auto.
    + replace (Z.of_nat n - 100)%Z with (Z.of_nat (Datatypes.S n) - 100 - 1)%Z by lia.
      replace (100 - Z.of_nat n)%Z with (100 - Z.of_nat (Datatypes.S n) + 1)%Z by lia.
      exact RS.
    + replace (Z.of_nat n - 100)%Z with (Z.of_nat (Datatypes.S n) - 100 - 1)%Z by lia.
      replace (100 - Z.of_nat n)%Z with (100 - Z.of_nat (Datatypes.S n) + 1)%Z by lia.
      exact RB.
    + apply next_nonneg.
    + apply (step_gap A B S P (sqrt P) B' theta); auto.
      * now apply (posfloat_pos a).
      * now apply (posfloat_pos b).
    + lia.
Qed.

(** [Math.PI / (2 * a)] for such an [a]. *)
Lemma K_of_value a A :
  posfloat a A -> bpow (-101) <= A <= bpow 101 ->
  exists p e, Prim2SF (Math_PI / (2 * a))%float = S754_finite false p e.
Proof.
  intros (m & e & E & ->) HA.
  assert (Hd : (Zpos (digits2_pos m) = 53)%Z).
  { apply (posfloat_normal a _ _ E). apply bpow_trans_le with (-101)%Z; [lia|tauto]. }
  pose proof (range_exponent m e _ _ Hd HA) as He.
  rewrite div_spec, (double_finite a false m e E Hd ltac:(lia)).
  change (Prim2SF Math_PI) with (S754_finite false 7074237752028440 (-51)).
  apply SFdiv_positive; [reflexivity|assumption|lia].
Qed.

(** X6.  On its domain [ellipticKE] returns a usable K: for every binary64
    number [m] with [0 <= m < 1] (and fuel for 60 runs of the loop), the call
    returns and [K = Math.PI / (2 * a)] is a positive finite number, never
    [NaN], an infinity or a zero. *)
Theorem ellipticKE_K_positive m fuel :
  (0 <=? m)%float = true -> (m <? 1)%float = true -> (60 <= fuel)%nat ->
  exists K E, ellipticKE fuel m = Return (K, E) /\
              (0 <? K)%float = true /\ isFinite K = true.
Proof.
  intros H0 H1 Hf. unfold ellipticKE.
  assert (Hdom : ((m <? 0) || (m >=? 1))%float = false).
  { rewrite (leb_not_ltb _ _ H0). simpl.
    destruct (1 <=? m)%float eqn:E; [|reflexivity].
    pose proof (leb_ltb_trans _ _ _ E H1) as C.
    rewrite ltb_spec in C. discriminate. }
  rewrite Hdom.
  assert (Hloop : exists a' s A',
            agm_loop fuel 1 (Math_sqrt (1 - m)) (1 - Math_sqrt (1 - m)) 0 1
              = Return (a', s) /\ posfloat a' A' /\ bpow (-101) <= A' <= bpow 101).
  { rewrite leb_spec in H0. rewrite ltb_spec in H1.
    change (Prim2SF 0) with (S754_zero false) in H0.
    change (Prim2SF 1) with (S754_finite false 4503599627370496 (-52)) in H1.
    destruct (Prim2SF m) as [s|s| |s mm em] eqn:Em.
    - assert (E1 : (1 - m)%float = 1%float).
      { apply Prim2SF_inj. rewrite sub_spec, Em. now destruct s. }
      rewrite E1. change (Math_sqrt 1) with 1%float. change (1 - 1)%float with 0%float.
      exists 1%float, 0%float, 1. split; [destruct fuel; reflexivity|].
      split; [exact one_posfloat|].
      pose proof (bpow_le (-101) 0 ltac:(lia)). pose proof (bpow_le 0 101 ltac:(lia)).
      rewrite bpow_0 in *. lra.
    - destruct s; discriminate.
    - discriminate.
    - destruct s; [discriminate|].
      assert (Hlt : (m <? 1)%float = true).
      { rewrite ltb_spec, Em. exact H1. }
      destruct (first_b m mm em Em Hlt) as (B0 & HB0 & HBr).
      apply (agm_loop_value 59 (1 - / 268435456) _ _ _ _ _ 1 B0).
      + exact one_posfloat.
      + exact HB0.
      + change (Z.of_nat 59 - 100)%Z with (-41)%Z. change (100 - Z.of_nat 59)%Z with 41%Z.
        pose proof (bpow_pos (-41)).
        assert (bpow (-41) <= bpow 0) by (apply bpow_le; lia).
        assert (bpow 0 <= bpow 41) by (apply bpow_le; lia).
        rewrite bpow_0 in *. lra.
      + change (Z.of_nat 59 - 100)%Z with (-41)%Z. change (100 - Z.of_nat 59)%Z with 41%Z.
        apply (range_widen (-28) 2); auto; lia.
      + lra.
      + now apply first_gap.
      + exact reach_initial.
      + lia. }
  destruct Hloop as (a' & s & A' & -> & Ha' & HA').
  destruct (K_of_value a' A' Ha' HA') as (p & e & HK).
  eexists. eexists. split; [reflexivity|].
  split.
  - rewrite ltb_spec, HK. reflexivity.
  - unfold isFinite, PrimFloat.is_finite, PrimFloat.is_nan, PrimFloat.is_infinity.
    rewrite !eqb_spec, abs_spec, HK.
    rewrite SFeqb_refl by discriminate. reflexivity.
Qed.

End Returns.

(** X5.  How [ellipticKE] ends.  [ellipticKE(m)] throws its domain error
    when [m < 0 || m >= 1] holds, whatever the fuel, and returns when it does
    not, with fuel for 60 runs of the loop.  [NaN] fails both comparisons, so
    it is not turned away: like [+0] and [-0] it returns
    [K = E = Math.PI / 2], and it does so with any fuel, zero included, that
    is, without one run of the loop body. *)
Theorem ellipticKE_outcome m fuel :
  ((m <? 0) || (m >=? 1) = true -> ellipticKE fuel m = Throw domain_message) /\
  ((m <? 0) || (m >=? 1) = false -> (60 <= fuel)%nat ->
   exists K E, ellipticKE fuel m = Return (K, E)) /\
  (strict_eq m 0 || Number_isNaN m = true ->
   ellipticKE fuel m = Return (Math_PI / 2, Math_PI / 2)).
Proof.
  split; [|split].
  - intros G. unfold ellipticKE. now rewrite G.
  - intros G Hf. now apply ellipticKE_returns.
  - intros H.
    assert (Hm : (exists s, Prim2SF m = S754_zero s) \/ Prim2SF m = S754_nan).
    { unfold strict_eq, Number_isNaN in H. rewrite orb_true_iff, is_nan_spec in H.
      destruct H as [H|H]; [left|now right].
      rewrite eqb_spec in H. change (Prim2SF 0) with (S754_zero false) in H.
      destruct (Prim2SF m) as [s|[]| |[] ? ?]; try discriminate. now exists s. }
    unfold ellipticKE.
    assert (G : (m <? 0) || (m >=? 1) = false).
    { rewrite ltb_spec, leb_spec.
      change (Prim2SF 0) with (S754_zero false).
      change (Prim2SF 1) with (S754_finite false 4503599627370496 (-52)).
      destruct Hm as [(s & ->)| ->]; [now destruct s|reflexivity]. }
    rewrite G.
    assert (Hb : Math_sqrt (1 - m) = 1 \/ Math_sqrt (1 - m) = nan).
    { destruct Hm as [(s & Em)|Em].
      - left. assert (E1 : 1 - m = 1).
        { apply Prim2SF_inj. rewrite sub_spec, Em. now destruct s. }
        now rewrite E1.
      - right. assert (E1 : 1 - m = nan).
        { apply Prim2SF_inj. rewrite sub_spec, Em. reflexivity. }
        now rewrite E1. }
    destruct Hb as [-> | ->]; destruct fuel; reflexivity.
Qed.

(** X9.  The clamp of the single-coil file,
    [Math.min(1 - 1e-14, Math.max(0, kSqRaw))].  A [NaN] stays [NaN]; every
    other value, the infinities included, is brought into
    [0 <= kSq <= 1 - 1e-14]; a value above [1 - 1e-14] becomes [1 - 1e-14], a
    value below zero becomes [0], and a value strictly inside is passed on
    unchanged. *)
Theorem clamp_of_parameter raw :
  let kSq := Math_min (1 - 1e-14) (Math_max 0 raw) in
  (Number_isNaN raw = true -> Number_isNaN kSq = true) /\
  (Number_isNaN raw = false ->
   (0 <=? kSq) = true /\ (kSq <=? 1 - 1e-14) = true) /\
  ((0 <? raw) = true -> (raw <? 1 - 1e-14) = true -> kSq = raw) /\
  ((1 - 1e-14 <? raw) = true -> kSq = 1 - 1e-14) /\
  ((raw <? 0) = true -> kSq = 0).
Proof.
  cbv zeta. set (c := 1 - 1e-14).
  unfold Number_isNaN. split; [|split; [|split; [|split]]].
  - intros Hn. unfold Math_max. rewrite Hn, orb_true_r.
    unfold Math_min. change (PrimFloat.is_nan nan) with true.
    rewrite orb_true_r. reflexivity.
  - intros Hn.
    assert (Hv : exists v, Math_max 0 raw = v /\ PrimFloat.is_nan v = false /\
                           (0 <=? v) = true).
    { unfold Math_max. change (PrimFloat.is_nan 0) with false. rewrite Hn. simpl orb.
      destruct (0 <? raw) eqn:L.
      - exists raw. repeat split; [assumption|now apply ltb_leb].
      - destruct (raw <? 0); change (PrimFloat.get_sign 0) with false;
          exists 0; repeat split. }
    destruct Hv as (v & -> & Hvn & Hv0).
    unfold Math_min. change (PrimFloat.is_nan c) with false. rewrite Hvn. simpl orb.
    destruct (c <? v) eqn:L1; [split; reflexivity|].
    assert (Hle : (v <=? c) = true) by (apply total; auto).
    destruct (v <? c); [now split|].
    change (PrimFloat.get_sign c) with false. now split.
  - intros H0 H1.
    unfold Math_max. change (PrimFloat.is_nan 0) with false.
    rewrite (ltb_not_nan_r _ _ H0). simpl orb. rewrite H0.
    unfold Math_min. change (PrimFloat.is_nan c) with false.
    rewrite (ltb_not_nan_r _ _ H0). simpl orb.
    rewrite (ltb_asym _ _ H1). fold c in H1. now rewrite H1.
  - intros H1.
    assert (H0 : (0 <? raw) = true).
    { apply ltb_leb_trans with c; [reflexivity|now apply ltb_leb]. }
    unfold Math_max. change (PrimFloat.is_nan 0) with false.
    rewrite (ltb_not_nan_r _ _ H0). simpl orb. rewrite H0.
    unfold Math_min. change (PrimFloat.is_nan c) with false.
    rewrite (ltb_not_nan_r _ _ H0). simpl orb. now rewrite H1.
  - intros H0.
    unfold Math_max. change (PrimFloat.is_nan 0) with false.
    rewrite (ltb_not_nan_l _ _ H0). simpl orb.
    rewrite (ltb_asym _ _ H0), H0. reflexivity.
Qed.

Section Outcomes.
Context {host : Host}.

Lemma loopFieldMeters_returns fuel x y z R I N :
  (60 <= fuel)%nat ->
  exists b, SingleCoil.loopFieldMeters fuel x y z R I N
            = ([Call "loopFieldMeters" [x; y; z; R; I; N]], Return b).
Proof.
  intros Hf. unfold SingleCoil.loopFieldMeters. cbv zeta.
  destruct (strict_eq _ 0); [eexists; reflexivity|].
  match goal with
  | |- context [ellipticKE fuel (Math_min _ (Math_max 0 ?raw))] =>
      destruct (ellipticKE_returns _ fuel (clamp_in_domain raw) Hf) as (K & E & HKE)
  end.
  rewrite HKE. eexists; reflexivity.
Qed.

Lemma magAt_returns fuel x y z R I N dx dy dz :
  (60 <= fuel)%nat ->
  exists m, SingleCoil.magAt fuel x y z R I N dx dy dz
            = ([Call "loopFieldMeters" [x + dx; y + dy; z + dz; R; I; N]], Return m).
Proof.
  intros Hf. unfold SingleCoil.magAt.
  destruct (loopFieldMeters_returns fuel (x + dx) (y + dy) (z + dz) R I N Hf)
    as ([[bx by_] bz] & ->).
  eexists; reflexivity.
Qed.

Lemma coilFieldWithGrad_returns fuel x_cm y_cm z_cm R_cm I N :
  (60 <= fuel)%nat ->
  exists t r, SingleCoil.coilFieldWithGrad fuel x_cm y_cm z_cm R_cm I N = (t, Return r).
Proof.
  intros Hf. unfold SingleCoil.coilFieldWithGrad. cbv zeta.
  destruct (loopFieldMeters_returns fuel (x_cm * 1e-2) (y_cm * 1e-2) (z_cm * 1e-2)
              (R_cm * 1e-2) I N Hf) as (b & ->).
  repeat match goal with
  | |- context [SingleCoil.magAt ?f ?x ?y ?z ?R ?I ?N ?dx ?dy ?dz] =>
      let m := fresh "m" in
      destruct (magAt_returns f x y z R I N dx dy dz Hf) as (m & ->)
  end.
  eexists. eexists. reflexivity.
Qed.

(** X7.  The single-coil computation always returns.  With fuel for 60 runs
    of the loop, [loopFieldMeters] and [coilFieldWithGrad] return for every
    input and every host, whatever the numbers ([NaN], infinities, a zero or
    negative radius): the clamp keeps the parameter in the domain of
    [ellipticKE] or makes it [NaN], and the loop ends. *)
Theorem single_coil_always_returns fuel x_cm y_cm z_cm R_cm I N :
  (60 <= fuel)%nat ->
  (exists b, result (SingleCoil.loopFieldMeters fuel x_cm y_cm z_cm R_cm I N) = Return b) /\
  (exists r, result (SingleCoil.coilFieldWithGrad fuel x_cm y_cm z_cm R_cm I N) = Return r).
Proof.
  intros Hf. split.
  - destruct (loopFieldMeters_returns fuel x_cm y_cm z_cm R_cm I N Hf) as (b & ->).
    now exists b.
  - unfold SingleCoil.coilFieldWithGrad. rewrite result_enter. cbv zeta.
    destruct (loopFieldMeters_returns fuel (x_cm * 1e-2) (y_cm * 1e-2) (z_cm * 1e-2)
                (R_cm * 1e-2) I N Hf) as (b & ->).
    repeat match goal with
    | |- context [SingleCoil.magAt ?f ?x ?y ?z ?R ?I ?N ?dx ?dy ?dz] =>
        let m := fresh "m" in
        destruct (magAt_returns f x y z R I N dx dy dz Hf) as (m & ->)
    end.
    eexists. reflexivity.
Qed.

(** X8.  How a loop of the Helmholtz pair ends.  With fuel for 60 runs of
    the loop, [loopField] throws the domain error exactly when the point is
    off the axis ([rho !== 0]) and the unclamped parameter
    [kSq = 4*a*rho / ((a + rho)^2 + zax^2)] satisfies [kSq < 0 || kSq >= 1];
    in every other case, a [NaN] parameter included, it returns. *)
Theorem helmholtz_loop_outcome fuel I N xp yp zp a x0 :
  (60 <= fuel)%nat ->
  let rho := Math_hypot2 yp zp in
  let zax := xp - x0 in
  let kSq := (4 * a * rho) / (Math_pow (a + rho) 2 + zax * zax) in
  if negb (strict_eq rho 0) && ((kSq <? 0) || (kSq >=? 1))
  then result (Helmholtz.loopField fuel I N xp yp zp a x0) = Throw domain_message
  else exists b, result (Helmholtz.loopField fuel I N xp yp zp a x0) = Return b.
Proof.
  intros Hf rho zax kSq.
  unfold Helmholtz.loopField. rewrite result_enter. cbv zeta.
  fold rho. fold zax. fold kSq.
  destruct (strict_eq rho 0); simpl negb; simpl andb; [eexists; reflexivity|].
  destruct ((kSq <? 0) || (kSq >=? 1)) eqn:G.
  - unfold ellipticKE. rewrite G. reflexivity.
  - destruct (ellipticKE_returns kSq fuel G Hf) as (K & E & ->). eexists; reflexivity.
Qed.

Lemma loopField_ends fuel I N xp yp zp a x0 :
  (60 <= fuel)%nat ->
  exists t, (exists b, Helmholtz.loopField fuel I N xp yp zp a x0 = (t, Return b)) \/
            Helmholtz.loopField fuel I N xp yp zp a x0 = (t, Throw domain_message).
Proof.
  intros Hf. unfold Helmholtz.loopField. cbv zeta.
  destruct (strict_eq _ 0); [eexists; left; eexists; reflexivity|].
  match goal with |- context [ellipticKE fuel ?k] =>
    destruct ((k <? 0) || (k >=? 1)) eqn:G;
    [unfold ellipticKE; rewrite G
    |destruct (ellipticKE_returns k fuel G Hf) as (K & E & ->)]
  end.
  - eexists; right; reflexivity.
  - eexists; left; eexists; reflexivity.
Qed.

Lemma helmholtzField_ends fuel x y z R V Omega N :
  (60 <= fuel)%nat ->
  (exists b, result (Helmholtz.helmholtzField fuel x y z R V Omega N) = Return b) \/
  result (Helmholtz.helmholtzField fuel x y z R V Omega N) = Throw domain_message.
Proof.
  intros Hf. unfold Helmholtz.helmholtzField. rewrite result_enter. cbv zeta.
  unfold mapM.
  match goal with |- context [Helmholtz.loopField fuel ?I ?N ?x ?y ?z ?R ?c] =>
    destruct (loopField_ends fuel I N x y z R c Hf) as (t1 & [(b1 & ->)| ->])
  end; [|right; reflexivity].
  match goal with |- context [Helmholtz.loopField fuel ?I ?N ?x ?y ?z ?R ?c] =>
    destruct (loopField_ends fuel I N x y z R c Hf) as (t2 & [(b2 & ->)| ->])
  end; [left; eexists; reflexivity|right; reflexivity].
Qed.

(** X12.  A click on the single-coil page with inputs that pass the
    validation always shows a result: [coilFieldWithGrad] returns some [r],
    the error node is emptied and the output node gets the four lines for
    [r], the last one with the voltage [I * Omega].  The [catch] branch is
    never taken. *)
Theorem single_coil_click_shows_result fuel x y z R I Omega N p :
  (60 <= fuel)%nat ->
  rejected x y z R I Omega N = false ->
  exists r,
    result (SingleCoil.coilFieldWithGrad fuel x y z R I N) = Return r /\
    result (SingleCoil.onClick fuel x y z R I Omega N p)
      = Return {| error_text := "";
                  output_text := SingleCoil.render r (I * Omega) |}.
Proof.
  intros Hf Hrej.
  assert (Hr : exists t r, SingleCoil.coilFieldWithGrad fuel x y z R I N = (t, Return r)).
  { unfold SingleCoil.coilFieldWithGrad. cbv zeta.
    destruct (loopFieldMeters_returns fuel (x * 1e-2) (y * 1e-2) (z * 1e-2)
                (R * 1e-2) I N Hf) as (b & ->).
    repeat match goal with
    | |- context [SingleCoil.magAt ?f ?x ?y ?z ?R ?I ?N ?dx ?dy ?dz] =>
        let m := fresh "m" in
        destruct (magAt_returns f x y z R I N dx dy dz Hf) as (m & ->)
    end.
    eexists. eexists. reflexivity. }
  destruct Hr as (t & r & Hr). exists r. split; [now rewrite Hr|].
  unfold SingleCoil.onClick. unfold rejected in Hrej.
  destruct (existsb _ _); [discriminate|].
  destruct (R <=? 0); [discriminate|].
  destruct (Omega <=? 0); [discriminate|].
  destruct (N <=? 0); [discriminate|].
  rewrite Hr. reflexivity.
Qed.

(** X13.  A click on the Helmholtz page with inputs that pass the validation
    ends in one of two ways.  Either [helmholtzField] returns [b]: the error
    node is emptied and the output node gets the two lines for [b] and
    [Math.hypot(b[0], b[1], b[2])].  Or it throws, and then the message is
    the domain error of [ellipticKE], which is shown in the error node while
    the output node keeps its old text.  The fallback text of the handler is
    never shown, and with fuel for 60 runs the computation always ends. *)
Theorem helmholtz_click_outcome fuel x y z R V Omega N p :
  (60 <= fuel)%nat ->
  rejected x y z R V Omega N = false ->
  match result (Helmholtz.helmholtzField fuel x y z R V Omega N) with
  | Return b =>
      result (Helmholtz.onClick fuel x y z R V Omega N p)
        = Return {| error_text := "";
                    output_text := Helmholtz.render b (magnitude b) |}
  | Throw message =>
      message = domain_message /\
      result (Helmholtz.onClick fuel x y z R V Omega N p)
        = Return {| error_text := domain_message; output_text := output_text p |}
  | Exhausted => False
  end.
Proof.
  intros Hf Hrej.
  pose proof (helmholtzField_ends fuel x y z R V Omega N Hf) as He.
  unfold Helmholtz.onClick. unfold rejected in Hrej.
  destruct (existsb _ _); [discriminate|].
  destruct (R <=? 0); [discriminate|].
  destruct (Omega <=? 0); [discriminate|].
  destruct (N <=? 0); [discriminate|].
  destruct (Helmholtz.helmholtzField fuel x y z R V Omega N) as [t [b|e|]];
    simpl in *.
  - reflexivity.
  - destruct He as [(b & Hb)|Hb]; [discriminate|]. injection Hb as ->.
    split; reflexivity.
  - destruct He as [(b & Hb)|Hb]; discriminate.
Qed.

End Outcomes.

(** ** The gradient that [coilFieldWithGrad] returns *)

Section GradientTotal.
Context {host : Host}.

(** C6.  When the radius is a number, [coilFieldWithGrad] returns (the loop
    of [ellipticKE] is given its 60 runs), after the base evaluation and six
    more loop-field evaluations, at the points displaced by [+h] and [-h]
    along x, then y, then z, with [h = Math.max(1e-5, R * 1e-4)] for the
    radius [R] in metres; [grad] holds, per axis, the difference of the two
    field magnitudes divided by [2 * h]; and the calls entered are
    [coilFieldWithGrad] and exactly these seven evaluations, in this order. *)
Theorem gradient_central_difference fuel x_cm y_cm z_cm R_cm I N :
  let x := x_cm * 1e-2 in
  let y := y_cm * 1e-2 in
  let z := z_cm * 1e-2 in
  let R := R_cm * 1e-2 in
  let h := Math_max 1e-5 (R * 1e-4) in
  let field px py pz := SingleCoil.loopFieldMeters fuel px py pz R I N in
  let entry px py pz := Call "loopFieldMeters" [px; py; pz; R; I; N] in
  Number_isNaN R_cm = false ->
  (60 <= fuel)%nat ->
  exists t r b0 bxp bxm byp bym bzp bzm,
    SingleCoil.coilFieldWithGrad fuel x_cm y_cm z_cm R_cm I N = (t, Return r) /\
    result (field x y z) = Return b0 /\
    result (field (x + h) (y + 0) (z + 0)) = Return bxp /\
    result (field (x + - h) (y + 0) (z + 0)) = Return bxm /\
    result (field (x + 0) (y + h) (z + 0)) = Return byp /\
    result (field (x + 0) (y + - h) (z + 0)) = Return bym /\
    result (field (x + 0) (y + 0) (z + h)) = Return bzp /\
    result (field (x + 0) (y + 0) (z + - h)) = Return bzm /\
    SingleCoil.B r = b0 /\
    SingleCoil.Bmag r = magnitude b0 /\
    SingleCoil.grad r =
      ((magnitude bxp - magnitude bxm) / (2 * h),
       (magnitude byp - magnitude bym) / (2 * h),
       (magnitude bzp - magnitude bzm) / (2 * h)) /\
    t = [ Call "coilFieldWithGrad" [x_cm; y_cm; z_cm; R_cm; I; N];
          entry x y z;
          entry (x + h) (y + 0) (z + 0); entry (x + - h) (y + 0) (z + 0);
          entry (x + 0) (y + h) (z + 0); entry (x + 0) (y + - h) (z + 0);
          entry (x + 0) (y + 0) (z + h); entry (x + 0) (y + 0) (z + - h) ].
Proof.
  intros x y z R h field entry HR Hf.
  destruct (coilFieldWithGrad_returns fuel x_cm y_cm z_cm R_cm I N Hf)
    as (t & r & Hrun).
  destruct (returned_gradient fuel x_cm y_cm z_cm R_cm I N t r HR Hrun)
    as (b0 & bxp & bxm & byp & bym & bzp & bzm & H).
  exists t, r, b0, bxp, bxm, byp, bym, bzp, bzm. split; [exact Hrun|exact H].
Qed.

End GradientTotal.

(** ** Doubling the current *)

Lemma axial_double I N R D :
  scalable I = true -> axial_scales I N R D = true ->
  (mu0 * (2 * I) * N * R * R) / D = 2 * ((mu0 * I * N * R * R) / D) /\
  scalable ((mu0 * I * N * R * R) / D) = true.
Proof.
  unfold axial_scales. cbv zeta. rewrite !andb_true_iff.
  intros HI ((((H1 & H2) & H3) & H4) & H5).
  destruct (mul_scaled_r I mu0 HI H1) as [E1 S1].
  destruct (mul_scaled _ N S1 H2) as [E2 S2].
  destruct (mul_scaled _ R S2 H3) as [E3 S3].
  destruct (mul_scaled _ R S3 H4) as [E4 S4].
  destruct (div_scaled _ D S4 H5) as [E5 S5].
  split; [|assumption]. now rewrite E1, E2, E3, E4, E5.
Qed.

Lemma off_axis_double I N D X G1 G2 c s :
  scalable I = true -> off_axis_scales I N D X G1 G2 c s = true ->
  let f := (mu0 * I * N) / D in
  let f' := (mu0 * (2 * I) * N) / D in
  (f' * G2 = 2 * (f * G2) /\
   f' * X * G1 * c = 2 * (f * X * G1 * c) /\
   f' * X * G1 * s = 2 * (f * X * G1 * s)) /\
  (scalable (f * G2) = true /\
   scalable (f * X * G1 * c) = true /\
   scalable (f * X * G1 * s) = true).
Proof.
  unfold off_axis_scales. cbv zeta. rewrite !andb_true_iff.
  intros HI (((((((H1 & H2) & H3) & H4) & H5) & H6) & H7) & H8).
  destruct (mul_scaled_r I mu0 HI H1) as [E1 S1].
  destruct (mul_scaled _ N S1 H2) as [E2 S2].
  destruct (div_scaled _ D S2 H3) as [E3 S3].
  destruct (mul_scaled _ X S3 H4) as [E4 S4].
  destruct (mul_scaled _ G1 S4 H5) as [E5 S5].
  destruct (mul_scaled _ G2 S3 H6) as [E6 S6].
  destruct (mul_scaled _ c S5 H7) as [E7 S7].
  destruct (mul_scaled _ s S5 H8) as [E8 S8].
  rewrite E1, E2, E3, E4, E5, E6, E7, E8. auto.
Qed.

(** Twice a number is [NaN] when the number is. *)
Lemma double_nan u :
  scalable u = true -> Number_isNaN (2 * u) = Number_isNaN u.
Proof.
  unfold scalable, Number_isNaN. rewrite orb_true_iff. intros [Ru|Fu].
  - destruct (roomy_spec u Ru) as (s & m & e & E & Hd & He).
    pose proof (double_finite u s m e E Hd ltac:(lia)) as E2.
    assert (H1 : PrimFloat.is_nan u = false)
      by (apply not_nan_spec; rewrite E; discriminate).
    assert (H2 : PrimFloat.is_nan (2 * u) = false)
      by (apply not_nan_spec; rewrite E2; discriminate).
    now rewrite H1, H2.
  - now rewrite (double_unscaled u Fu).
Qed.

(** The validation does not tell a voltage from its double. *)
Lemma rejected_double x y z R V Omega N :
  scalable V = true ->
  rejected x y z R (2 * V) Omega N = rejected x y z R V Omega N.
Proof.
  intros H. unfold rejected, existsb. now rewrite (double_nan V H).
Qed.

(** Twice a number, as a real number. *)
Lemma F2R_double u : scalable u = true -> F2R (2 * u) = (2 * F2R u)%R.
Proof.
  unfold scalable. rewrite orb_true_iff. intros [Ru|Fu].
  - destruct (roomy_spec u Ru) as (s & m & e & E & Hd & He).
    pose proof (double_finite u s m e E Hd ltac:(lia)) as E2.
    unfold F2R. rewrite E2, E. simpl SF2R. rewrite bpow_add, bpow_1. ring.
  - rewrite (double_unscaled u Fu). rewrite unscaled_spec in Fu.
    unfold F2R. destruct (Prim2SF u); try contradiction; simpl; ring.
Qed.

(** The length of a doubled vector is twice the length of the vector. *)
Lemma length_twice b :
  scalable_vec b -> euclidean_length (twice b) = (2 * euclidean_length b)%R.
Proof.
  intros (S0 & S1 & S2). unfold euclidean_length, twice, idx0, idx1, idx2 in *.
  cbn [fst snd] in *.
  rewrite (F2R_double _ S0), (F2R_double _ S1), (F2R_double _ S2).
  set (a := F2R (fst (fst b))). set (b' := F2R (snd (fst b))). set (c := F2R (snd b)).
  assert (Hs : (0 <= a * a + b' * b' + c * c)%R) by nra.
  apply sqrt_unique.
  - pose proof (sqrt_pos (a * a + b' * b' + c * c)). lra.
  - transitivity (4 * (sqrt (a * a + b' * b' + c * c) * sqrt (a * a + b' * b' + c * c)))%R;
      [ring|]. rewrite sqrt_sqrt by exact Hs. ring.
Qed.

Section CurrentDoubling.
Context {host : Host}.

Lemma loopFieldMeters_doubles fuel x y z R I N :
  let rho := Math_hypot2 y z in
  let kSqRaw := (4 * R * rho) / (Math_pow (R + rho) 2 + x * x) in
  current_scales fuel I N R rho x y z
    (Math_min (1 - 1e-14) (Math_max 0 kSqRaw)) ->
  exists b,
    result (SingleCoil.loopFieldMeters fuel x y z R I N) = Return b /\
    result (SingleCoil.loopFieldMeters fuel x y z R (2 * I) N) = Return (twice b) /\
    scalable_vec b.
Proof.
  assert (Z2 : 2 * 0 = 0) by reflexivity.
  intros rho kSqRaw [HI H].
  unfold SingleCoil.loopFieldMeters. rewrite !result_enter.
  fold rho. fold kSqRaw.
  destruct (strict_eq rho 0).
  - destruct (axial_double I N R _ HI H) as [E S].
    eexists. split; [reflexivity|].
    unfold ret, result, twice, scalable_vec, idx0, idx1, idx2, fst, snd.
    rewrite Z2, E. repeat split; assumption || reflexivity.
  - destruct H as (K & E & HKE & H). cbv zeta in H.
    destruct (off_axis_double _ _ _ _ _ _ _ _ HI H) as ((E1 & E2 & E3) & S).
    cbv zeta in E1, E2, E3, S.
    rewrite HKE. unfold lift, bind, ret, result, snd.
    eexists. split; [reflexivity|].
    unfold twice, scalable_vec, idx0, idx1, idx2, fst, snd.
    rewrite E1, E2, E3. split; [reflexivity|exact S].
Qed.

Lemma loopField_doubles fuel I N xp yp zp a x0 :
  loop_scales fuel I N xp yp zp a x0 ->
  exists b,
    result (Helmholtz.loopField fuel I N xp yp zp a x0) = Return b /\
    result (Helmholtz.loopField fuel (2 * I) N xp yp zp a x0) = Return (twice b) /\
    scalable_vec b.
Proof.
  assert (Z2 : 2 * 0 = 0) by reflexivity.
  unfold loop_scales. cbv zeta. intros [HI H].
  unfold Helmholtz.loopField. rewrite !result_enter. cbv zeta.
  destruct (strict_eq _ 0).
  - destruct (axial_double I N a _ HI H) as [E S].
    eexists. split; [reflexivity|].
    unfold ret, result, twice, scalable_vec, idx0, idx1, idx2, fst, snd.
    rewrite Z2, E. repeat split; assumption || reflexivity.
  - destruct H as (K & E & HKE & H). cbv zeta in H.
    destruct (off_axis_double _ _ _ _ _ _ _ _ HI H) as ((E1 & E2 & E3) & S).
    cbv zeta in E1, E2, E3, S.
    rewrite HKE. unfold lift, bind, ret, result, snd.
    eexists. split; [reflexivity|].
    unfold twice, scalable_vec, idx0, idx1, idx2, fst, snd.
    rewrite E1, E2, E3. split; [reflexivity|exact S].
Qed.

(** One step of [reduce] on doubled vectors. *)
Lemma reduce_doubles p q :
  scalable p = true -> scalable q = true ->
  sums (0 + p) q (0 + p + q) = true ->
  0 + 2 * p + 2 * q = 2 * (0 + p + q) /\ scalable (0 + p + q) = true.
Proof.
  intros Sp Sq H.
  assert (H0 : sums 0 p (0 + p) = true).
  { unfold sums. change (unscaled 0) with true. now rewrite orb_true_r. }
  destruct (add_scaled 0 p eq_refl Sp H0) as [E1 S1].
  change (2 * 0) with 0 in E1. rewrite E1.
  exact (add_scaled (0 + p) q S1 Sq H).
Qed.

Lemma helmholtzField_doubles fuel x_cm y_cm z_cm R_cm V Omega N :
  voltage_scales fuel x_cm y_cm z_cm R_cm V Omega N ->
  exists b,
    result (Helmholtz.helmholtzField fuel x_cm y_cm z_cm R_cm V Omega N) = Return b /\
    result (Helmholtz.helmholtzField fuel x_cm y_cm z_cm R_cm (2 * V) Omega N)
      = Return (twice b) /\
    scalable_vec b.
Proof.
  unfold voltage_scales. cbv zeta.
  intros (SV & HI & L1 & L2 & b1 & b2 & R1 & R2 & HS).
  destruct (div_scaled V Omega SV HI) as [EI _].
  destruct (loopField_doubles _ _ _ _ _ _ _ _ L1) as (b1' & R1' & D1 & S1).
  destruct (loopField_doubles _ _ _ _ _ _ _ _ L2) as (b2' & R2' & D2 & S2).
  rewrite R1 in R1'. injection R1' as <-.
  rewrite R2 in R2'. injection R2' as <-.
  unfold Helmholtz.helmholtzField. rewrite !result_enter. cbv zeta.
  rewrite EI. unfold mapM.
  destruct (Helmholtz.loopField fuel (V / Omega) N _ _ _ _ (- (R_cm * 1e-2) / 2))
    as [t1 o1]. simpl in R1. subst o1.
  destruct (Helmholtz.loopField fuel (V / Omega) N _ _ _ _ (R_cm * 1e-2 / 2))
    as [t2 o2]. simpl in R2. subst o2.
  destruct (Helmholtz.loopField fuel (2 * (V / Omega)) N _ _ _ _ (- (R_cm * 1e-2) / 2))
    as [t3 o3]. simpl in D1. subst o3.
  destruct (Helmholtz.loopField fuel (2 * (V / Omega)) N _ _ _ _ (R_cm * 1e-2 / 2))
    as [t4 o4]. simpl in D2. subst o4.
  eexists. split; [reflexivity|].
  cbn. unfold scalable_vec, Helmholtz.add_vec, twice, idx0, idx1, idx2. cbn [fst snd].
  unfold sum_scales in HS. rewrite !andb_true_iff in HS.
  destruct HS as ((H0 & H1) & H2).
  destruct S1 as (S10 & S11 & S12). destruct S2 as (S20 & S21 & S22).
  unfold idx0, idx1, idx2 in *. cbn [fst snd] in *.
  destruct (reduce_doubles _ _ S10 S20 H0) as [E0 T0].
  destruct (reduce_doubles _ _ S11 S21 H1) as [E1 T1].
  destruct (reduce_doubles _ _ S12 S22 H2) as [E2 T2].
  rewrite E0, E1, E2. repeat split; assumption.
Qed.

(** The base field and its magnitude in what [coilFieldWithGrad] returns. *)
Lemma coilFieldWithGrad_base fuel x_cm y_cm z_cm R_cm I N t r :
  SingleCoil.coilFieldWithGrad fuel x_cm y_cm z_cm R_cm I N = (t, Return r) ->
  result (SingleCoil.loopFieldMeters fuel (x_cm * 1e-2) (y_cm * 1e-2) (z_cm * 1e-2)
            (R_cm * 1e-2) I N) = Return (SingleCoil.B r) /\
  SingleCoil.Bmag r = magnitude (SingleCoil.B r).
Proof.
  unfold SingleCoil.coilFieldWithGrad. cbv zeta. intros Hrun.
  apply bind_inv in Hrun. destruct Hrun as (t0 & [] & t' & He & Hrun & ->).
  apply bind_inv in Hrun. destruct Hrun as (tb & b0 & t1 & Hb0 & Hrun & ->).
  do 6 (apply bind_inv in Hrun; destruct Hrun as (? & ? & ? & _ & Hrun & ->)).
  injection Hrun as <- <-. rewrite Hb0. split; reflexivity.
Qed.

(** What a click on the Helmholtz page shows when [helmholtzField] returned. *)
Lemma helmholtz_click_shows fuel x y z R V Omega N p b :
  rejected x y z R V Omega N = false ->
  result (Helmholtz.helmholtzField fuel x y z R V Omega N) = Return b ->
  result (Helmholtz.onClick fuel x y z R V Omega N p)
    = Return {| error_text := "";
                output_text := Helmholtz.render b (magnitude b) |}.
Proof.
  intros Hrej Hb. unfold Helmholtz.onClick. unfold rejected in Hrej.
  destruct (existsb _ _); [discriminate|].
  destruct (R <=? 0); [discriminate|].
  destruct (Omega <=? 0); [discriminate|].
  destruct (N <=? 0); [discriminate|].
  destruct (Helmholtz.helmholtzField fuel x y z R V Omega N) as [t o].
  simpl in Hb. subst o. reflexivity.
Qed.

(** C7 (within the range of the format).  Doubling the current doubles the
    field, exactly, when no value that depends on the current leaves the
    range in which twice a number has the same digits: the current [I] is a
    zero, an infinity, [NaN] or a normal number with
    [2^-1020 <= |I| < 2^1023], and each product or quotient [r] computed from
    it ([mu0 * I], [mu0 * I * N], ...) is a normal number with
    [2^-1020 <= |r| < 2^1023], unless one of its two operands is a zero, an
    infinity or [NaN] (a result that is a zero because it underflowed does
    not qualify); off the axis, [ellipticKE] returns the [K] and [E] that
    these products are computed with.  Then

    - [loopFieldMeters] and the [loopField] of the pair return, and they
      return for [2 * I] the vector [(2 * bx, 2 * by, 2 * bz)] of what they
      return for [I], on the axis and off it;
    - [helmholtzField] returns for the voltage [2 * V] twice the vector it
      returns for [V], when the same holds of [V], of [I = V / Omega] in each
      of the two loops, and of the sums of the two fields (a sum may also be
      a zero);
    - [coilFieldWithGrad], given the 60 runs of the loop, returns for
      [2 * I] a record whose [B] is twice the [B] it returns for [I];
    - in each case the length of the returned vector, [|B|] as a real
      number, is doubled when its components are finite;
    - the number [Math.hypot(bx, by, bz)] that the code computes for [|B|],
      in the record of [coilFieldWithGrad] and in the text that a click on
      the Helmholtz page shows, is doubled as well whenever [Math.hypot]
      returns for the doubled components twice what it returns for the
      components; this is up to the host. *)
Theorem field_doubles_with_current :
  (forall fuel x y z R I N,
     let rho := Math_hypot2 y z in
     let kSqRaw := (4 * R * rho) / (Math_pow (R + rho) 2 + x * x) in
     current_scales fuel I N R rho x y z
       (Math_min (1 - 1e-14) (Math_max 0 kSqRaw)) ->
     exists b,
       result (SingleCoil.loopFieldMeters fuel x y z R I N) = Return b /\
       result (SingleCoil.loopFieldMeters fuel x y z R (2 * I) N)
         = Return (2 * idx0 b, 2 * idx1 b, 2 * idx2 b) /\
       (finite_vec b = true ->
        euclidean_length (twice b) = (2 * euclidean_length b)%R)) /\
  (forall fuel I N xp yp zp a x0,
     let rho := Math_hypot2 yp zp in
     let zax := xp - x0 in
     current_scales fuel I N a rho zax yp zp
       ((4 * a * rho) / (Math_pow (a + rho) 2 + zax * zax)) ->
     exists b,
       result (Helmholtz.loopField fuel I N xp yp zp a x0) = Return b /\
       result (Helmholtz.loopField fuel (2 * I) N xp yp zp a x0)
         = Return (2 * idx0 b, 2 * idx1 b, 2 * idx2 b) /\
       (finite_vec b = true ->
        euclidean_length (twice b) = (2 * euclidean_length b)%R)) /\
  (forall fuel x_cm y_cm z_cm R_cm V Omega N p,
     voltage_scales fuel x_cm y_cm z_cm R_cm V Omega N ->
     exists b,
       result (Helmholtz.helmholtzField fuel x_cm y_cm z_cm R_cm V Omega N)
         = Return b /\
       result (Helmholtz.helmholtzField fuel x_cm y_cm z_cm R_cm (2 * V) Omega N)
         = Return (twice b) /\
       (finite_vec b = true ->
        euclidean_length (twice b) = (2 * euclidean_length b)%R) /\
       (rejected x_cm y_cm z_cm R_cm V Omega N = false ->
        Math_hypot3 (2 * idx0 b) (2 * idx1 b) (2 * idx2 b)
          = 2 * Math_hypot3 (idx0 b) (idx1 b) (idx2 b) ->
        result (Helmholtz.onClick fuel x_cm y_cm z_cm R_cm V Omega N p)
          = Return {| error_text := "";
                      output_text := Helmholtz.render b (magnitude b) |} /\
        result (Helmholtz.onClick fuel x_cm y_cm z_cm R_cm (2 * V) Omega N p)
          = Return {| error_text := "";
                      output_text :=
                        Helmholtz.render (twice b) (2 * magnitude b) |})) /\
  (forall fuel x_cm y_cm z_cm R_cm I N,
     let x := x_cm * 1e-2 in
     let y := y_cm * 1e-2 in
     let z := z_cm * 1e-2 in
     let R := R_cm * 1e-2 in
     let rho := Math_hypot2 y z in
     let kSqRaw := (4 * R * rho) / (Math_pow (R + rho) 2 + x * x) in
     (60 <= fuel)%nat ->
     current_scales fuel I N R rho x y z
       (Math_min (1 - 1e-14) (Math_max 0 kSqRaw)) ->
     exists r r2,
       result (SingleCoil.coilFieldWithGrad fuel x_cm y_cm z_cm R_cm I N)
         = Return r /\
       result (SingleCoil.coilFieldWithGrad fuel x_cm y_cm z_cm R_cm (2 * I) N)
         = Return r2 /\
       SingleCoil.B r2 = twice (SingleCoil.B r) /\
       (finite_vec (SingleCoil.B r) = true ->
        euclidean_length (SingleCoil.B r2)
          = (2 * euclidean_length (SingleCoil.B r))%R) /\
       (let b := SingleCoil.B r in
        Math_hypot3 (2 * idx0 b) (2 * idx1 b) (2 * idx2 b)
          = 2 * Math_hypot3 (idx0 b) (idx1 b) (idx2 b) ->
        SingleCoil.Bmag r2 = 2 * SingleCoil.Bmag r)).
Proof.
  split; [|split; [|split]].
  - intros fuel x y z R I N rho kSqRaw H.
    destruct (loopFieldMeters_doubles fuel x y z R I N H) as (b & H1 & H2 & S).
    exists b. split; [exact H1|]. split; [exact H2|].
    intros _. now apply length_twice.
  - intros fuel I N xp yp zp a x0 rho zax H.
    destruct (loopField_doubles fuel I N xp yp zp a x0 H) as (b & H1 & H2 & S).
    exists b. split; [exact H1|]. split; [exact H2|].
    intros _. now apply length_twice.
  - intros fuel x_cm y_cm z_cm R_cm V Omega N p H.
    destruct (helmholtzField_doubles _ _ _ _ _ _ _ _ H) as (b & H1 & H2 & S).
    exists b. split; [exact H1|]. split; [exact H2|].
    split; [intros _; now apply length_twice|].
    intros Hrej Hh.
    assert (Hrej2 : rejected x_cm y_cm z_cm R_cm (2 * V) Omega N = false).
    { rewrite rejected_double; [exact Hrej|]. exact (proj1 H). }
    split; [now apply helmholtz_click_shows|].
    rewrite (helmholtz_click_shows _ _ _ _ _ _ _ _ p _ Hrej2 H2).
    unfold magnitude at 1. unfold twice at 2 3 4, idx0, idx1, idx2. cbn [fst snd].
    unfold idx0, idx1, idx2 in Hh. now rewrite Hh.
  - intros fuel x_cm y_cm z_cm R_cm I N x y z R rho kSqRaw Hf H.
    destruct (loopFieldMeters_doubles fuel x y z R I N H) as (b & H1 & H2 & S).
    destruct (coilFieldWithGrad_returns fuel x_cm y_cm z_cm R_cm I N Hf)
      as (t & r & Hr).
    destruct (coilFieldWithGrad_returns fuel x_cm y_cm z_cm R_cm (2 * I) N Hf)
      as (t2 & r2 & Hr2).
    destruct (coilFieldWithGrad_base _ _ _ _ _ _ _ _ _ Hr) as [B1 M1].
    destruct (coilFieldWithGrad_base _ _ _ _ _ _ _ _ _ Hr2) as [B2 M2].
    fold x y z R in B1, B2. rewrite H1 in B1. rewrite H2 in B2.
    injection B1 as B1. injection B2 as B2.
    exists r, r2. rewrite Hr, Hr2.
    split; [reflexivity|]. split; [reflexivity|].
    split; [now rewrite <- B2, <- B1|].
    split.
    + intros _. rewrite <- B2, <- B1. now apply length_twice.
    + cbv zeta. intros Hh. rewrite M1, M2, <- B2. subst b. exact Hh.
Qed.

End CurrentDoubling.

(** C7 does not hold where the products underflow: [mu0 * 2e-318] and
    [mu0 * 4e-318] both round to the smallest positive number, [2^-1074], so a
    current of 2e-318 and its double give the same field, which is not zero.
    With 100 turns the field is 2.47e-321 along x in both cases; with 1e200
    turns it is 2.47e-123, and so is its magnitude. *)
Lemma current_doubling_counterexample :
  let I := 2e-318 in
  let loop := @SingleCoil.loopFieldMeters reference_host 0 0 0 0 0.1 in
  (result (loop I 100) = Return (2.4703282292062327e-321, 0, 0) /\
   result (loop (2 * I) 100) = Return (2.4703282292062327e-321, 0, 0) /\
   2.4703282292062327e-321 <> 2 * 2.4703282292062327e-321) /\
  (result (loop I 1e200) = Return (2.4703282292062325e-123, 0, 0) /\
   result (loop (2 * I) 1e200) = Return (2.4703282292062325e-123, 0, 0) /\
   @magnitude reference_host (2.4703282292062325e-123, 0, 0)
     = 2.4703282292062325e-123 /\
   2.4703282292062325e-123 <> 2 * 2.4703282292062325e-123).
Proof.
  assert (D : forall a b : float, Prim2SF a <> Prim2SF b -> a <> b)
    by (intros a b H E; apply H; now rewrite E).
  cbv zeta. repeat split; try (vm_compute; reflexivity);
    apply D; vm_compute; discriminate.
Qed.

(** The magnitude follows [Math.hypot].  With a [Math.hypot] that takes the
    square root of the sum of the squares without scaling them, the square of
    a field near 1e-160 underflows: for the current 1.2e-157 the field
    doubles exactly with the current, yet the magnitude of the doubled field
    is not twice the magnitude of the field. *)
Lemma magnitude_follows_the_host :
  let I := 1.2e-157 in
  let loop := @SingleCoil.loopFieldMeters reference_host 0 0 0 0 0.1 in
  let b := (7.5398223686155018e-161, 0, 0) in
  result (loop I 100) = Return b /\
  result (loop (2 * I) 100) = Return (twice b) /\
  @magnitude reference_host (twice b) <> 2 * @magnitude reference_host b.
Proof.
  assert (D : forall a b : float, Prim2SF a <> Prim2SF b -> a <> b)
    by (intros a b H E; apply H; now rewrite E).
  cbv zeta. repeat split; try (vm_compute; reflexivity).
  apply D; vm_compute; discriminate.
Qed.

(** ** The step and the gradient in the plane of the coil *)

Lemma or_else_zero_not_nan x : PrimFloat.is_nan (or_else x 0) = false.
Proof.
  unfold or_else, truthy. destruct (PrimFloat.is_nan x) eqn:E.
  - now rewrite orb_true_r.
  - now destruct (PrimFloat.is_zero x || false).
Qed.

Lemma or_else_zero_below x :
  (1e-5 <? x) = false -> (1e-5 <? or_else x 0) = false.
Proof.
  intros H. unfold or_else. destruct (truthy x); [exact H|reflexivity].
Qed.

Lemma step_at_least R : (1e-5 <=? SingleCoil.step R) = true.
Proof.
  unfold SingleCoil.step, Math_max.
  rewrite (or_else_zero_not_nan (R * 1e-4)).
  change (PrimFloat.is_nan 1e-5) with false. simpl orb.
  destruct (1e-5 <? or_else (R * 1e-4) 0) eqn:L; [now apply ltb_leb|].
  destruct (or_else (R * 1e-4) 0 <? 1e-5); [reflexivity|].
  change (PrimFloat.get_sign 1e-5) with false. reflexivity.
Qed.

(** X10.  The step of the finite differences,
    [h = Math.max(1e-5, R * 1e-4 || 0)], is never degenerate: for every radius
    [R], a [NaN], a zero and a negative one included, [h] is at least [1e-5],
    the divisor [2 * h] is a positive number (possibly [+Infinity], never a
    zero or [NaN]), and [h] is [R * 1e-4] when that is above [1e-5] and
    [1e-5] in every other case. *)
Theorem step_never_degenerate R :
  (1e-5 <=? SingleCoil.step R) = true /\
  (0 <? 2 * SingleCoil.step R) = true /\
  SingleCoil.step R = (if 1e-5 <? R * 1e-4 then R * 1e-4 else 1e-5).
Proof.
  split; [apply step_at_least|]. split.
  - rewrite ltb_spec. change (Prim2SF 0) with (S754_zero false).
    destruct (double_at_least_step _ (step_at_least R)) as [->|(m & e & ->)]; reflexivity.
  - unfold SingleCoil.step. destruct (1e-5 <? R * 1e-4) eqn:L.
    + assert (Ht : truthy (R * 1e-4) = true).
      { unfold truthy. now rewrite (ltb_not_zero _ L), (ltb_not_nan_r _ _ L). }
      unfold or_else. rewrite Ht. unfold Math_max.
      rewrite (ltb_not_nan_r _ _ L). change (PrimFloat.is_nan 1e-5) with false.
      simpl orb. now rewrite L.
    + pose proof (or_else_zero_below _ L) as L'.
      unfold Math_max. rewrite or_else_zero_not_nan.
      change (PrimFloat.is_nan 1e-5) with false. simpl orb. rewrite L'.
      destruct (or_else (R * 1e-4) 0 <? 1e-5); [reflexivity|].
      change (PrimFloat.get_sign 1e-5) with false. reflexivity.
Qed.

Section CoilPlane.
Context {host : Host}.


End CoilPlane.


Section AxialPlanes.
Context {host : Host}.





End AxialPlanes.

(** ** The Helmholtz pair and its midplane *)

Section HelmholtzMirror.
Context {host : Host}.

(** Two evaluations of a loop whose axial displacements are opposite. *)
Lemma loopField_mirror fuel I N xp xp' yp zp a x0 x0' :
  same_number (xp' - x0') (- (xp - x0)) ->
  outcome_rel mirror_image
    (result (Helmholtz.loopField fuel I N xp yp zp a x0))
    (result (Helmholtz.loopField fuel I N xp' yp zp a x0')).
Proof.
  intros H. pose proof (square_same _ _ H) as Hsq.
  unfold Helmholtz.loopField. rewrite !result_enter. cbv zeta. rewrite Hsq.
  destruct (strict_eq _ 0).
  - constructor. repeat split; try apply same_number_refl; apply same_zero_negzero.
  - unfold bind, lift, ret, result.
    destruct (ellipticKE fuel _) as [[K E]| |]; constructor.
    unfold mirror_image, same_vec, flip_vec, idx0, idx1, idx2. cbn [fst snd].
    cbv beta iota.
    split; [apply same_number_refl|].
    split;
      (rewrite <- mul_opp_l; apply same_number_mul_l;
       rewrite <- mul_opp_l; apply same_number_mul_l;
       rewrite <- mul_opp_r; apply same_number_mul_r;
       rewrite <- div_opp_l; apply same_number_div_l; exact H).
Qed.

(** X14.  In the midplane of the pair the field is along the axis.  For
    [x = 0] (or [-0]) and every y, z, radius, voltage, resistance and turn
    count, when [helmholtzField] returns, the two loops returned, and the
    second components of their fields are opposite numbers, as are the third
    ones.  When these components are finite, they cancel exactly: the second
    and third components of the field of the pair are zeros.  When they are
    not (infinities of opposite signs, or [NaN]), those of the pair are
    [NaN]. *)
Theorem helmholtz_midplane_is_axial fuel x_cm y_cm z_cm R_cm V Omega N b :
  let x := x_cm * 1e-2 in
  let y := y_cm * 1e-2 in
  let z := z_cm * 1e-2 in
  let R := R_cm * 1e-2 in
  let I := V / Omega in
  strict_eq x_cm 0 = true ->
  result (Helmholtz.helmholtzField fuel x_cm y_cm z_cm R_cm V Omega N) = Return b ->
  exists b1 b2,
    result (Helmholtz.loopField fuel I N x y z R (- R / 2)) = Return b1 /\
    result (Helmholtz.loopField fuel I N x y z R (R / 2)) = Return b2 /\
    same_number (idx1 b1) (- idx1 b2) /\
    same_number (idx2 b1) (- idx2 b2) /\
    (if isFinite (idx1 b2) then strict_eq (idx1 b) 0 = true
     else Number_isNaN (idx1 b) = true) /\
    (if isFinite (idx2 b2) then strict_eq (idx2 b) 0 = true
     else Number_isNaN (idx2 b) = true).
Proof.
  intros x y z R I Hx. destruct (zero_times x_cm 1e-2 Hx eq_refl) as (s & Hx0).
  unfold Helmholtz.helmholtzField. rewrite result_enter. cbv zeta.
  fold x y z R I. rewrite div_opp_l.
  set (c := R / 2).
  pose proof (loopField_mirror fuel I N x x y z R c (- c) (zero_minus x c s Hx0)) as M.
  unfold mapM.
  destruct (Helmholtz.loopField fuel I N x y z R (- c)) as [t1 [b1| |]];
    try discriminate.
  destruct (Helmholtz.loopField fuel I N x y z R c) as [t2 [b2| |]];
    try discriminate.
  simpl in M. inversion M as [? ? (_ & M1 & M2)| |]; subst.
  cbn. intros [= <-]. exists b1, b2.
  unfold flip_vec, Helmholtz.add_vec, idx0, idx1, idx2 in *. cbn in *.
  split; [reflexivity|]. split; [reflexivity|].
  split; [assumption|]. split; [assumption|].
  split; apply cancel_sum; assumption.
Qed.

(** X15.  The whole field of the pair at the mirror point.  When
    [helmholtzField] returns [b] at (x, y, z), it returns at (-x, y, z) a
    vector with the same axial component and the opposite transverse
    components, up to the sign of a zero. *)
Theorem helmholtz_mirror_image fuel x_cm y_cm z_cm R_cm V Omega N b :
  result (Helmholtz.helmholtzField fuel x_cm y_cm z_cm R_cm V Omega N) = Return b ->
  exists b',
    result (Helmholtz.helmholtzField fuel (- x_cm) y_cm z_cm R_cm V Omega N)
      = Return b' /\
    mirror_image b b'.
Proof.
  unfold Helmholtz.helmholtzField. rewrite !result_enter. cbv zeta.
  rewrite mul_opp_l, div_opp_l.
  set (x := x_cm * 1e-2). set (y := y_cm * 1e-2). set (z := z_cm * 1e-2).
  set (R := R_cm * 1e-2). set (I := V / Omega). set (c := R / 2).
  pose proof (loopField_mirror fuel I N x (- x) y z R c (- c) (sub_opp_both x c)) as M1.
  assert (Hc : same_number (- x - c) (- (x - - c))).
  { rewrite <- (opp_involutive c) at 1. apply sub_opp_both. }
  pose proof (loopField_mirror fuel I N x (- x) y z R (- c) c Hc) as M2.
  unfold mapM.
  destruct (Helmholtz.loopField fuel I N x y z R (- c)) as [t1 [b1| |]];
    try discriminate.
  destruct (Helmholtz.loopField fuel I N x y z R c) as [t2 [b2| |]];
    try discriminate.
  simpl in M1, M2.
  destruct (Helmholtz.loopField fuel I N (- x) y z R (- c)) as [t1' [b1'| |]];
    try (now inversion M1).
  destruct (Helmholtz.loopField fuel I N (- x) y z R c) as [t2' [b2'| |]];
    try (now inversion M2).
  inversion M1 as [? ? (A0 & A1 & A2)| |]; subst.
  inversion M2 as [? ? (B0 & B1 & B2)| |]; subst.
  cbn. intros [= <-]. eexists. split; [reflexivity|].
  unfold mirror_image, same_vec, flip_vec, Helmholtz.add_vec, idx0, idx1, idx2 in *.
  cbn in *.
  assert (T : forall p q p' q', same_number p' (- q) -> same_number q' (- p) ->
              same_number (0 + p' + q') (- (0 + p + q))).
  { intros p q p' q' Hp Hq.
    apply same_number_trans with (- q + - p).
    - apply same_number_trans with (0 + - q + - p).
      + apply same_number_add; [|assumption].
        apply same_number_add; [apply same_number_refl|assumption].
      + apply sum_from_zero.
    - apply same_number_trans with (- (q + p)); [apply add_opp_both|].
      rewrite (add_comm q p). apply same_number_opp, same_number_sym, sum_from_zero. }
  repeat split.
  - destruct (same_number_cases _ _ A0) as [E0|(s & s' & E0 & E0')];
      destruct (same_number_cases _ _ B0) as [F0|(u & u' & F0 & F0')].
    + rewrite E0, F0. left. apply sum_from_zero_swap.
    + rewrite E0. apply same_number_trans with (0 + fst (fst b2) + fst (fst b1)).
      * apply same_number_add; [apply same_number_refl|].
        eapply zeros_same; eauto.
      * left. apply sum_from_zero_swap.
    + rewrite F0. apply same_number_trans with (0 + fst (fst b2) + fst (fst b1)).
      * apply same_number_add; [|apply same_number_refl].
        apply same_number_add; [apply same_number_refl|]. eapply zeros_same; eauto.
      * left. apply sum_from_zero_swap.
    + apply same_number_trans with (0 + fst (fst b2) + fst (fst b1)).
      * apply same_number_add; [|eapply zeros_same; eauto].
        apply same_number_add; [apply same_number_refl|]. eapply zeros_same; eauto.
      * left. apply sum_from_zero_swap.
  - now apply T.
  - now apply T.
Qed.

End HelmholtzMirror.

(** ** Doubling the turn count *)

Lemma axial_double_turns I N R D :
  scalable N = true -> axial_scales_turns I N R D = true ->
  (mu0 * I * (2 * N) * R * R) / D = 2 * ((mu0 * I * N * R * R) / D).
Proof.
  unfold axial_scales_turns. cbv zeta. rewrite !andb_true_iff.
  intros HN (((H2 & H3) & H4) & H5).
  destruct (mul_scaled_r N (mu0 * I) HN H2) as [E2 S2].
  destruct (mul_scaled _ R S2 H3) as [E3 S3].
  destruct (mul_scaled _ R S3 H4) as [E4 S4].
  destruct (div_scaled _ D S4 H5) as [E5 _].
  now rewrite E2, E3, E4, E5.
Qed.

Lemma off_axis_double_turns I N D X G1 G2 c s :
  scalable N = true -> off_axis_scales_turns I N D X G1 G2 c s = true ->
  let f := (mu0 * I * N) / D in
  let f' := (mu0 * I * (2 * N)) / D in
  f' * G2 = 2 * (f * G2) /\
  f' * X * G1 * c = 2 * (f * X * G1 * c) /\
  f' * X * G1 * s = 2 * (f * X * G1 * s).
Proof.
  unfold off_axis_scales_turns. cbv zeta. rewrite !andb_true_iff.
  intros HN ((((((H2 & H3) & H4) & H5) & H6) & H7) & H8).
  destruct (mul_scaled_r N (mu0 * I) HN H2) as [E2 S2].
  destruct (div_scaled _ D S2 H3) as [E3 S3].
  destruct (mul_scaled _ X S3 H4) as [E4 S4].
  destruct (mul_scaled _ G1 S4 H5) as [E5 S5].
  destruct (mul_scaled _ G2 S3 H6) as [E6 _].
  destruct (mul_scaled _ c S5 H7) as [E7 _].
  destruct (mul_scaled _ s S5 H8) as [E8 _].
  rewrite E2, E3, E4, E5, E6, E7, E8. auto.
Qed.

Section TurnsDoubling.
Context {host : Host}.

(** X16.  Doubling the turn count doubles the field vector, component by
    component and exactly, when no value that depends on the turn count
    leaves the range in which twice a number has the same digits: [N] is a
    zero, an infinity, [NaN] or a normal number with
    [2^-1020 <= |N| < 2^1023], and each product or quotient [r] computed
    from it ([mu0 * I * N], [mu0 * I * N * R], ...) is a normal number with
    [2^-1020 <= |r| < 2^1023], unless one of its two operands is a zero, an
    infinity or [NaN] (a result that is a zero because it underflowed does
    not qualify); off the axis, [ellipticKE] returns the [K] and [E] that
    these products are computed with.  Then the loop-field functions of both
    files return, and they return for [2 * N] the vector
    [(2 * bx, 2 * by, 2 * bz)] of what they return for [N]. *)
Theorem field_doubles_with_turns :
  (forall fuel x y z R I N,
     let rho := Math_hypot2 y z in
     let kSqRaw := (4 * R * rho) / (Math_pow (R + rho) 2 + x * x) in
     turns_scale fuel I N R rho x y z
       (Math_min (1 - 1e-14) (Math_max 0 kSqRaw)) ->
     exists b,
       result (SingleCoil.loopFieldMeters fuel x y z R I N) = Return b /\
       result (SingleCoil.loopFieldMeters fuel x y z R I (2 * N))
         = Return (2 * idx0 b, 2 * idx1 b, 2 * idx2 b)) /\
  (forall fuel I N xp yp zp a x0,
     let rho := Math_hypot2 yp zp in
     let zax := xp - x0 in
     turns_scale fuel I N a rho zax yp zp
       ((4 * a * rho) / (Math_pow (a + rho) 2 + zax * zax)) ->
     exists b,
       result (Helmholtz.loopField fuel I N xp yp zp a x0) = Return b /\
       result (Helmholtz.loopField fuel I (2 * N) xp yp zp a x0)
         = Return (2 * idx0 b, 2 * idx1 b, 2 * idx2 b)).
Proof.
  assert (Z2 : 2 * 0 = 0) by reflexivity.
  split.
  - intros fuel x y z R I N rho kSqRaw [HN H].
    unfold SingleCoil.loopFieldMeters. rewrite !result_enter.
    fold rho. fold kSqRaw.
    destruct (strict_eq rho 0).
    + eexists. split; [reflexivity|].
      unfold ret, result, idx0, idx1, idx2, fst, snd.
      rewrite Z2, (axial_double_turns I N R _ HN H). reflexivity.
    + destruct H as (K & E & HKE & H). cbv zeta in H.
      destruct (off_axis_double_turns _ _ _ _ _ _ _ _ HN H) as (E1 & E2 & E3).
      cbv zeta in E1, E2, E3.
      rewrite HKE. unfold lift, bind, ret, result, snd.
      eexists. split; [reflexivity|].
      unfold idx0, idx1, idx2, fst, snd.
      now rewrite E1, E2, E3.
  - intros fuel I N xp yp zp a x0 rho zax [HN H].
    unfold Helmholtz.loopField. rewrite !result_enter.
    fold rho. fold zax.
    destruct (strict_eq rho 0).
    + eexists. split; [reflexivity|].
      unfold ret, result, idx0, idx1, idx2, fst, snd.
      rewrite Z2, (axial_double_turns I N a _ HN H). reflexivity.
    + destruct H as (K & E & HKE & H). cbv zeta in H.
      destruct (off_axis_double_turns _ _ _ _ _ _ _ _ HN H) as (E1 & E2 & E3).
      cbv zeta in E1, E2, E3.
      rewrite HKE. unfold lift, bind, ret, result, snd.
      eexists. split; [reflexivity|].
      unfold idx0, idx1, idx2, fst, snd.
      now rewrite E1, E2, E3.
Qed.

End TurnsDoubling.


(** ** The theorems at concrete inputs, on the reference host *)

Lemma helmholtz_on_wire_throws_witness :
  @Math_hypot2 reference_host 1 0 = 1 /\
  @Math_pow reference_host 2 2 = 4 /\
  rejected (-50) 100 0 100 10 10 100 = false /\
  result (@Helmholtz.helmholtzField reference_host 0 (-50) 100 0 100 10 10 100)
    = Throw domain_message /\
  result (@Helmholtz.onClick reference_host 0 (-50) 100 0 100 10 10 100 blank_page)
    = Return {| error_text := domain_message; output_text := "" |}.
Proof.
  refine (conj eq_refl (conj eq_refl (conj eq_refl _))).
  exact (@helmholtz_on_wire_throws reference_host 0 10 10 100 blank_page
           eq_refl eq_refl eq_refl).
Defined.

Lemma validation_rejects_witness :
  rejected 1 2 3 0 1 10 100 = true /\
  exists msg,
    In msg validation_messages /\
    @SingleCoil.onClick reference_host 0 1 2 3 0 1 10 100 blank_page
      = ([], Return {| error_text := msg; output_text := "" |}) /\
    @Helmholtz.onClick reference_host 0 1 2 3 0 1 10 100 blank_page
      = ([], Return {| error_text := msg; output_text := "" |}).
Proof.
  split; [reflexivity|].
  exact (@validation_rejects reference_host 0 1 2 3 0 1 10 100 blank_page eq_refl).
Defined.

Lemma on_axis_closed_form_witness :
  strict_eq (@Math_hypot2 reference_host 0 0) 0 = true /\
  result (@SingleCoil.loopFieldMeters reference_host 0 0.03 0 0 0.1 1 100)
    = Return (mu0 * 1 * 100 * 0.1 * 0.1
              / (2 * @Math_pow reference_host (0.1 * 0.1 + 0.03 * 0.03) 1.5), 0, 0) /\
  result (@Helmholtz.loopField reference_host 0 1 100 0.03 0 0 0.1 0.05)
    = Return (let zax := 0.03 - 0.05 in
              (mu0 * 1 * 100 * 0.1 * 0.1
               / (2 * @Math_pow reference_host (0.1 * 0.1 + zax * zax) 1.5), 0, 0)).
Proof.
  split; [reflexivity|].
  exact (@on_axis_closed_form reference_host 0 0.03 0 0 0.1 1 100 0.05 eq_refl).
Defined.

Lemma helmholtz_center_field_witness :
  strict_eq (@Math_hypot2 reference_host 0 0) 0 = true /\
  In (@Math_pow reference_host 0.012500000000000002 1.5) pow_center_candidates /\
  exists bx,
    result (@Helmholtz.helmholtzField reference_host 0 0 0 0 10 10 10 100)
      = Return (bx, 0, 0) /\
    within 0.01 (helmholtz_center_formula 0.1 100 1) bx = true /\
    within 0.01 9.0e-4 bx = true.
Proof.
  refine (conj eq_refl (conj _ _)).
  - right; right; left; reflexivity.
  - exact (@helmholtz_center_field reference_host 0 eq_refl
             (or_intror (or_intror (or_introl eq_refl)))).
Defined.

Lemma gradient_central_difference_witness :
  Number_isNaN 10 = false /\ (60 <= 60)%nat /\
  let x := 1 * 1e-2 in
  let y := 2 * 1e-2 in
  let z := 3 * 1e-2 in
  let R := 10 * 1e-2 in
  let h := Math_max 1e-5 (R * 1e-4) in
  let field px py pz := @SingleCoil.loopFieldMeters reference_host 60 px py pz R 1 100 in
  let entry px py pz := Call "loopFieldMeters" [px; py; pz; R; 1; 100] in
  exists t r b0 bxp bxm byp bym bzp bzm,
    @SingleCoil.coilFieldWithGrad reference_host 60 1 2 3 10 1 100 = (t, Return r) /\
    result (field x y z) = Return b0 /\
    result (field (x + h) (y + 0) (z + 0)) = Return bxp /\
    result (field (x + - h) (y + 0) (z + 0)) = Return bxm /\
    result (field (x + 0) (y + h) (z + 0)) = Return byp /\
    result (field (x + 0) (y + - h) (z + 0)) = Return bym /\
    result (field (x + 0) (y + 0) (z + h)) = Return bzp /\
    result (field (x + 0) (y + 0) (z + - h)) = Return bzm /\
    SingleCoil.B r = b0 /\
    SingleCoil.Bmag r = @magnitude reference_host b0 /\
    SingleCoil.grad r =
      ((@magnitude reference_host bxp - @magnitude reference_host bxm) / (2 * h),
       (@magnitude reference_host byp - @magnitude reference_host bym) / (2 * h),
       (@magnitude reference_host bzp - @magnitude reference_host bzm) / (2 * h)) /\
    t = [ Call "coilFieldWithGrad" [1; 2; 3; 10; 1; 100];
          entry x y z;
          entry (x + h) (y + 0) (z + 0); entry (x + - h) (y + 0) (z + 0);
          entry (x + 0) (y + h) (z + 0); entry (x + 0) (y + - h) (z + 0);
          entry (x + 0) (y + 0) (z + h); entry (x + 0) (y + 0) (z + - h) ].
Proof.
  refine (conj eq_refl (conj (le_n 60) _)).
  exact (@gradient_central_difference reference_host 60 1 2 3 10 1 100
           eq_refl (le_n 60)).
Defined.

Lemma helmholtz_mirror_symmetry_witness :
  exists b,
    result (@Helmholtz.helmholtzField reference_host 100 1 2 3 10 10 10 100) = Return b /\
    exists b',
      result (@Helmholtz.helmholtzField reference_host 100 (- (1)) 2 3 10 10 10 100)
        = Return b' /\
      idx0 b' = idx0 b.
Proof.
  eexists.
  refine ((fun H => conj H
            (@helmholtz_mirror_symmetry reference_host 100 1 2 3 10 10 10 100 _ H)) _).
  vm_compute. reflexivity.
Defined.

Lemma ellipticKE_terminates_witness :
  (0 <=? 0.5) = true /\ (0.5 <? 1) = true /\ (60 <= 60)%nat /\
  exists K E, ellipticKE 60 0.5 = Return (K, E).
Proof.
  refine (conj eq_refl (conj eq_refl (conj (le_n 60) _))).
  exact (ellipticKE_terminates 0.5 60 eq_refl eq_refl (le_n 60)).
Defined.

Lemma field_doubles_with_current_witness :
  (exists b,
     result (@SingleCoil.loopFieldMeters reference_host 60 0.05 0.03 0.04 0.1 1 100)
       = Return b /\
     result (@SingleCoil.loopFieldMeters reference_host 60 0.05 0.03 0.04 0.1 (2 * 1) 100)
       = Return (2 * idx0 b, 2 * idx1 b, 2 * idx2 b) /\
     finite_vec b = true /\
     euclidean_length (twice b) = (2 * euclidean_length b)%R) /\
  (exists b,
     result (@Helmholtz.helmholtzField reference_host 60 0 3 4 10 10 10 100)
       = Return b /\
     result (@Helmholtz.helmholtzField reference_host 60 0 3 4 10 (2 * 10) 10 100)
       = Return (twice b) /\
     finite_vec b = true /\
     euclidean_length (twice b) = (2 * euclidean_length b)%R /\
     rejected 0 3 4 10 10 10 100 = false /\
     @Math_hypot3 reference_host (2 * idx0 b) (2 * idx1 b) (2 * idx2 b)
       = 2 * @Math_hypot3 reference_host (idx0 b) (idx1 b) (idx2 b) /\
     result (@Helmholtz.onClick reference_host 60 0 3 4 10 10 10 100 blank_page)
       = Return {| error_text := "";
                   output_text :=
                     @Helmholtz.render reference_host b (@magnitude reference_host b) |} /\
     result (@Helmholtz.onClick reference_host 60 0 3 4 10 (2 * 10) 10 100 blank_page)
       = Return {| error_text := "";
                   output_text :=
                     @Helmholtz.render reference_host (twice b)
                       (2 * @magnitude reference_host b) |}) /\
  (exists r r2,
     result (@SingleCoil.coilFieldWithGrad reference_host 60 5 3 4 10 1 100)
       = Return r /\
     result (@SingleCoil.coilFieldWithGrad reference_host 60 5 3 4 10 (2 * 1) 100)
       = Return r2 /\
     SingleCoil.B r2 = twice (SingleCoil.B r) /\
     finite_vec (SingleCoil.B r) = true /\
     euclidean_length (SingleCoil.B r2) = (2 * euclidean_length (SingleCoil.B r))%R /\
     (let b := SingleCoil.B r in
      @Math_hypot3 reference_host (2 * idx0 b) (2 * idx1 b) (2 * idx2 b)
        = 2 * @Math_hypot3 reference_host (idx0 b) (idx1 b) (idx2 b)) /\
     SingleCoil.Bmag r2 = 2 * SingleCoil.Bmag r).
Proof.
  split; [|split].
  - destruct (proj1 (@field_doubles_with_current reference_host)
                60%nat 0.05 0.03 0.04 0.1 1 100) as (b & H1 & H2 & H3).
    + split; [vm_compute; reflexivity|].
      vm_compute. eexists. eexists. split; reflexivity.
    + assert (Hf : finite_vec b = true).
      { vm_compute in H1. injection H1 as <-. vm_compute. reflexivity. }
      exists b. split; [exact H1|]. split; [exact H2|]. split; [exact Hf|exact (H3 Hf)].
  - destruct (proj1 (proj2 (proj2 (@field_doubles_with_current reference_host)))
                60%nat 0 3 4 10 10 10 100 blank_page) as (b & H1 & H2 & H3 & H4).
    + split; [vm_compute; reflexivity|].
      split; [vm_compute; reflexivity|].
      split; [split; [vm_compute; reflexivity|];
              vm_compute; eexists; eexists; split; reflexivity|].
      split; [split; [vm_compute; reflexivity|];
              vm_compute; eexists; eexists; split; reflexivity|].
      eexists. eexists.
      split; [vm_compute; reflexivity|].
      split; [vm_compute; reflexivity|].
      vm_compute. reflexivity.
    + assert (Hf : finite_vec b = true).
      { vm_compute in H1. injection H1 as <-. vm_compute. reflexivity. }
      assert (Hh : @Math_hypot3 reference_host (2 * idx0 b) (2 * idx1 b) (2 * idx2 b)
                   = 2 * @Math_hypot3 reference_host (idx0 b) (idx1 b) (idx2 b)).
      { vm_compute in H1. injection H1 as <-. vm_compute. reflexivity. }
      exists b. split; [exact H1|]. split; [exact H2|]. split; [exact Hf|].
      split; [exact (H3 Hf)|]. split; [reflexivity|].
      split; [exact Hh|exact (H4 eq_refl Hh)].
  - destruct (proj2 (proj2 (proj2 (@field_doubles_with_current reference_host)))
                60%nat 5 3 4 10 1 100 (le_n 60)) as (r & r2 & H1 & H2 & H3 & H4 & H5).
    + split; [vm_compute; reflexivity|].
      vm_compute. eexists. eexists. split; reflexivity.
    + assert (Hf : finite_vec (SingleCoil.B r) = true).
      { vm_compute in H1. injection H1 as <-. vm_compute. reflexivity. }
      assert (Hh : let b := SingleCoil.B r in
                   @Math_hypot3 reference_host (2 * idx0 b) (2 * idx1 b) (2 * idx2 b)
                   = 2 * @Math_hypot3 reference_host (idx0 b) (idx1 b) (idx2 b)).
      { vm_compute in H1. injection H1 as <-. vm_compute. reflexivity. }
      exists r, r2. split; [exact H1|]. split; [exact H2|]. split; [exact H3|].
      split; [exact Hf|]. split; [exact (H4 Hf)|]. split; [exact Hh|exact (H5 Hh)].
Defined.

Lemma transverse_reflection_witness :
  @Math_hypot2 reference_host (- 0.03) 0.04 = @Math_hypot2 reference_host 0.03 0.04 /\
  @Math_hypot2 reference_host 0.03 (- 0.04) = @Math_hypot2 reference_host 0.03 0.04 /\
  outcome_rel (fun b b' => same_vec b' (flip_vec false true false b))
    (result (@SingleCoil.loopFieldMeters reference_host 60 0.05 0.03 0.04 0.1 1 100))
    (result (@SingleCoil.loopFieldMeters reference_host 60 0.05 (- 0.03) 0.04 0.1 1 100)).
Proof.
  refine (conj eq_refl (conj eq_refl _)).
  exact (proj1 (proj1 (@transverse_reflection reference_host 60 0.05 0.03 0.04 0.1 1 100
                         0.02 eq_refl eq_refl))).
Defined.

Lemma transverse_exchange_witness :
  @Math_hypot2 reference_host 0.04 0.03 = @Math_hypot2 reference_host 0.03 0.04 /\
  result (@SingleCoil.loopFieldMeters reference_host 60 0.05 0.04 0.03 0.1 1 100)
    = outcome_map swap_yz
        (result (@SingleCoil.loopFieldMeters reference_host 60 0.05 0.03 0.04 0.1 1 100)).
Proof.
  refine (conj eq_refl _).
  exact (proj1 (@transverse_exchange reference_host 60 0.05 0.03 0.04 0.1 1 100
                  0.02 eq_refl)).
Defined.

Lemma ellipticKE_outcome_witness :
  ellipticKE 0 1 = Throw domain_message /\
  ((60 <= 60)%nat /\ exists K E, ellipticKE 60 0.5 = Return (K, E)) /\
  ellipticKE 0 nan = Return (Math_PI / 2, Math_PI / 2).
Proof.
  refine (conj _ (conj (conj (le_n 60) _) _)).
  - exact (proj1 (ellipticKE_outcome 1 0) eq_refl).
  - exact (proj1 (proj2 (ellipticKE_outcome 0.5 60)) eq_refl (le_n 60)).
  - exact (proj2 (proj2 (ellipticKE_outcome nan 0)) eq_refl).
Defined.

Lemma ellipticKE_K_positive_witness :
  (0 <=? 0.9) = true /\ (0.9 <? 1) = true /\ (60 <= 60)%nat /\
  exists K E, ellipticKE 60 0.9 = Return (K, E) /\
              (0 <? K) = true /\ isFinite K = true.
Proof.
  refine (conj eq_refl (conj eq_refl (conj (le_n 60) _))).
  exact (ellipticKE_K_positive 0.9 60 eq_refl eq_refl (le_n 60)).
Defined.

Lemma single_coil_always_returns_witness :
  (60 <= 60)%nat /\
  (exists b, result (@SingleCoil.loopFieldMeters reference_host 60 0 0.1 0 0.1 1 100)
             = Return b) /\
  (exists r, result (@SingleCoil.coilFieldWithGrad reference_host 60 0 10 0 10 1 100)
             = Return r).
Proof.
  refine (conj (le_n 60) (conj _ _)).
  - exact (proj1 (@single_coil_always_returns reference_host 60 0 0.1 0 0.1 1 100 (le_n 60))).
  - exact (proj2 (@single_coil_always_returns reference_host 60 0 10 0 10 1 100 (le_n 60))).
Defined.

Lemma helmholtz_loop_outcome_witness :
  (60 <= 60)%nat /\
  result (@Helmholtz.loopField reference_host 60 1 100 (-0.5) 1 0 1 (-0.5))
    = Throw domain_message.
Proof.
  refine (conj (le_n 60) _).
  exact (@helmholtz_loop_outcome reference_host 60 1 100 (-0.5) 1 0 1 (-0.5) (le_n 60)).
Defined.


Lemma single_coil_click_shows_result_witness :
  (60 <= 60)%nat /\
  rejected 1 2 3 10 1 10 100 = false /\
  exists r,
    result (@SingleCoil.coilFieldWithGrad reference_host 60 1 2 3 10 1 100) = Return r /\
    result (@SingleCoil.onClick reference_host 60 1 2 3 10 1 10 100 blank_page)
      = Return {| error_text := "";
                  output_text := @SingleCoil.render reference_host r (1 * 10) |}.
Proof.
  refine (conj (le_n 60) (conj eq_refl _)).
  exact (@single_coil_click_shows_result reference_host 60 1 2 3 10 1 10 100 blank_page
           (le_n 60) eq_refl).
Defined.

Lemma helmholtz_click_outcome_witness :
  (60 <= 60)%nat /\
  rejected (-50) 100 0 100 10 10 100 = false /\
  result (@Helmholtz.onClick reference_host 60 (-50) 100 0 100 10 10 100 blank_page)
    = Return {| error_text := domain_message; output_text := "" |}.
Proof.
  refine (conj (le_n 60) (conj eq_refl _)).
  exact (proj2 (@helmholtz_click_outcome reference_host 60 (-50) 100 0 100 10 10 100
                  blank_page (le_n 60) eq_refl)).
Defined.

Lemma helmholtz_midplane_is_axial_witness :
  exists b,
    strict_eq 0 0 = true /\
    result (@Helmholtz.helmholtzField reference_host 60 0 3 4 10 10 10 100) = Return b /\
    let x := 0 * 1e-2 in
    let y := 3 * 1e-2 in
    let z := 4 * 1e-2 in
    let R := 10 * 1e-2 in
    let I := 10 / 10 in
    exists b1 b2,
      result (@Helmholtz.loopField reference_host 60 I 100 x y z R (- R / 2)) = Return b1 /\
      result (@Helmholtz.loopField reference_host 60 I 100 x y z R (R / 2)) = Return b2 /\
      same_number (idx1 b1) (- idx1 b2) /\
      same_number (idx2 b1) (- idx2 b2) /\
      (if isFinite (idx1 b2) then strict_eq (idx1 b) 0 = true
       else Number_isNaN (idx1 b) = true) /\
      (if isFinite (idx2 b2) then strict_eq (idx2 b) 0 = true
       else Number_isNaN (idx2 b) = true).
Proof.
  eexists.
  refine (conj eq_refl _).
  refine ((fun H => conj H
            (@helmholtz_midplane_is_axial reference_host 60 0 3 4 10 10 10 100 _
               eq_refl H)) _).
  vm_compute. reflexivity.
Defined.

Lemma helmholtz_mirror_image_witness :
  exists b,
    result (@Helmholtz.helmholtzField reference_host 60 1 2 3 10 10 10 100) = Return b /\
    exists b',
      result (@Helmholtz.helmholtzField reference_host 60 (- (1)) 2 3 10 10 10 100)
        = Return b' /\
      mirror_image b b'.
Proof.
  eexists.
  refine ((fun H => conj H
            (@helmholtz_mirror_image reference_host 60 1 2 3 10 10 10 100 _ H)) _).
  vm_compute. reflexivity.
Defined.

Lemma field_doubles_with_turns_witness :
  exists b,
    result (@Helmholtz.loopField reference_host 60 1 100 0.02 0.03 0.04 0.1 0.05)
      = Return b /\
    result (@Helmholtz.loopField reference_host 60 1 (2 * 100) 0.02 0.03 0.04 0.1 0.05)
      = Return (2 * idx0 b, 2 * idx1 b, 2 * idx2 b).
Proof.
  apply (proj2 (@field_doubles_with_turns reference_host)
           60%nat 1 100 0.02 0.03 0.04 0.1 0.05).
  split; [vm_compute; reflexivity|].
  vm_compute. eexists. eexists. split; reflexivity.
Defined.

